(** * The distribution builder of make-release (pkg/make-release/dist_builder.go)

    A shallow embedding of [DistBuilder] and of [runParallel].

    - Every build step is a finite program over the calls it makes to the
      outside world (the compilers, the file system, the logger, the JS
      packager): type [prog].
    - [runParallel] is a transition system over goroutine states, the wait
      group counter, the mutex and the [firstErr] slot; one transition per
      atomic action of the Go code, any interleaving.
    - [Build] glues the sequential prologue, the concurrent phase and the
      sequential epilogue. *)

From Stdlib Require Import ZArith Lia Ascii String.
From Stdlib Require Import Wellfounded.
From stdpp Require Import base tactics option relations list strings.

Open Scope string_scope.
Open Scope list_scope.
Open Scope nat_scope.

(** ** Errors *)

(** An [error] value as the code builds them with github.com/cockroachdb/errors:
    [errors.New]/[errors.Newf] with the message already formatted, and
    [errors.Wrap]/[errors.Wrapf], which keep the cause.  Errors that come back
    from the operating system or from a collaborator are values of the same
    type; the builder never looks inside them. *)
Inductive error : Type :=
| errors_New (msg : string)
| errors_Wrap (cause : error) (msg : string).

(** The innermost error of a chain of wraps ([errors.UnwrapAll]). *)
Fixpoint root_cause (e : error) : error :=
  match e with
  | errors_New _ => e
  | errors_Wrap c _ => root_cause c
  end.

(** ** Logging (zerolog) *)

Inductive level : Type := InfoLevel | ErrorLevel.

(** One log line: [d.log.Info()], [d.log.Error()] or [d.log.Err(err)], the
    fields added with [Str], and the message. *)
Record logline : Type := Logline {
  log_level : level;
  log_err : option error;
  log_fields : list (string * string);
  log_msg : string
}.

(** A [zerolog.Logger] is the list of context fields it adds to every line. *)
Definition Logger : Type := list (string * string).

(** ** The version package *)

(** Modelled from the spec: the type [version.ReleaseChannel] and its constants
    [GA], [Beta], [Nightly] and [DevBuild] are declared in
    encr.dev/internal/version, which is not part of the sources at hand.  The
    spec names four mutually exclusive channels and lets "any other value"
    exist; [OtherChannel] stands for those. *)
Inductive ReleaseChannel : Type :=
| GA
| Beta
| Nightly
| DevBuild
| OtherChannel (name : string).

(** ** The JS packager *)

(** Modelled from the spec: [JSPackager] is declared in another file of the
    package.  The builder uses three of its fields: [DistFolder], the declared
    output directory, a plain string; and [compileCompleted] (a channel) and
    [compileFailed] (an atomic boolean), which are shared with the packager's
    own goroutine and therefore live in the world, behind the calls
    [RecvCompileCompleted] and [LoadCompileFailed]. *)
Record JSPackager : Type := mkJSPackager {
  DistFolder : string
}.

(** ** Calls to the outside world *)

(** [call X] is a call whose answer has type [X]. *)
Inductive call : Type -> Type :=
| Log (l : logline) : call unit
| os_RemoveAll (path : string) : call (option error)
| os_MkdirAll (path : string) (perm : Z) : call (option error)
| os_WriteFile (name : string) (data : string) (perm : Z) : call (option error)
| CompileGoBinary (outputPath pkgPath : string) (linkerOpts : list string)
    (os arch : string) : call (option error)
| CompileRustBinary (artifact outputPath cratePath os arch : string)
    (env : list string) : call (option error)
| downloadLatestGithubRelease (owner repo os arch : string)
    : call (string * option error)
| extractArchive (archive dest : string) : call (option error)
| exec_CombinedOutput (name : string) (args : list string)
    : call (string * option error)
| TarGzip (srcDir dstFile : string) : call (option error)
| RecvCompileCompleted : call unit
| LoadCompileFailed : call bool.

(** A call together with the answer it got. *)
Inductive event : Type :=
| Event (X : Type) (c : call X) (x : X).
Arguments Event {X} c x.

(** ** Programs *)

Inductive prog (A : Type) : Type :=
| Ret (a : A)
| Vis (X : Type) (c : call X) (k : X -> prog A).
Arguments Ret {A} a.
Arguments Vis {A X} c k.

Fixpoint prog_bind {A B : Type} (k : A -> prog B) (p : prog A) : prog B :=
  match p with
  | Ret a => k a
  | Vis c k' => Vis c (fun x => prog_bind k (k' x))
  end.

#[global] Instance prog_mret : MRet prog := @Ret.
#[global] Instance prog_mbind : MBind prog := @prog_bind.

Definition perform {X : Type} (c : call X) : prog X := Vis c Ret.

(** ** Running one program on its own *)

(** How the world answers: [answer c w] is the new world and the answer to
    [c]; [signalled w] tells whether the packager's completion channel can be
    received from. *)
Record Handler (W : Type) : Type := mkHandler {
  answer : forall X, call X -> W -> W * X;
  signalled : W -> bool
}.
Arguments mkHandler {W} _ _.
Arguments answer {W} _ {X} _ _.
Arguments signalled {W} _ _.

(** The only call that can block is the channel receive. *)
Definition ready {W X : Type} (h : Handler W) (c : call X) (w : W) : bool :=
  match c with
  | RecvCompileCompleted => signalled h w
  | _ => true
  end.

(** The outcome of a sequential run: the final world, the calls made in order,
    and the returned value, [None] when the run is blocked on the channel
    receive. *)
Record outcome (W A : Type) : Type := Outcome {
  out_world : W;
  out_trace : list event;
  out_value : option A
}.
Arguments Outcome {W A} _ _ _.
Arguments out_world {W A} _.
Arguments out_trace {W A} _.
Arguments out_value {W A} _.

Fixpoint exec_from {W A : Type} (h : Handler W) (p : prog A) (w : W)
  (tr : list event) : outcome W A :=
  match p with
  | Ret a => Outcome w tr (Some a)
  | Vis c k =>
      if ready h c w then
        let (w', x) := answer h c w in
        exec_from h (k x) w' (tr ++ [Event c x])
      else Outcome w tr None
  end.

Definition exec {W A : Type} (h : Handler W) (p : prog A) (w : W)
  : outcome W A :=
  exec_from h p w [].

(** ** path/filepath (Unix) *)

(** The pieces of [s] between the occurrences of the separator [sep]
    ([strings.Split] with a one-byte separator). *)
Fixpoint split_on (sep : ascii) (s : string) : list string :=
  match s with
  | EmptyString => [EmptyString]
  | String c rest =>
      if Ascii.eqb c sep then EmptyString :: split_on sep rest
      else
        match split_on sep rest with
        | piece :: pieces => String c piece :: pieces
        | [] => [String c EmptyString]
        end
  end.

(** [strings.Join]. *)
Fixpoint strings_Join (elems : list string) (sep : string) : string :=
  match elems with
  | [] => EmptyString
  | [e] => e
  | e :: rest => e +:+ sep +:+ strings_Join rest sep
  end.

(** One step of [filepath.Clean] over the elements kept so far (innermost
    first): empty elements and [.] are dropped, [..] removes the element
    before it when there is one to remove, stays when the path is relative,
    and is dropped at the root. *)
Definition clean_elem (rooted : bool) (kept : list string) (e : string)
  : list string :=
  if bool_decide (e = EmptyString) || bool_decide (e = ".") then kept
  else if bool_decide (e = "..") then
    match kept with
    | top :: below =>
        if bool_decide (top = "..") then e :: kept else below
    | [] => if rooted then [] else [e]
    end
  else e :: kept.

(** [filepath.Clean]. *)
Definition filepath_Clean (path : string) : string :=
  let rooted := match path with String "/" _ => true | _ => false end in
  let kept := rev (fold_left (clean_elem rooted) (split_on "/" path) []) in
  let body := strings_Join kept "/" in
  if rooted then "/" +:+ body
  else if bool_decide (body = EmptyString) then "." else body.

(** [filepath.Join]: the elements from the first non-empty one on, joined with
    the separator and cleaned; the empty string when all are empty. *)
Fixpoint filepath_Join (elem : list string) : string :=
  match elem with
  | [] => EmptyString
  | e :: rest =>
      if bool_decide (e = EmptyString) then filepath_Join rest
      else filepath_Clean (strings_Join elem "/")
  end.

(** ** DistBuilder *)

Record DistBuilder : Type := mkDistBuilder {
  log : Logger;
  OS : string;               (* The OS to build for *)
  Arch : string;             (* The architecture to build for *)
  TSParserPath : string;     (* The path to the ts-parser repo *)
  DistBuildDir : string;     (* The directory to build into *)
  ArtifactsTarFile : string; (* The directory to put the final tar.gz artifact into *)
  Version : string;          (* The version to build *)
  jsBuilder : JSPackager     (* The JS builder *)
}.

(** File modes, written in octal in the source. *)
Definition perm_0644 : Z := 420.
Definition perm_0755 : Z := 493.

Definition dquote : string := String "034" EmptyString.
Definition newline : string := String "010" EmptyString.

(** [d.log.Info().Msg(msg)] *)
Definition log_Info (d : DistBuilder) (msg : string) : prog unit :=
  perform (Log (Logline InfoLevel None (log d) msg)).

(** [d.log.Info().Str(key, val).Msg(msg)] *)
Definition log_Info_Str (d : DistBuilder) (key val msg : string) : prog unit :=
  perform (Log (Logline InfoLevel None (log d ++ [(key, val)]) msg)).

(** [d.log.Error().Msg(msg)] *)
Definition log_Error (d : DistBuilder) (msg : string) : prog unit :=
  perform (Log (Logline ErrorLevel None (log d) msg)).

(** [d.log.Err(err).Msg(msg)], [err] not nil *)
Definition log_Err (d : DistBuilder) (err : error) (msg : string) : prog unit :=
  perform (Log (Logline ErrorLevel (Some err) (log d) msg)).

(** [d.log.Err(err).Str(key, val).Msg(msg)], [err] not nil *)
Definition log_Err_Str (d : DistBuilder) (err : error) (key val msg : string)
  : prog unit :=
  perform (Log (Logline ErrorLevel (Some err) (log d ++ [(key, val)]) msg)).

(** The contents written to version.cjs. *)
Definition version_cjs (version : string) : string :=
  "// Code generated by /pkg/make-release. DO NOT EDIT." +:+ newline +:+
  newline +:+
  "/**" +:+ newline +:+
  " * The version of the runtime this JS bundle was built for" +:+ newline +:+
  " */" +:+ newline +:+
  "module.exports.version = " +:+ dquote +:+ version +:+ dquote +:+ ";" +:+
  newline.

Section DistBuilder.

(** The package's own path helper [join] and [version.ChannelFor] are defined
    outside dist_builder.go; the builder is parametric in them. *)
Variable join : list string -> string.
Variable ChannelFor : string -> ReleaseChannel.

Definition buildEncoreCLI (d : DistBuilder) : prog (option error) :=
  (* Build the CLI binaries. *)
  log_Info d "building encore binary...";;
  let linkerOpts :=
    ["-X"; "'encr.dev/internal/version.Version=" +:+ Version d +:+ "'"] in
  (* If we're building a nightly, devel or beta version, we need to set the
     default config directory *)
  match
    match ChannelFor (Version d) with
    | GA => inr EmptyString
    | Beta => inr "-beta"
    | Nightly => inr "-nightly"
    | DevBuild => inr "-develop"
    | OtherChannel _ =>
        inl (errors_New ("unknown version channel for " +:+ Version d))
    end
  with
  | inl err => mret (Some err)
  | inr versionSuffix =>
      let linkerOpts :=
        if bool_decide (versionSuffix ≠ EmptyString) then
          (linkerOpts ++
           ["-X";
            "'encr.dev/internal/conf.defaultConfigDirectory=encore"
              +:+ versionSuffix +:+ "'"])%list
        else linkerOpts in
      err ← perform (CompileGoBinary
                       (join [DistBuildDir d; "bin"; "encore" +:+ versionSuffix])
                       "./cli/cmd/encore"
                       linkerOpts
                       (OS d)
                       (Arch d));
      match err with
      | Some err =>
          log_Err d err "encore failed to build";;
          mret (Some (errors_Wrap err "compile encore"))
      | None =>
          log_Info d "encore built successfully";;
          mret None
      end
  end.

Definition buildGitHook (d : DistBuilder) : prog (option error) :=
  (* Build the git-remote-encore binary. *)
  log_Info d "building git-remote-encore binary...";;
  err ← perform (CompileGoBinary
                   (join [DistBuildDir d; "bin"; "git-remote-encore"])
                   "./cli/cmd/git-remote-encore"
                   []
                   (OS d)
                   (Arch d));
  match err with
  | Some err =>
      log_Err d err "git-remote-encore failed to build";;
      mret (Some (errors_Wrap err "compile git-remote-encore"))
  | None =>
      log_Info d "git-remote-encore built successfully";;
      mret None
  end.

Definition buildTSBundler (d : DistBuilder) : prog (option error) :=
  (* Build the TS bundler. *)
  log_Info d "building tsbundler binary...";;
  let linkerOpts :=
    ["-X"; "'encr.dev/internal/version.Version=" +:+ Version d +:+ "'"] in
  err ← perform (CompileGoBinary
                   (join [DistBuildDir d; "bin"; "tsbundler-encore"])
                   "./cli/cmd/tsbundler-encore"
                   linkerOpts
                   (OS d)
                   (Arch d));
  match err with
  | Some err =>
      log_Err d err "tsbundler failed to build";;
      mret (Some (errors_Wrap err "compile tsbundler"))
  | None =>
      log_Info d "tsbundler built successfully";;
      mret None
  end.

Definition buildTSParser (d : DistBuilder) : prog (option error) :=
  (* Build the TS parser. *)
  log_Info d "building ts-parser binary...";;
  err ← perform (CompileRustBinary
                   "tsparser-encore"
                   (join [DistBuildDir d; "bin"; "tsparser-encore"])
                   (TSParserPath d)
                   (OS d)
                   (Arch d)
                   ["ENCORE_VERSION=" +:+ Version d]);
  match err with
  | Some err =>
      log_Err d err "ts-parser failed to build";;
      mret (Some (errors_Wrap err "compile ts-parser"))
  | None =>
      log_Info d "ts-parser built successfully";;
      mret None
  end.

(** The function literal at the head of [buildNodePlugin]. *)
Definition compiledBinaryName_of (os : string) : string * option error :=
  if bool_decide (os = "darwin") then ("libencore_js_runtime.dylib", None)
  else if bool_decide (os = "linux") then ("libencore_js_runtime.so", None)
  else if bool_decide (os = "windows") then ("encore_js_runtime.dll", None)
  else (EmptyString, Some (errors_New ("unknown OS: " +:+ os))).

Definition buildNodePlugin (d : DistBuilder) : prog (option error) :=
  log_Info d "building node plugin...";;
  (* Figure out the names of the compiled and target binaries. *)
  let '(compiledBinaryName, err) := compiledBinaryName_of (OS d) in
  match err with
  | Some err =>
      log_Err d err "node plugin failed to build";;
      mret (Some (errors_Wrap err "compile node plugin"))
  | None =>
      log_Info d "Patching jscore/api/version.cjs...";;
      err ← perform (os_WriteFile
                       (filepath_Join ["."; "runtimes"; "jscore"; "api"; "version.cjs"])
                       (version_cjs (Version d))
                       perm_0644);
      match err with
      | Some err =>
          log_Err d err "failed to patch version.cjs";;
          mret (Some (errors_Wrap err "write patch version.cjs"))
      | None =>
          (* Build the node plugin. *)
          err ← perform (CompileRustBinary
                           compiledBinaryName
                           (join [DistBuildDir d; "bin"; "encore-runtime.node"])
                           "./runtimes/jscore"
                           (OS d)
                           (Arch d)
                           ["ENCORE_VERSION=" +:+ Version d]);
          match err with
          | Some err =>
              log_Err d err "node plugin failed to build";;
              mret (Some (errors_Wrap err "compile node plugin"))
          | None =>
              log_Info d "node plugin built successfully";;
              mret None
          end
      end
  end.

Definition downloadEncoreGo (d : DistBuilder) : prog (option error) :=
  (* Step 1: Find out the latest release version for Encore's Go distribution *)
  log_Info d "downloading latest encore-go...";;
  '(encoreGoArchive, err) ←
    perform (downloadLatestGithubRelease "encoredev" "go" (OS d) (Arch d));
  match err with
  | Some err =>
      log_Err d err "failed to download encore-go";;
      mret (Some (errors_Wrap err "download encore-go"))
  | None =>
      log_Info d "extracting encore-go...";;
      err ← perform (extractArchive encoreGoArchive (DistBuildDir d));
      match err with
      | Some err =>
          log_Err d err "failed to extract encore-go";;
          mret (Some (errors_Wrap err "extract encore-go"))
      | None =>
          log_Info d "encore-go extracted successfully";;
          mret None
      end
  end.

Definition copyEncoreRuntimeForGo (d : DistBuilder) : prog (option error) :=
  log_Info d "copying encore runtime for Go...";;
  '(out, err) ←
    perform (exec_CombinedOutput "cp"
               ["-r"; "runtimes/go/."; join [DistBuildDir d; "runtimes"; "go"] +:+ "/"]);
  match err with
  | Some err =>
      log_Err_Str d err "stderr" out "encore runtime for go failed to be copied";;
      mret (Some (errors_Wrap err ("cp go runtime: " +:+ out)))
  | None =>
      log_Info d "encore runtime for go copied successfully";;
      mret None
  end.

Definition copyEncoreRuntimeForJS (d : DistBuilder) : prog (option error) :=
  log_Info d "waiting for JS packager to complete...";;
  perform RecvCompileCompleted;;
  compileFailed ← perform LoadCompileFailed;
  if (compileFailed : bool) then
    log_Error d "JS packager failed to build";;
    mret (Some (errors_New "js build failed"))
  else
    log_Info d "copying encore runtime for JS...";;
    '(out, err) ←
      perform (exec_CombinedOutput "cp"
                 ["-r"; DistFolder (jsBuilder d) +:+ "/.";
                  join [DistBuildDir d; "runtimes"; "js"] +:+ "/"]);
    match err with
    | Some err =>
        log_Err_Str d err "stderr" out "encore runtime for js failed to be copied";;
        mret (Some (errors_Wrap err ("cp js runtime: " +:+ out)))
    | None =>
        log_Info d "encore runtime for js copied successfully";;
        mret None
    end.

End DistBuilder.

(** ** runParallel *)

(** Threads: the caller of [runParallel] and the goroutines it starts,
    numbered in the order of the [for] loop. *)
Inductive tid : Type :=
| TMain
| TGo (i : nat).

(** What the trace records.  [LCall] is a call to the outside world; the
    others are the actions of [runParallel] itself. *)
Inductive label : Type :=
| LCall (t : tid) (ev : event)
| LSpawn (i : nat)                        (* [go func() {...}()] *)
| LReturn (i : nat) (err : option error)  (* [f()] has returned [err] *)
| LStore (i : nat) (err : error)          (* [firstErr = err] *)
| LDiscard (i : nat) (err : error)        (* [firstErr == nil] was false *)
| LExit (i : nat)                         (* [wg.Done()] has run *)
| LJoin                                   (* [wg.Wait()] has returned *)
| LResult (err : option error).           (* [return firstErr] *)

(** Where a goroutine is in the function literal. *)
Inductive gstate : Type :=
| GCall (p : prog (option error))  (* inside [f()] *)
| GLock (err : error)              (* [err != nil], at [mu.Lock()] *)
| GTest (err : error)              (* holds [mu], at [if firstErr == nil] *)
| GWrite (err : error)             (* holds [mu], at [firstErr = err] *)
| GUnlock (err : error)            (* at the deferred [mu.Unlock()] *)
| GDone (err : option error)       (* at the deferred [wg.Done()] *)
| GExited (err : option error).    (* the goroutine has ended *)

(** Where the caller is in [runParallel]. *)
Inductive mstate : Type :=
| MAdd (functions : list (prog (option error)))  (* at [wg.Add(len(functions))] *)
| MLoop (rest : list (prog (option error)))      (* at the head of the [for] loop *)
| MWait                                          (* at [wg.Wait()] *)
| MLock                                          (* at [mu.Lock()] *)
| MReturn                                        (* holds [mu], at [return firstErr] *)
| MReturned (err : option error).                (* [runParallel] has returned *)

Record state (W : Type) : Type := mkState {
  world : W;
  trace : list label;
  wg : Z;                      (* the counter of [wg] *)
  mu : bool;                   (* [true] when [mu] is held *)
  firstErr : option error;
  gs : list gstate;            (* the goroutines started so far *)
  main : mstate
}.
Arguments mkState {W} _ _ _ _ _ _ _.
Arguments world {W} _.
Arguments trace {W} _.
Arguments wg {W} _.
Arguments mu {W} _.
Arguments firstErr {W} _.
Arguments gs {W} _.
Arguments main {W} _.

(** The state in which [runParallel(functions...)] is entered. *)
Definition entry {W : Type} (functions : list (prog (option error))) (w : W)
  : state W :=
  mkState w [] 0%Z false None [] (MAdd functions).

(** One action of the caller; [None] when it is blocked or has returned. *)
Definition step_main {W : Type} (s : state W) : option (state W) :=
  match main s with
  | MAdd functions =>
      Some (mkState (world s) (trace s) (wg s + Z.of_nat (length functions))%Z
              (mu s) (firstErr s) (gs s) (MLoop functions))
  | MLoop (f :: rest) =>
      Some (mkState (world s) (trace s ++ [LSpawn (length (gs s))]) (wg s)
              (mu s) (firstErr s) (gs s ++ [GCall f]) (MLoop rest))
  | MLoop [] =>
      Some (mkState (world s) (trace s) (wg s) (mu s) (firstErr s) (gs s) MWait)
  | MWait =>
      if bool_decide (wg s = 0%Z) then
        Some (mkState (world s) (trace s ++ [LJoin]) (wg s) (mu s) (firstErr s)
                (gs s) MLock)
      else None
  | MLock =>
      if mu s then None
      else Some (mkState (world s) (trace s) (wg s) true (firstErr s) (gs s)
                   MReturn)
  | MReturn =>
      Some (mkState (world s) (trace s ++ [LResult (firstErr s)]) (wg s) false
              (firstErr s) (gs s) (MReturned (firstErr s)))
  | MReturned _ => None
  end.

(** One action of goroutine [i], which is in [g]; [None] when it is blocked or
    has ended. *)
Definition step_go {W : Type} (h : Handler W) (i : nat) (g : gstate)
  (s : state W) : option (state W) :=
  match g with
  | GCall (Vis c k) =>
      if ready h c (world s) then
        let (w', x) := answer h c (world s) in
        Some (mkState w' (trace s ++ [LCall (TGo i) (Event c x)]) (wg s) (mu s)
                (firstErr s) (<[i := GCall (k x)]> (gs s)) (main s))
      else None
  | GCall (Ret err) =>
      Some (mkState (world s) (trace s ++ [LReturn i err]) (wg s) (mu s)
              (firstErr s)
              (<[i := match err with
                      | Some err => GLock err
                      | None => GDone None
                      end]> (gs s))
              (main s))
  | GLock err =>
      if mu s then None
      else Some (mkState (world s) (trace s) (wg s) true (firstErr s)
                   (<[i := GTest err]> (gs s)) (main s))
  | GTest err =>
      match firstErr s with
      | None =>
          Some (mkState (world s) (trace s) (wg s) (mu s) (firstErr s)
                  (<[i := GWrite err]> (gs s)) (main s))
      | Some _ =>
          Some (mkState (world s) (trace s ++ [LDiscard i err]) (wg s) (mu s)
                  (firstErr s) (<[i := GUnlock err]> (gs s)) (main s))
      end
  | GWrite err =>
      Some (mkState (world s) (trace s ++ [LStore i err]) (wg s) (mu s)
              (Some err) (<[i := GUnlock err]> (gs s)) (main s))
  | GUnlock err =>
      Some (mkState (world s) (trace s) (wg s) false (firstErr s)
              (<[i := GDone (Some err)]> (gs s)) (main s))
  | GDone err =>
      Some (mkState (world s) (trace s ++ [LExit i]) (wg s - 1)%Z (mu s)
              (firstErr s) (<[i := GExited err]> (gs s)) (main s))
  | GExited _ => None
  end.

(** One action of thread [t]. *)
Definition step {W : Type} (h : Handler W) (t : tid) (s : state W)
  : option (state W) :=
  match t with
  | TMain => step_main s
  | TGo i => g ← gs s !! i; step_go h i g s
  end.

(** The scheduler picks any thread that can act. *)
Definition sched_step {W : Type} (h : Handler W) (s s' : state W) : Prop :=
  ∃ t, step h t s = Some s'.

(** The states an execution of [runParallel(functions...)] goes through. *)
Definition reachable {W : Type} (h : Handler W)
  (functions : list (prog (option error))) (w : W) (s : state W) : Prop :=
  rtc (sched_step h) (entry functions w) s.

(** Running under a given schedule; [None] when the schedule asks for a thread
    that cannot act. *)
Fixpoint run {W : Type} (h : Handler W) (sched : list tid) (s : state W)
  : option (state W) :=
  match sched with
  | [] => Some s
  | t :: sched' => s' ← step h t s; run h sched' s'
  end.

(** [runParallel(functions...)] under a schedule: the final world, the trace
    and the returned error, when the schedule takes the caller to its
    [return]. *)
Definition runParallel {W : Type} (h : Handler W)
  (functions : list (prog (option error))) (sched : list tid) (w : W)
  : option (W * list label * option error) :=
  s ← run h sched (entry functions w);
  match main s with
  | MReturned err => Some (world s, trace s, err)
  | _ => None
  end.

(** A scheduler with priorities: the first thread of [order] that can act
    does; [None] when none of them can. *)
Fixpoint first_step {W : Type} (h : Handler W) (order : list tid)
  (s : state W) : option (tid * state W) :=
  match order with
  | [] => None
  | t :: rest =>
      match step h t s with
      | Some s' => Some (t, s')
      | None => first_step h rest s
      end
  end.

(** The schedule that scheduler produces in at most [fuel] actions. *)
Fixpoint priority_schedule {W : Type} (h : Handler W) (order : list tid)
  (fuel : nat) (s : state W) : list tid :=
  match fuel with
  | O => []
  | S fuel' =>
      match first_step h order s with
      | Some (t, s') => t :: priority_schedule h order fuel' s'
      | None => []
      end
  end.

(** ** Build *)

Section Build.

Variable join : list string -> string.
Variable ChannelFor : string -> ReleaseChannel.

(** [d.log = log.With().Str("os", d.OS).Str("arch", d.Arch).Logger()] *)
Definition with_logger (d : DistBuilder) : DistBuilder :=
  mkDistBuilder [("os", OS d); ("arch", Arch d)] (OS d) (Arch d)
    (TSParserPath d) (DistBuildDir d) (ArtifactsTarFile d) (Version d)
    (jsBuilder d).

(** Prepare the target directory: the [if]/[else if] chain.  [Some err] is the
    error [Build] returns from inside the chain, [None] falls through. *)
Definition Build_prepare (d : DistBuilder) : prog (option error) :=
  log_Info d "building distribution...";;
  err ← perform (os_RemoveAll (DistBuildDir d));
  match err with
  | Some err =>
      log_Err d err "failed to remove existing target dir";;
      mret (Some (errors_Wrap err "remove target dir"))
  | None =>
  err ← perform (os_MkdirAll (DistBuildDir d) perm_0755);
  match err with
  | Some err =>
      log_Err d err "failed to create target dir";;
      mret (Some (errors_Wrap err "create target dir"))
  | None =>
  err ← perform (os_MkdirAll (join [DistBuildDir d; "bin"]) perm_0755);
  match err with
  | Some err =>
      log_Err d err "failed to create bin dir";;
      mret (Some (errors_Wrap err "create bin dir"))
  | None =>
  err ← perform (os_MkdirAll (join [DistBuildDir d; "runtimes"]) perm_0755);
  match err with
  | Some err =>
      log_Err d err "failed to create runtimes dir";;
      mret (Some (errors_Wrap err "create runtimes/go dir"))
  | None =>
  err ← perform (os_MkdirAll (join [DistBuildDir d; "runtimes"; "go"]) perm_0755);
  match err with
  | Some err =>
      log_Err d err "failed to create runtimes/go dir";;
      mret (Some (errors_Wrap err "create runtimes/go dir"))
  | None =>
  err ← perform (os_MkdirAll (join [DistBuildDir d; "runtimes"; "js"]) perm_0755);
  match err with
  | Some err =>
      log_Err d err "failed to create runtimes/js dir";;
      mret (Some (errors_Wrap err "create runtimes/js dir"))
  | None => mret None
  end end end end end end.

(** The functions handed to [runParallel], in the order of the call. *)
Definition Build_steps (d : DistBuilder) : list (prog (option error)) :=
  [ buildEncoreCLI join ChannelFor d;
    buildTSBundler join d;
    buildGitHook join d;
    buildTSParser join d;
    buildNodePlugin join d;
    copyEncoreRuntimeForGo join d;
    copyEncoreRuntimeForJS join d;
    downloadEncoreGo d ].

(** What follows [err := runParallel(...)]. *)
Definition Build_finish (d : DistBuilder) (err : option error)
  : prog (option error) :=
  match err with
  | Some err =>
      log_Err d err "failed to build distribution";;
      mret (Some (errors_Wrap err (" os: " +:+ OS d +:+ ", arch: " +:+ Arch d)))
  | None =>
      (* Now tar gzip the directory *)
      log_Info_Str d "tar_file" (ArtifactsTarFile d)
        "creating distribution tar file...";;
      err ← perform (TarGzip (DistBuildDir d) (ArtifactsTarFile d));
      match err with
      | Some err =>
          log_Err d err "failed to tar gzip distribution";;
          mret (Some (errors_Wrap err
                        (" os: " +:+ OS d +:+ ", arch: " +:+ Arch d)))
      | None =>
          log_Info_Str d "tar_file" (ArtifactsTarFile d)
            "distribution built successfully";;
          mret None
      end
  end.

(** The calls of a sequential stretch of [Build], as trace labels. *)
Definition main_calls (tr : list event) : list label := map (LCall TMain) tr.

(** [Build] builds the distribution.  The concurrent phase runs under
    [sched]; the result is [None] when [sched] does not take it to its end. *)
Definition Build {W : Type} (h : Handler W) (d : DistBuilder)
  (sched : list tid) (w : W) : option (W * list label * option error) :=
  let d := with_logger d in
  let o1 := exec h (Build_prepare d) w in
  match out_value o1 with
  | None => None
  | Some (Some err) =>
      Some (out_world o1, main_calls (out_trace o1), Some err)
  | Some None =>
      '(w2, tr2, err) ← runParallel h (Build_steps d) sched (out_world o1);
      let o3 := exec h (Build_finish d err) w2 in
      r ← out_value o3;
      Some (out_world o3,
            (main_calls (out_trace o1) ++ tr2 ++ main_calls (out_trace o3))%list,
            r)
  end.

End Build.

(** ** What a trace shows *)

Definition is_log (ev : event) : bool :=
  match ev with
  | Event (Log _) _ => true
  | _ => false
  end.

(** The calls of a run, logging apart. *)
Definition externals (tr : list event) : list event :=
  List.filter (fun ev => negb (is_log ev)) tr.

(** The calls to [CompileGoBinary]: output path and linker options. *)
Definition go_builds (tr : list event) : list (string * list string) :=
  omap (fun ev =>
          match ev with
          | Event (CompileGoBinary outputPath _ linkerOpts _ _) _ =>
              Some (outputPath, linkerOpts)
          | _ => None
          end) tr.

(** The calls to [CompileRustBinary]: the artifact asked for. *)
Definition rust_builds (tr : list event) : list string :=
  omap (fun ev =>
          match ev with
          | Event (CompileRustBinary artifact _ _ _ _ _) _ => Some artifact
          | _ => None
          end) tr.

(** The calls to [os.WriteFile]: name, contents and mode. *)
Definition file_writes (tr : list event) : list (string * string * Z) :=
  omap (fun ev =>
          match ev with
          | Event (os_WriteFile name data perm) _ => Some (name, data, perm)
          | _ => None
          end) tr.

(** The events of the calls to [TarGzip]. *)
Definition is_archive (ev : event) : bool :=
  match ev with
  | Event (TarGzip _ _) _ => true
  | _ => false
  end.

(** The labels of the calls to [TarGzip]. *)
Definition archives (l : label) : bool :=
  match l with
  | LCall _ ev => is_archive ev
  | _ => false
  end.

(** The calls of a trace of [Build], whichever thread made them. *)
Definition calls (tr : list label) : list event :=
  omap (fun l => match l with LCall _ ev => Some ev | _ => None end) tr.

(** The calls goroutine [i] made. *)
Definition calls_of (i : nat) (tr : list label) : list event :=
  omap (fun l =>
          match l with
          | LCall (TGo j) ev => if bool_decide (j = i) then Some ev else None
          | _ => None
          end) tr.

(** What was done to [firstErr] under the lock, in order. *)
Definition recorded (tr : list label) : list label :=
  List.filter (fun l =>
                 match l with
                 | LStore _ _ | LDiscard _ _ => true
                 | _ => false
                 end) tr.

Definition is_discard (l : label) : bool :=
  match l with
  | LDiscard _ _ => true
  | _ => false
  end.

(** [follows p evs q]: the program [p], given the answers of [evs] to the
    calls it makes, in order, has become [q]. *)
Inductive follows {A : Type} : prog A -> list event -> prog A -> Prop :=
| follows_nil (p : prog A) : follows p [] p
| follows_cons (X : Type) (c : call X) (k : X -> prog A) (x : X)
    (evs : list event) (q : prog A) :
    follows (k x) evs q -> follows (Vis c k) (Event c x :: evs) q.

(** What a goroutine still has to run of its function, and the error its
    function returned. *)
Definition current (g : gstate) : prog (option error) :=
  match g with
  | GCall p => p
  | GLock err | GTest err | GWrite err | GUnlock err => Ret (Some err)
  | GDone err | GExited err => Ret err
  end.

Definition is_exited (g : gstate) : bool :=
  match g with
  | GExited _ => true
  | _ => false
  end.

(** The goroutines between [mu.Lock()] and [mu.Unlock()]. *)
Definition holds_mu (g : gstate) : bool :=
  match g with
  | GTest _ | GWrite _ | GUnlock _ => true
  | _ => false
  end.

Fixpoint count {A : Type} (P : A -> bool) (l : list A) : nat :=
  match l with
  | [] => 0
  | x :: l' => (if P x then 1 else 0) + count P l'
  end.

(** The caller is past [wg.Wait()]. *)
Definition joined (m : mstate) : bool :=
  match m with
  | MLock | MReturn | MReturned _ => true
  | _ => false
  end.

Definition recognised_OS (os : string) : bool :=
  bool_decide (os = "darwin") || bool_decide (os = "linux")
  || bool_decide (os = "windows").

Definition is_config_dir_flag (flag : string) : bool :=
  String.prefix "'encr.dev/internal/conf.defaultConfigDirectory=" flag.

Definition is_version_flag (flag : string) : bool :=
  String.prefix "'encr.dev/internal/version.Version=" flag.

(** [never_calls P p]: whatever the world answers, [p] makes no call whose
    event satisfies [P]. *)
Fixpoint never_calls {A : Type} (P : event -> bool) (p : prog A) : Prop :=
  match p with
  | Ret _ => True
  | Vis c k => ∀ x, P (Event c x) = false ∧ never_calls P (k x)
  end.

(** ** Invariants of runParallel *)

(** The functions the [for] loop has yet to start. *)
Definition pending (m : mstate) : list (prog (option error)) :=
  match m with
  | MAdd functions => functions
  | MLoop rest => rest
  | _ => []
  end.

(** [wg.Add] has run. *)
Definition added (m : mstate) : bool :=
  match m with
  | MAdd _ => false
  | _ => true
  end.

(** The caller is between [mu.Lock()] and its deferred [mu.Unlock()]. *)
Definition main_holds_mu (m : mstate) : bool :=
  match m with
  | MReturn => true
  | _ => false
  end.

(** The goroutines whose function failed and that have been through the
    critical section. *)
Definition past_critical (g : gstate) : bool :=
  match g with
  | GUnlock _ | GDone (Some _) | GExited (Some _) => true
  | _ => false
  end.

(** The error a goroutine's function has returned, once it has. *)
Definition returned (g : gstate) : option (option error) :=
  match g with
  | GCall _ => None
  | GLock err | GTest err | GWrite err | GUnlock err => Some (Some err)
  | GDone err | GExited err => Some err
  end.

(** The wait group counts the goroutines that have not exited, and the caller
    gets past [wg.Wait()] only when all have. *)
Definition inv_wg {W : Type} (functions : list (prog (option error)))
  (s : state W) : Prop :=
  (∃ started, functions = started ++ pending (main s)
              ∧ length (gs s) = length started)
  ∧ (added (main s) = false -> gs s = [])
  ∧ wg s = ((if added (main s) then Z.of_nat (length functions) else 0)
            - Z.of_nat (count is_exited (gs s)))%Z
  ∧ (joined (main s) = true -> count is_exited (gs s) = length (gs s)).

(** The mutex is held by exactly one thread when it is held, by none when it
    is not. *)
Definition inv_mu {W : Type} (s : state W) : Prop :=
  count holds_mu (gs s) + (if main_holds_mu (main s) then 1 else 0)
  = if mu s then 1 else 0.

(** [firstErr] is nil until the first store, and then holds the error of that
    store for good; every later visit of the critical section discards. *)
Definition inv_err {W : Type} (s : state W) : Prop :=
  (∀ i err, gs s !! i = Some (GWrite err) -> firstErr s = None)
  ∧ match firstErr s with
    | None =>
        recorded (trace s) = []
        ∧ ∀ i g, gs s !! i = Some g -> past_critical g = false
    | Some err0 =>
        ∃ i0 discards,
          recorded (trace s) = LStore i0 err0 :: discards
          ∧ forallb is_discard discards = true
          ∧ ∃ g0, gs s !! i0 = Some g0 ∧ past_critical g0 = true
                  ∧ returned g0 = Some (Some err0)
    end
  ∧ (∀ err, main s = MReturned err -> err = firstErr s).

(** Goroutine [i] runs [functions[i]], its calls are those of the trace under
    its name, and what its function returned is in the trace. *)
Definition inv_run {W : Type} (functions : list (prog (option error)))
  (s : state W) : Prop :=
  (∀ i g, gs s !! i = Some g ->
     ∃ f, functions !! i = Some f
          ∧ follows f (calls_of i (trace s)) (current g))
  ∧ (∀ i g err, gs s !! i = Some g -> returned g = Some err ->
       LReturn i err ∈ trace s)
  ∧ (∀ t ev, LCall t ev ∈ trace s -> ∃ i, t = TGo i ∧ i < length (gs s))
  ∧ (∀ err, LResult err ∈ trace s -> main s = MReturned err).

(** A return in the trace is the return of a goroutine, and a goroutine that
    has been through the critical section has stored or discarded its error
    there. *)
Definition inv_log {W : Type} (s : state W) : Prop :=
  (∀ i err, LReturn i err ∈ trace s ->
     ∃ g, gs s !! i = Some g ∧ returned g = Some err)
  ∧ (∀ i g, gs s !! i = Some g -> past_critical g = true ->
       ∃ err, returned g = Some (Some err)
              ∧ (LStore i err ∈ trace s ∨ LDiscard i err ∈ trace s)).

(** The return of the caller is in the trace. *)
Definition inv_result {W : Type} (s : state W) : Prop :=
  ∀ err, main s = MReturned err -> LResult err ∈ trace s.

Definition inv {W : Type} (functions : list (prog (option error)))
  (s : state W) : Prop :=
  inv_wg functions s ∧ inv_mu s ∧ inv_err s ∧ inv_run functions s
  ∧ inv_log s ∧ inv_result s.

(** The packager's completion channel can be received from, whatever the
    world has become. *)
Definition always_signalled {W : Type} (h : Handler W) : Prop :=
  ∀ w, signalled h w = true.

(** ** The order in which runParallel makes progress *)

(** [pnext p' p]: [p] makes a call and goes on as [p'] for some answer. *)
Definition pnext {A : Type} (p' p : prog A) : Prop :=
  match p with
  | Ret _ => False
  | Vis c k => ∃ x, p' = k x
  end.

(** [gnext g' g]: a goroutine in [g] can be in [g'] after its next action,
    whatever the world answers. *)
Inductive gnext : gstate -> gstate -> Prop :=
| gnext_call (p' p : prog (option error)) :
    pnext p' p -> gnext (GCall p') (GCall p)
| gnext_failed (err : error) : gnext (GLock err) (GCall (Ret (Some err)))
| gnext_succeeded : gnext (GDone None) (GCall (Ret None))
| gnext_lock (err : error) : gnext (GTest err) (GLock err)
| gnext_nil (err : error) : gnext (GWrite err) (GTest err)
| gnext_set (err : error) : gnext (GUnlock err) (GTest err)
| gnext_write (err : error) : gnext (GUnlock err) (GWrite err)
| gnext_unlock (err : error) : gnext (GDone (Some err)) (GUnlock err)
| gnext_done (err : option error) : gnext (GExited err) (GDone err).

(** One goroutine of the list takes an action. *)
Definition lnext (l' l : list gstate) : Prop :=
  ∃ i g g', l !! i = Some g ∧ gnext g' g ∧ l' = <[i := g']> l.

(** How many actions the caller has left, at most. *)
Definition mrank (m : mstate) : nat :=
  match m with
  | MAdd functions => 6 + length functions
  | MLoop rest => 5 + length rest
  | MWait => 4
  | MLock => 3
  | MReturn => 2
  | MReturned _ => 1
  end.

(** The caller's rank, and the goroutines started and to be started. *)
Definition measure {W : Type} (s : state W) : nat * list gstate :=
  (mrank (main s), gs s ++ map GCall (pending (main s))).

(** Either the caller or one goroutine has taken an action. *)
Definition mnext (m' m : nat * list gstate) : Prop :=
  (m'.1 < m.1 ∧ m'.2 = m.2) ∨ (m'.1 = m.1 ∧ lnext m'.2 m.2).

(** ** A scripted world *)

(** The collaborators replaced by stubs, as a test of the package would do:
    the world counts the calls answered (logging apart), a call fails when its
    target is listed in [stub_failing], and the JS packager has signalled or
    not, with its failure flag set or not. *)
Module Stub.

Record config : Type := mkConfig {
  stub_failing : list string;
  stub_signalled : bool;
  stub_compileFailed : bool
}.

Definition fail_if (cfg : config) (target what : string) : option error :=
  if bool_decide (target ∈ stub_failing cfg)
  then Some (errors_New (what +:+ " " +:+ target +:+ ": stubbed to fail"))
  else None.

Definition stub_answer (cfg : config) (X : Type) (c : call X) (w : nat)
  : nat * X :=
  match c in call X return nat * X with
  | Log _ => (w, tt)
  | os_RemoveAll path => (S w, fail_if cfg path "remove")
  | os_MkdirAll path _ => (S w, fail_if cfg path "mkdir")
  | os_WriteFile name _ _ => (S w, fail_if cfg name "write")
  | CompileGoBinary outputPath _ _ _ _ => (S w, fail_if cfg outputPath "go build")
  | CompileRustBinary _ outputPath _ _ _ _ =>
      (S w, fail_if cfg outputPath "cargo build")
  | downloadLatestGithubRelease owner repo _ _ =>
      (S w, ("/tmp/" +:+ repo +:+ ".tar.gz",
             fail_if cfg (owner +:+ "/" +:+ repo) "download"))
  | extractArchive archive _ => (S w, fail_if cfg archive "extract")
  | exec_CombinedOutput name args =>
      (S w, (EmptyString, fail_if cfg (default EmptyString (last args)) name))
  | TarGzip _ dstFile => (S w, fail_if cfg dstFile "tar")
  | RecvCompileCompleted => (w, tt)
  | LoadCompileFailed => (w, stub_compileFailed cfg)
  end.

Definition handler (cfg : config) : Handler nat :=
  mkHandler (stub_answer cfg) (fun _ => stub_signalled cfg).

(** All collaborators succeed and the packager has finished without failure. *)
Definition all_fine : config := mkConfig [] true false.

(** A classification of the versions used in the examples. *)
Definition ChannelFor (version : string) : ReleaseChannel :=
  if bool_decide (version = "1.2.3") then GA
  else if bool_decide (version = "1.3.0-beta.1") then Beta
  else if bool_decide (version = "nightly-20240101") then Nightly
  else if bool_decide (version = "devel-0a1b2c3") then DevBuild
  else OtherChannel "unknown".

(** The build request of the end-to-end scenario: linux/amd64. *)
Definition request (version : string) : DistBuilder :=
  mkDistBuilder [] "linux" "amd64" "/src/ts-parser" "/dist/linux_amd64"
    "/artifacts/encore-linux_amd64.tar.gz" version (mkJSPackager "/js/dist").

(** A step that bumps the side-effect counter and succeeds, and one that
    bumps it and fails with the given message. *)
Definition succeeding (name : string) : prog (option error) :=
  perform (os_WriteFile name EmptyString perm_0644);; mret None.

Definition failing (msg : string) : prog (option error) :=
  perform (os_WriteFile msg EmptyString perm_0644);;
  mret (Some (errors_New msg)).

(** Three functions, of which the last two fail. *)
Definition three : list (prog (option error)) :=
  [succeeding "a"; failing "b"; failing "c"].

(** Two functions that succeed. *)
Definition two : list (prog (option error)) :=
  [succeeding "a"; succeeding "b"].

(** The schedule of [runParallel(functions...)] that lets the caller act
    whenever it can, and otherwise the goroutine that comes first in
    [order]. *)
Definition schedule (cfg : config) (order : list nat)
  (functions : list (prog (option error))) (w : nat) : list tid :=
  priority_schedule (handler cfg) (TMain :: map TGo order) 1000
    (entry functions w).

(** The release of encore-go cannot be downloaded. *)
Definition fetch_fails : config := mkConfig ["encoredev/go"] true false.

(** The directory runtimes cannot be created. *)
Definition runtimes_fails : config :=
  mkConfig ["/dist/linux_amd64/runtimes"] true false.

(** The directory runtimes/go cannot be created. *)
Definition runtimes_go_fails : config :=
  mkConfig ["/dist/linux_amd64/runtimes/go"] true false.

(** The packager never signals. *)
Definition never_signalled : config := mkConfig [] false false.

(** The schedule of the concurrent phase of [Build] for the request, the
    goroutines taken in the order of the call; six calls have been answered
    when the phase starts. *)
Definition build_schedule (cfg : config) (d : DistBuilder) : list tid :=
  schedule cfg (seq 0 8)
    (Build_steps filepath_Join ChannelFor (with_logger d)) 6.

End Stub.

(** ** More on what programs and traces show *)

(** The receive from the packager's completion channel. *)
Definition is_recv (ev : event) : bool :=
  match ev with
  | Event RecvCompileCompleted _ => true
  | _ => false
  end.

(** [must_call P p]: whatever the world answers, [p] does not return before
    it has made a call whose event satisfies [P]. *)
Fixpoint must_call {A : Type} (P : event -> bool) (p : prog A) : Prop :=
  match p with
  | Ret _ => False
  | Vis c k => ∀ x, P (Event c x) = true ∨ must_call P (k x)
  end.

(** The build steps that do not wait for the JS packager. *)
Definition independent_steps (join : list string -> string)
  (ChannelFor : string -> ReleaseChannel) (d : DistBuilder)
  : list (prog (option error)) :=
  [ buildEncoreCLI join ChannelFor d;
    buildTSBundler join d;
    buildGitHook join d;
    buildTSParser join d;
    buildNodePlugin join d;
    copyEncoreRuntimeForGo join d;
    downloadEncoreGo d ].

(** The packager's completion channel cannot be received from, whatever the
    world has become. *)
Definition never_signalled {W : Type} (h : Handler W) : Prop :=
  ∀ w, signalled h w = false.

(** The error a call came back with, for the calls that return one. *)
Definition answered_error (ev : event) : option error :=
  match ev with
  | Event c x =>
      match c in call X return X -> option error with
      | os_RemoveAll _ | os_MkdirAll _ _ | os_WriteFile _ _ _
      | CompileGoBinary _ _ _ _ _ | CompileRustBinary _ _ _ _ _ _
      | extractArchive _ _ | TarGzip _ _ => fun err => err
      | downloadLatestGithubRelease _ _ _ _ | exec_CombinedOutput _ _ =>
          fun answer => answer.2
      | Log _ | RecvCompileCompleted | LoadCompileFailed => fun _ => None
      end x
  end.

(** The load of the packager's failure flag that found it set. *)
Definition flag_set (ev : event) : bool :=
  match ev with
  | Event c x =>
      match c in call X return X -> bool with
      | LoadCompileFailed => fun failed => failed
      | _ => fun _ => false
      end x
  end.

(** A call that reported a failure: an error, or the failure flag set. *)
Definition reports_failure (ev : event) : bool :=
  match answered_error ev with
  | Some _ => true
  | None => flag_set ev
  end.

(** [always_fails p]: whatever the world answers, [p] returns an error. *)
Fixpoint always_fails (p : prog (option error)) : Prop :=
  match p with
  | Ret err => err ≠ None
  | Vis c k => ∀ x, always_fails (k x)
  end.

(** [propagates p]: once a call of [p] has reported a failure, [p] returns
    an error. *)
Fixpoint propagates (p : prog (option error)) : Prop :=
  match p with
  | Ret _ => True
  | Vis c k =>
      ∀ x, (reports_failure (Event c x) = true -> always_fails (k x))
           ∧ propagates (k x)
  end.

(** [fails_only_after_failure p]: [p] returns nil as long as none of its
    calls has reported a failure. *)
Fixpoint fails_only_after_failure (p : prog (option error)) : Prop :=
  match p with
  | Ret err => err = None
  | Vis c k =>
      ∀ x, reports_failure (Event c x) = false ->
           fails_only_after_failure (k x)
  end.

(** [keeps_cause seen made p]: an error [p] returns has the root cause of an
    error one of its calls came back with ([seen] holds those so far), or of
    one of the errors [made]. *)
Fixpoint keeps_cause (seen made : list error) (p : prog (option error))
  : Prop :=
  match p with
  | Ret None => True
  | Ret (Some err) =>
      ∃ err0, root_cause err = root_cause err0
              ∧ (err0 ∈ seen ∨ err0 ∈ made)
  | Vis c k =>
      ∀ x, keeps_cause
             (seen ++ option_list (answered_error (Event c x))) made (k x)
  end.

(** The errors the builder makes itself. *)
Definition made_errors (d : DistBuilder) : list error :=
  [ errors_New ("unknown version channel for " +:+ Version d);
    errors_New ("unknown OS: " +:+ OS d);
    errors_New "js build failed" ].

(** The calls of the preparation of the target directory, in order. *)
Definition prepare_calls (join : list string -> string) (d : DistBuilder)
  : list (call (option error)) :=
  [ os_RemoveAll (DistBuildDir d);
    os_MkdirAll (DistBuildDir d) perm_0755;
    os_MkdirAll (join [DistBuildDir d; "bin"]) perm_0755;
    os_MkdirAll (join [DistBuildDir d; "runtimes"]) perm_0755;
    os_MkdirAll (join [DistBuildDir d; "runtimes"; "go"]) perm_0755;
    os_MkdirAll (join [DistBuildDir d; "runtimes"; "js"]) perm_0755 ].

(** The label of a call made by the caller of [Build], not by a goroutine. *)
Definition by_caller (l : label) : bool :=
  match l with
  | LCall TMain _ => true
  | _ => false
  end.

(** The names of the binaries the build steps put under bin. *)
Definition binary_names : list string :=
  [ "encore"; "encore-beta"; "encore-nightly"; "encore-develop";
    "tsbundler-encore"; "git-remote-encore"; "tsparser-encore";
    "encore-runtime.node" ].

(** The paths of those binaries in the staging directory. *)
Definition binary_paths (join : list string -> string) (d : DistBuilder)
  : list string :=
  map (fun name => join [DistBuildDir d; "bin"; name]) binary_names.

(** [strays join d ev]: a call no build step of [d] makes.  The steps remove
    and create no directory and make no archive; they write one file,
    version.cjs; they compile for the OS and the architecture of [d] into
    bin of the staging directory; they download for that OS and
    architecture and extract into the staging directory; and the one command
    they run is [cp -r] into runtimes/go or runtimes/js of the staging
    directory. *)
Definition strays (join : list string -> string) (d : DistBuilder)
  (ev : event) : bool :=
  match ev with
  | Event c _ =>
      match c with
      | Log _ | RecvCompileCompleted | LoadCompileFailed => false
      | os_RemoveAll _ | os_MkdirAll _ _ | TarGzip _ _ => true
      | os_WriteFile name _ _ =>
          negb (bool_decide (name = "runtimes/jscore/api/version.cjs"))
      | CompileGoBinary outputPath _ _ os arch =>
          negb (bool_decide (outputPath ∈ binary_paths join d
                             ∧ os = OS d ∧ arch = Arch d))
      | CompileRustBinary _ outputPath _ os arch _ =>
          negb (bool_decide (outputPath ∈ binary_paths join d
                             ∧ os = OS d ∧ arch = Arch d))
      | downloadLatestGithubRelease _ _ os arch =>
          negb (bool_decide (os = OS d ∧ arch = Arch d))
      | extractArchive _ dest => negb (bool_decide (dest = DistBuildDir d))
      | exec_CombinedOutput name args =>
          match args with
          | [flag; _; dest] =>
              negb (bool_decide
                      (name = "cp" ∧ flag = "-r"
                       ∧ dest ∈ [join [DistBuildDir d; "runtimes"; "go"] +:+ "/";
                                 join [DistBuildDir d; "runtimes"; "js"] +:+ "/"]))
          | _ => true
          end
      end
  end.

(** [caller_strays join d ev]: a call the caller of [Build] does not make
    itself.  The caller removes the staging directory, creates it and four
    directories under it, and archives it into the archive file of [d]. *)
Definition caller_strays (join : list string -> string) (d : DistBuilder)
  (ev : event) : bool :=
  match ev with
  | Event c _ =>
      match c with
      | Log _ => false
      | os_RemoveAll path => negb (bool_decide (path = DistBuildDir d))
      | os_MkdirAll path perm =>
          negb (bool_decide
                  (perm = perm_0755
                   ∧ path ∈ [DistBuildDir d;
                             join [DistBuildDir d; "bin"];
                             join [DistBuildDir d; "runtimes"];
                             join [DistBuildDir d; "runtimes"; "go"];
                             join [DistBuildDir d; "runtimes"; "js"]]))
      | TarGzip srcDir dstFile =>
          negb (bool_decide (srcDir = DistBuildDir d
                             ∧ dstFile = ArtifactsTarFile d))
      | _ => true
      end
  end.

(** [logged r l]: the log line [l] tells the outcome [r]: level info for nil,
    level error for an error, with the cause as the line's error when the
    error returned is a wrap. *)
Definition logged (r : option error) (l : logline) : Prop :=
  match r with
  | None => log_level l = InfoLevel
  | Some (errors_Wrap cause _) =>
      log_level l = ErrorLevel ∧ log_err l = Some cause
  | Some (errors_New _) => log_level l = ErrorLevel
  end.

(** [logs_outcome last p]: when [p] returns, the last call made, [last] so
    far, is a log line that tells the outcome. *)
Fixpoint logs_outcome (last : option event) (p : prog (option error))
  : Prop :=
  match p with
  | Ret r => ∃ l, last = Some (Event (Log l) ()) ∧ logged r l
  | Vis c k => ∀ x, logs_outcome (Some (Event c x)) (k x)
  end.

(** [logs_failure last p]: when [p] returns an error, the last call made is a
    log line that tells it. *)
Fixpoint logs_failure (last : option event) (p : prog (option error))
  : Prop :=
  match p with
  | Ret None => True
  | Ret (Some err) => ∃ l, last = Some (Event (Log l) ()) ∧ logged (Some err) l
  | Vis c k => ∀ x, logs_failure (Some (Event c x)) (k x)
  end.

(** The goroutines started, in the order of the trace. *)
Definition spawns (tr : list label) : list nat :=
  omap (fun l => match l with LSpawn i => Some i | _ => None end) tr.

(** What the function of goroutine [i] returned, each time it did. *)
Definition returns_of (i : nat) (tr : list label) : list (option error) :=
  omap (fun l =>
          match l with
          | LReturn j err => if bool_decide (j = i) then Some err else None
          | _ => None
          end) tr.

(** The exits of goroutine [i]: one element for each [wg.Done()] it ran. *)
Definition exits_of (i : nat) (tr : list label) : list unit :=
  omap (fun l =>
          match l with
          | LExit j => if bool_decide (j = i) then Some () else None
          | _ => None
          end) tr.

(** Goroutines are started in order, and each returns and exits as many
    times as its state tells: not before its function has returned, once
    after. *)
Definition inv_once {W : Type} (s : state W) : Prop :=
  spawns (trace s) = seq 0 (length (gs s))
  ∧ (∀ i, returns_of i (trace s)
          = match gs s !! i with
            | Some g => option_list (returned g)
            | None => []
            end)
  ∧ (∀ i, exits_of i (trace s)
          = match gs s !! i with
            | Some g => if is_exited g then [()] else []
            | None => []
            end).

(** [on_success P seen p]: when [p] returns nil, the calls it has made,
    [seen] so far, satisfy [P]. *)
Fixpoint on_success (P : list event -> Prop) (seen : list event)
  (p : prog (option error)) : Prop :=
  match p with
  | Ret None => P seen
  | Ret (Some _) => True
  | Vis c k => ∀ x, on_success P (seen ++ [Event c x]) (k x)
  end.

(** The calls the caller of [Build] made itself, in the order of the trace. *)
Definition caller_calls (tr : list label) : list event :=
  omap (fun l => match l with LCall TMain ev => Some ev | _ => None end) tr.

(** [work join d i evs]: [evs] are the calls of a run of the [i]-th build
    step that did all its work: logging apart, each call the step has to make,
    once, in order, and each come back without error.  The suffix and the
    linker options of the CLI, the output of [cp] and the name of the archive
    downloaded are left open. *)
Definition work (join : list string -> string) (d : DistBuilder) (i : nat)
  (evs : list event) : Prop :=
  match i with
  | 0 =>
      ∃ versionSuffix linkerOpts,
        versionSuffix ∈ [EmptyString; "-beta"; "-nightly"; "-develop"]
        ∧ externals evs
          = [Event (CompileGoBinary
                      (join [DistBuildDir d; "bin"; "encore" +:+ versionSuffix])
                      "./cli/cmd/encore" linkerOpts (OS d) (Arch d)) None]
  | 1 =>
      externals evs
      = [Event (CompileGoBinary
                  (join [DistBuildDir d; "bin"; "tsbundler-encore"])
                  "./cli/cmd/tsbundler-encore"
                  ["-X";
                   "'encr.dev/internal/version.Version=" +:+ Version d +:+ "'"]
                  (OS d) (Arch d)) None]
  | 2 =>
      externals evs
      = [Event (CompileGoBinary
                  (join [DistBuildDir d; "bin"; "git-remote-encore"])
                  "./cli/cmd/git-remote-encore" [] (OS d) (Arch d)) None]
  | 3 =>
      externals evs
      = [Event (CompileRustBinary "tsparser-encore"
                  (join [DistBuildDir d; "bin"; "tsparser-encore"])
                  (TSParserPath d) (OS d) (Arch d)
                  ["ENCORE_VERSION=" +:+ Version d]) None]
  | 4 =>
      externals evs
      = [Event (os_WriteFile "runtimes/jscore/api/version.cjs"
                  (version_cjs (Version d)) perm_0644) None;
         Event (CompileRustBinary (compiledBinaryName_of (OS d)).1
                  (join [DistBuildDir d; "bin"; "encore-runtime.node"])
                  "./runtimes/jscore" (OS d) (Arch d)
                  ["ENCORE_VERSION=" +:+ Version d]) None]
  | 5 =>
      ∃ out,
        externals evs
        = [Event (exec_CombinedOutput "cp"
                    ["-r"; "runtimes/go/.";
                     join [DistBuildDir d; "runtimes"; "go"] +:+ "/"])
             (out, None)]
  | 6 =>
      ∃ out,
        externals evs
        = [Event RecvCompileCompleted ();
           Event LoadCompileFailed false;
           Event (exec_CombinedOutput "cp"
                    ["-r"; DistFolder (jsBuilder d) +:+ "/.";
                     join [DistBuildDir d; "runtimes"; "js"] +:+ "/"])
             (out, None)]
  | 7 =>
      ∃ encoreGoArchive,
        externals evs
        = [Event (downloadLatestGithubRelease "encoredev" "go" (OS d) (Arch d))
             (encoreGoArchive, None);
           Event (extractArchive encoreGoArchive (DistBuildDir d)) None]
  | _ => False
  end.

(** * Properties *)

#[local] Arguments String.append : simpl never.

(** Names the next answer of the world in a sequential run, and splits on the
    error it carries when the program tests it. *)
Ltac exec_step :=
  match goal with
  | |- context [answer ?h ?c ?w] =>
      let w' := fresh "w" in
      let x := fresh "x" in
      destruct (answer h c w) as [w' x] eqn:?
  | |- context [match ?x with Some _ => _ | None => _ end] =>
      is_var x; destruct x
  | |- context [let (_, _) := ?x in _] =>
      is_var x; destruct x
  | |- context [if ?x then _ else _] =>
      is_var x; destruct x
  end; simpl.

Ltac exec_all := unfold exec; simpl; repeat exec_step.

(** ** The build steps, each on its own *)

Section Steps.

Context {W : Type} (h : Handler W).
Variable join : list string -> string.
Variable ChannelFor : string -> ReleaseChannel.

(** C4: the primary-CLI build step names the binary [encore] with the suffix
    of the version's channel: none for GA, [-beta] for beta, [-nightly] for
    nightly, [-develop] for a development build.  For a version of any other
    channel the step returns the configuration error and makes no call but
    to the logger: nothing is compiled. *)
Theorem buildEncoreCLI_suffix_mapping (d : DistBuilder) (w : W) :
  let o := exec h (buildEncoreCLI join ChannelFor d) w in
  let builds sfx :=
    map fst (go_builds (out_trace o))
    = [join [DistBuildDir d; "bin"; "encore" +:+ sfx]] in
  match ChannelFor (Version d) with
  | GA => builds EmptyString
  | Beta => builds "-beta"
  | Nightly => builds "-nightly"
  | DevBuild => builds "-develop"
  | OtherChannel _ =>
      out_value o
      = Some (Some (errors_New ("unknown version channel for " +:+ Version d)))
      ∧ externals (out_trace o) = []
  end.
Proof.
  unfold buildEncoreCLI.
  destruct (ChannelFor (Version d)); cbn zeta; exec_all; done.
Qed.

(** C7, as amended: for every recognised channel the primary-CLI build step
    compiles ./cli/cmd/encore once, always with the version linker flag; the
    configuration-directory linker flag, [encore] plus the channel suffix, is
    added for beta, nightly and development builds only, a GA build gets the
    version flag alone. *)
Theorem buildEncoreCLI_linker_flags (d : DistBuilder) (w : W) :
  let o := exec h (buildEncoreCLI join ChannelFor d) w in
  let version_flag :=
    ["-X"; "'encr.dev/internal/version.Version=" +:+ Version d +:+ "'"] in
  let config_dir_flag sfx :=
    ["-X";
     "'encr.dev/internal/conf.defaultConfigDirectory=encore" +:+ sfx +:+ "'"] in
  let passes opts := map snd (go_builds (out_trace o)) = [opts] in
  match ChannelFor (Version d) with
  | GA => passes version_flag
  | Beta => passes (version_flag ++ config_dir_flag "-beta")%list
  | Nightly => passes (version_flag ++ config_dir_flag "-nightly")%list
  | DevBuild => passes (version_flag ++ config_dir_flag "-develop")%list
  | OtherChannel _ => go_builds (out_trace o) = []
  end.
Proof.
  unfold buildEncoreCLI.
  destruct (ChannelFor (Version d)); cbn zeta; exec_all; done.
Qed.

(** C5: the second-runtime copy step receives from the packager's completion
    channel before anything else but logging.  While the channel has not
    signalled the step is blocked and has made no call.  Once it has, the
    step loads the failure flag; with the flag set it returns the error
    [js build failed] and runs no copy; with the flag clear it runs
    [cp -r <DistFolder>/. <DistBuildDir>/runtimes/js/] and returns nil when
    the copy succeeds, the wrapped error of the copy otherwise. *)
Theorem copyEncoreRuntimeForJS_waits_then_copies (d : DistBuilder) (w : W) :
  let o := exec h (copyEncoreRuntimeForJS join d) w in
  let w1 :=
    (answer h (Log (Logline InfoLevel None (log d)
                      "waiting for JS packager to complete...")) w).1 in
  let cp :=
    exec_CombinedOutput "cp"
      ["-r"; DistFolder (jsBuilder d) +:+ "/.";
       join [DistBuildDir d; "runtimes"; "js"] +:+ "/"] in
  if signalled h w1 then
    ∃ (failed : bool) (rest : list event),
      externals (out_trace o)
      = Event RecvCompileCompleted () :: Event LoadCompileFailed failed :: rest
      ∧ if failed then
          rest = []
          ∧ out_value o = Some (Some (errors_New "js build failed"))
        else
          ∃ (out : string) (err : option error),
            rest = [Event cp (out, err)]
            ∧ out_value o
              = Some (match err with
                      | Some err =>
                          Some (errors_Wrap err ("cp js runtime: " +:+ out))
                      | None => None
                      end)
  else
    out_value o = None ∧ externals (out_trace o) = [].
Proof.
  unfold copyEncoreRuntimeForJS, exec. simpl.
  destruct (answer h (Log _) w) as [w1 []] eqn:E1. simpl.
  destruct (signalled h w1); [|done].
  repeat exec_step; repeat match goal with u : unit |- _ => destruct u end;
    eexists _, _; (split; [reflexivity|]); simpl; eauto.
Qed.

Lemma version_cjs_path :
  filepath_Join ["."; "runtimes"; "jscore"; "api"; "version.cjs"]
  = "runtimes/jscore/api/version.cjs".
Proof. vm_compute. reflexivity. Qed.

Lemma compiledBinaryName_of_unknown (os : string) :
  recognised_OS os = false ->
  compiledBinaryName_of os
  = (EmptyString, Some (errors_New ("unknown OS: " +:+ os))).
Proof.
  unfold recognised_OS, compiledBinaryName_of.
  repeat case_bool_decide; simpl; done.
Qed.

Lemma compiledBinaryName_of_recognised (os : string) :
  recognised_OS os = true ->
  ∃ name, compiledBinaryName_of os = (name, None).
Proof.
  unfold recognised_OS, compiledBinaryName_of.
  repeat case_bool_decide; simpl; eauto; done.
Qed.

(** C6: for a target OS other than darwin, linux and windows the
    native-plugin build step returns an error having made no call but to the
    logger: no file written, nothing compiled.  For darwin, linux and windows
    the name it resolves is libencore_js_runtime.dylib,
    libencore_js_runtime.so and encore_js_runtime.dll, and that name is the
    artifact it asks the Rust compiler for, after writing version.cjs. *)
Theorem buildNodePlugin_target_OS (d : DistBuilder) (w : W) :
  let o := exec h (buildNodePlugin join d) w in
  compiledBinaryName_of "darwin" = ("libencore_js_runtime.dylib", None)
  ∧ compiledBinaryName_of "linux" = ("libencore_js_runtime.so", None)
  ∧ compiledBinaryName_of "windows" = ("encore_js_runtime.dll", None)
  ∧ if recognised_OS (OS d) then
      ∃ (werr : option error) (rest : list event),
        externals (out_trace o)
        = Event (os_WriteFile "runtimes/jscore/api/version.cjs"
                   (version_cjs (Version d)) perm_0644) werr :: rest
        ∧ match werr with
          | Some _ => rest = []
          | None =>
              ∃ cerr : option error,
                rest = [Event (CompileRustBinary
                                 (compiledBinaryName_of (OS d)).1
                                 (join [DistBuildDir d; "bin"; "encore-runtime.node"])
                                 "./runtimes/jscore" (OS d) (Arch d)
                                 ["ENCORE_VERSION=" +:+ Version d]) cerr]
          end
    else
      out_value o
      = Some (Some (errors_Wrap (errors_New ("unknown OS: " +:+ OS d))
                      "compile node plugin"))
      ∧ externals (out_trace o) = [].
Proof.
  cbn zeta. do 3 (split; [reflexivity|]).
  unfold buildNodePlugin. rewrite version_cjs_path.
  destruct (recognised_OS (OS d)) eqn:Hos.
  - destruct (compiledBinaryName_of_recognised _ Hos) as [name ->].
    exec_all; eexists _, _; (split; [reflexivity|]); simpl; eauto.
  - rewrite (compiledBinaryName_of_unknown _ Hos). exec_all. done.
Qed.

(** C10: the only file the native-plugin build step writes is
    runtimes/jscore/api/version.cjs, a path relative to the working directory
    in which neither the staging directory, nor the OS, nor the architecture
    of the request occurs; what it writes there is [version_cjs] of the
    request's version, and it writes it whenever the target OS is one it
    knows. *)
Theorem buildNodePlugin_version_stamp (d : DistBuilder) (w : W) :
  file_writes (out_trace (exec h (buildNodePlugin join d) w))
  = if recognised_OS (OS d)
    then [("runtimes/jscore/api/version.cjs", version_cjs (Version d), perm_0644)]
    else [].
Proof.
  unfold buildNodePlugin. rewrite version_cjs_path.
  destruct (recognised_OS (OS d)) eqn:Hos.
  - destruct (compiledBinaryName_of_recognised _ Hos) as [name ->].
    exec_all; done.
  - rewrite (compiledBinaryName_of_unknown _ Hos). exec_all. done.
Qed.

End Steps.

(** C7, as stated, fails for a GA version: the version the stub classifies as
    GA is compiled with the version flag and no configuration-directory
    flag. *)
Lemma buildEncoreCLI_GA_no_config_dir_flag :
  let o := exec (Stub.handler Stub.all_fine)
             (buildEncoreCLI filepath_Join Stub.ChannelFor (Stub.request "1.2.3"))
             0 in
  Stub.ChannelFor "1.2.3" = GA
  ∧ go_builds (out_trace o)
    = [("/dist/linux_amd64/bin/encore",
        ["-X"; "'encr.dev/internal/version.Version=1.2.3'"])]
  ∧ ¬ (∀ opts, opts ∈ map snd (go_builds (out_trace o)) →
         existsb is_version_flag opts = true
         ∧ existsb is_config_dir_flag opts = true).
Proof.
  cbn zeta. split; [reflexivity|]. split; [vm_compute; reflexivity|].
  intros Hall.
  destruct (Hall ["-X"; "'encr.dev/internal/version.Version=1.2.3'"]) as [_ Hc].
  - vm_compute. left.
  - vm_compute in Hc. discriminate.
Qed.

(** ** runParallel: the transition system *)

Section Counting.

Context {A : Type} (P : A -> bool).

Lemma count_app (l1 l2 : list A) : count P (l1 ++ l2) = count P l1 + count P l2.
Proof. induction l1 as [|x l1 IH]; simpl; [done|]. rewrite IH. lia. Qed.

Lemma count_le_length (l : list A) : count P l ≤ length l.
Proof. induction l as [|x l IH]; simpl; [lia|]. destruct (P x); lia. Qed.

Lemma count_insert (l : list A) (i : nat) (x y : A) :
  l !! i = Some x ->
  count P (<[i := y]> l) + (if P x then 1 else 0)
  = count P l + (if P y then 1 else 0).
Proof.
  revert i. induction l as [|a l IH]; intros [|i] Hi; simplify_eq/=.
  - lia.
  - specialize (IH _ Hi). lia.
Qed.

Lemma count_full (l : list A) :
  count P l = length l -> ∀ i x, l !! i = Some x -> P x = true.
Proof.
  induction l as [|a l IH]; intros Hc [|i] x Hi; simplify_eq/=.
  - pose proof (count_le_length l). destruct (P x); [done|lia].
  - pose proof (count_le_length l). apply (IH ltac:(destruct (P a); lia) i x Hi).
Qed.

Lemma count_zero (l : list A) :
  count P l = 0 -> ∀ i x, l !! i = Some x -> P x = false.
Proof.
  induction l as [|a l IH]; intros Hc [|i] x Hi; simplify_eq/=.
  - destruct (P x); [lia|done].
  - apply (IH ltac:(destruct (P a); lia) i x Hi).
Qed.

Lemma count_all (l : list A) :
  (∀ i x, l !! i = Some x -> P x = true) -> count P l = length l.
Proof.
  induction l as [|a l IH]; intros Hall; simpl; [done|].
  rewrite (Hall 0 a eq_refl). rewrite IH; [done|].
  intros i x Hi. apply (Hall (S i) x Hi).
Qed.

Lemma count_pos (l : list A) :
  0 < count P l -> ∃ i x, l !! i = Some x ∧ P x = true.
Proof.
  induction l as [|a l IH]; simpl; [lia|]. intros Hc.
  destruct (P a) eqn:Ha.
  - by exists 0, a.
  - destruct IH as (i & x & Hi & Hx); [lia|]. by exists (S i), x.
Qed.

Lemma count_short (l : list A) :
  count P l < length l -> ∃ i x, l !! i = Some x ∧ P x = false.
Proof.
  induction l as [|a l IH]; simpl; [lia|]. intros Hc.
  destruct (P a) eqn:Ha.
  - destruct IH as (i & x & Hi & Hx); [lia|]. by exists (S i), x.
  - by exists 0, a.
Qed.

Lemma count_unique (l : list A) (i j : nat) (x y : A) :
  count P l ≤ 1 -> l !! i = Some x -> l !! j = Some y ->
  P x = true -> P y = true -> i = j.
Proof.
  revert i j. induction l as [|a l IH]; intros [|i] [|j] Hc Hi Hj Hx Hy;
    simplify_eq/=; try done.
  - rewrite Hx in Hc. assert (count P l = 0) as H0 by lia.
    rewrite (count_zero _ H0 _ _ Hj) in Hy. done.
  - rewrite Hy in Hc. assert (count P l = 0) as H0 by lia.
    rewrite (count_zero _ H0 _ _ Hi) in Hx. done.
  - f_equal. apply IH; try done. destruct (P a); lia.
Qed.

End Counting.

Section Traces.

Lemma lookup_snoc_Some {A : Type} (l : list A) (x y : A) (i : nat) :
  (l ++ [x]) !! i = Some y -> l !! i = Some y ∨ (i = length l ∧ y = x).
Proof.
  intros [H|[Hle H]]%lookup_app_Some; [by left|right].
  apply list_lookup_singleton_Some in H as [??]. split; [lia|done].
Qed.

Lemma calls_of_app (i : nat) (tr1 tr2 : list label) :
  calls_of i (tr1 ++ tr2) = calls_of i tr1 ++ calls_of i tr2.
Proof. apply omap_app. Qed.

Lemma recorded_app (tr1 tr2 : list label) :
  recorded (tr1 ++ tr2) = recorded tr1 ++ recorded tr2.
Proof. apply List.filter_app. Qed.

Lemma follows_snoc {A X : Type} (p : prog A) (evs : list event) (c : call X)
  (k : X -> prog A) (x : X) :
  follows p evs (Vis c k) -> follows p (evs ++ [Event c x]) (k x).
Proof.
  intros H.
  remember (Vis c k) as q eqn:Hq.
  induction H as [p|Y c' k' y evs q H IH]; subst; simpl.
  - repeat constructor.
  - constructor. by apply IH.
Qed.

Lemma elem_of_snoc {A : Type} (l : list A) (x y : A) :
  x ∈ l ++ [y] ↔ x ∈ l ∨ x = y.
Proof. by rewrite elem_of_app, list_elem_of_singleton. Qed.

Lemma calls_of_snoc (i : nat) (tr : list label) (l : label) :
  calls_of i (tr ++ [l])
  = calls_of i tr ++ match l with
                     | LCall (TGo j) ev => if bool_decide (j = i) then [ev] else []
                     | _ => []
                     end.
Proof.
  rewrite calls_of_app. f_equal. destruct l as [[|j] ev| | | | | | |]; try done.
  simpl. by case_bool_decide.
Qed.

Lemma calls_of_nil (i : nat) (tr : list label) :
  (∀ ev, LCall (TGo i) ev ∉ tr) -> calls_of i tr = [].
Proof.
  induction tr as [|l tr IH]; intros Hnot; [done|].
  assert (calls_of i tr = []) as Htr.
  { apply IH. intros ev Hev. apply (Hnot ev). by right. }
  destruct l as [[|j] ev| | | | | | |]; try done.
  unfold calls_of in *. simpl. case_bool_decide; [|done].
  subst. destruct (Hnot ev). left.
Qed.

Lemma elem_of_calls_of (i : nat) (tr : list label) (ev : event) :
  LCall (TGo i) ev ∈ tr -> ev ∈ calls_of i tr.
Proof.
  intros Hev. apply list_elem_of_omap. exists (LCall (TGo i) ev).
  split; [done|]. simpl. by rewrite bool_decide_eq_true_2.
Qed.

End Traces.

(** Splits on the tests an action depends on. *)
Ltac split_tests H :=
  repeat (match type of H with
          | context [if ?b then _ else _] => destruct b eqn:?
          | context [let (_, _) := ?x in _] => destruct x eqn:?
          | context [match ?x with Some _ => _ | None => _ end] =>
              destruct x eqn:?
          end; simpl in H);
  repeat match goal with
         | Hb : bool_decide _ = true |- _ => apply bool_decide_eq_true in Hb
         | Hb : bool_decide _ = false |- _ => apply bool_decide_eq_false in Hb
         end.

(** Splits on the action the caller has taken. *)
Ltac main_inv H :=
  match type of H with
  | step _ TMain ?s = Some _ =>
      simpl in H; unfold step_main in H;
      let Hm := fresh "Hmain" in
      destruct (main s) as [?|[|? ?]| | | |?] eqn:Hm;
      split_tests H; simplify_eq/=
  end.

(** Splits on the action goroutine [i] has taken. *)
Ltac go_inv H :=
  match type of H with
  | step _ (TGo ?i) ?s = Some _ =>
      simpl in H;
      let Hg := fresh "Hg" in
      let g := fresh "g" in
      destruct (gs s !! i) as [g|] eqn:Hg; simpl in H; [|done];
      destruct g as [[?|? ? ?]|?|?|?|?|?|?]; simpl in H;
      split_tests H; simplify_eq/=
  end.

(** The effect of an action of goroutine [i] on the counts. *)
Ltac count_insert :=
  repeat match goal with
  | Hg : ?l !! ?i = Some ?x |- context [count ?P (<[?i := ?y]> ?l)] =>
      let H := fresh "Hcount" in
      pose proof (count_insert P l i x y Hg) as H; simpl in H;
      generalize dependent (count P (<[i := y]> l)); intros
  end.

Section RunParallel.

Context {W : Type} (h : Handler W).
Variable functions : list (prog (option error)).

Lemma inv_wg_entry (w : W) : inv_wg functions (entry functions w).
Proof.
  unfold inv_wg. simpl. split_and!; try done. by exists [].
Qed.

(** A goroutine that has not exited exists only between [wg.Add] and the
    return of [wg.Wait]. *)
Lemma running_goroutine (s : state W) (i : nat) (g : gstate) :
  inv_wg functions s -> gs s !! i = Some g -> is_exited g = false ->
  added (main s) = true ∧ joined (main s) = false.
Proof.
  intros (_ & Hnone & _ & Hjoin) Hg Hex. split.
  - destruct (added (main s)); [done|]. rewrite Hnone in Hg; done.
  - destruct (joined (main s)); [|done].
    rewrite (count_full _ _ (Hjoin eq_refl) _ _ Hg) in Hex. done.
Qed.

Lemma inv_wg_step (s s' : state W) :
  inv_wg functions s -> sched_step h s s' -> inv_wg functions s'.
Proof.
  intros Hinv [t Hstep].
  destruct t as [|i].
  - unfold inv_wg in *. main_inv Hstep; rewrite ?Hmain in *; simpl in *;
      destruct Hinv as ((started & Hfs & Hlen) & Hnone & Hwg & Hjoin).
    + rewrite Hnone in * by done. destruct started; [|done]. simpl in *.
      subst. split_and!; try done; [by exists []|lia].
    + split_and!; try done. by exists started.
    + rewrite length_app, count_app. simpl. split_and!; try done; [|lia].
      exists (started ++ [p]). rewrite <- app_assoc, length_app. simpl.
      split; [done|lia].
    + split_and!; try done; [by exists started|]. intros _.
      pose proof (count_le_length is_exited (gs s)).
      rewrite app_nil_r in Hfs. subst. lia.
    + split_and!; try done. by exists started.
    + split_and!; try done. by exists started.
  - go_inv Hstep;
      destruct (running_goroutine _ _ _ Hinv Hg eq_refl) as [Hadd Hjoined];
      destruct Hinv as (Hstarted & Hnone & Hwg & Hjoin);
      unfold inv_wg; simpl; rewrite Hadd, Hjoined in *;
      rewrite length_insert; (split_and!; [done|done| |done]);
      count_insert; lia.
Qed.

Lemma inv_mu_entry (w : W) : inv_mu (entry functions w).
Proof. done. Qed.

Lemma inv_mu_step (s s' : state W) :
  inv_mu s -> sched_step h s s' -> inv_mu s'.
Proof.
  intros Hinv [[|i] Hstep]; unfold inv_mu in *.
  - main_inv Hstep; rewrite ?Hmain in *; simpl in *;
      rewrite ?count_app; simpl;
      repeat match goal with Hm : mu s = _ |- _ => rewrite Hm in * end;
      try destruct (mu s); lia.
  - go_inv Hstep; count_insert;
      repeat match goal with Hm : mu s = _ |- _ => rewrite Hm in * end;
      try destruct (mu s); try destruct (main_holds_mu (main s)); lia.
Qed.

(** Two goroutines are never both between [mu.Lock()] and [mu.Unlock()]. *)
Lemma mutual_exclusion (s : state W) (i j : nat) (gi gj : gstate) :
  inv_mu s -> gs s !! i = Some gi -> gs s !! j = Some gj ->
  holds_mu gi = true -> holds_mu gj = true -> i = j.
Proof.
  unfold inv_mu. intros Hmu Hi Hj Hgi Hgj.
  apply (count_unique holds_mu (gs s) i j gi gj); try done.
  destruct (mu s); lia.
Qed.

Lemma inv_err_entry (w : W) : inv_err (entry functions w).
Proof. unfold inv_err. simpl. split_and!; done. Qed.

Lemma inv_err_step (s s' : state W) :
  inv_wg functions s -> inv_mu s -> inv_err s -> sched_step h s s' ->
  inv_err s'.
Proof.
  intros Hwg Hmu (Hwrite & Hfirst & Hret) [[|i] Hstep]; unfold inv_err.
  - main_inv Hstep; rewrite ?Hmain in *; simpl in *;
      rewrite ?recorded_app; simpl; rewrite ?app_nil_r.
    all: split_and!; try done.
    + intros j e [Hj|[_ ?]]%lookup_snoc_Some; [eauto|done].
    + destruct (firstErr s).
      * destruct Hfirst as (i0 & ds & ? & ? & g0 & Hg0 & ? & ?).
        exists i0, ds. split_and!; try done. exists g0.
        split_and!; try done. by apply lookup_app_l_Some.
      * destruct Hfirst as [? Hall]. split; [done|].
        intros j g [Hj|[_ ->]]%lookup_snoc_Some; eauto.
    + intros; simplify_eq. done.
  - assert (∀ g g', gs s !! i = Some g ->
              (past_critical g = true -> past_critical g' = true
                                         ∧ returned g' = returned g) ->
              (past_critical g = false -> past_critical g' = false) ->
              match firstErr s with
              | Some err0 =>
                  ∃ i0 discards,
                    recorded (trace s) = LStore i0 err0 :: discards
                    ∧ forallb is_discard discards = true
                    ∧ ∃ g0, <[i := g']> (gs s) !! i0 = Some g0
                            ∧ past_critical g0 = true
                            ∧ returned g0 = Some (Some err0)
              | None =>
                  recorded (trace s) = []
                  ∧ ∀ j g, <[i := g']> (gs s) !! j = Some g ->
                           past_critical g = false
              end) as Hneutral.
    { intros g g' Hg Hpast Hnot. destruct (firstErr s) as [err0|].
      - destruct Hfirst as (i0 & ds & Hrec & Hds & g0 & Hg0 & Hpc & Hr0).
        exists i0, ds. split_and!; try done.
        destruct (decide (i0 = i)) as [->|Hne].
        + simplify_eq. exists g'.
          rewrite list_lookup_insert_eq by (by eapply lookup_lt_Some).
          destruct (Hpast Hpc) as [? ->]. done.
        + exists g0. by rewrite list_lookup_insert_ne.
      - destruct Hfirst as [Hrec Hall]. split; [done|].
        intros j g1 [(-> & <- & _)|[Hne Hj]]%list_lookup_insert_Some;
          [|eauto].
        apply Hnot. eauto. }
    go_inv Hstep;
      destruct (running_goroutine _ _ _ Hwg Hg eq_refl) as [_ Hjoined].
    all: simpl; rewrite ?recorded_app; simpl; rewrite ?app_nil_r.
    all: (split; [|split]);
      [ | | intros r Hr; rewrite Hr in Hjoined; done ].
    all: try (intros j e' [(-> & Heq & _)|[Hne Hj]]%list_lookup_insert_Some;
              [done|by eauto]).
    all: try (apply (Hneutral _ _ eq_refl); simpl; by repeat case_match).
    + (* the test finds [firstErr] set: the error is discarded *)
      destruct Hfirst as (i0 & ds & Hrec & Hds & g0 & Hg0 & Hpc & Hr0).
      exists i0, (ds ++ [LDiscard i err]). rewrite Hrec.
      split_and!; [done|by rewrite forallb_app, Hds|].
      exists g0. rewrite list_lookup_insert_ne; [done|].
      intros ->. by simplify_eq.
    + (* the store: no other goroutine can be about to store *)
      intros j e' [(-> & Heq & _)|[Hne Hj]]%list_lookup_insert_Some; [done|].
      destruct Hne. by apply (mutual_exclusion s i j _ _ Hmu Hg Hj).
    + (* the store is the first thing recorded *)
      rewrite (Hwrite _ _ Hg) in Hfirst. destruct Hfirst as [Hrec Hall].
      exists i, []. rewrite Hrec. split_and!; try done.
      exists (GUnlock err).
      rewrite list_lookup_insert_eq by (by eapply lookup_lt_Some). done.
Qed.

Lemma inv_run_entry (w : W) : inv_run functions (entry functions w).
Proof.
  unfold inv_run. simpl. split_and!; try done.
  - intros t ev Hev. by apply elem_of_nil in Hev.
  - intros err Herr. by apply elem_of_nil in Herr.
Qed.

Lemma inv_run_step (s s' : state W) :
  inv_wg functions s -> inv_run functions s -> sched_step h s s' ->
  inv_run functions s'.
Proof.
  intros Hwg (Hfollows & Hreturned & Hcalls & Hresult) [[|i] Hstep];
    unfold inv_run.
  - destruct Hwg as ((started & Hfs & Hlen) & _).
    main_inv Hstep; rewrite ?Hmain in *; simpl in *.
    all: split_and!; try done.
    all: try (intros err [Herr| ?]%elem_of_snoc;
                [by apply Hresult in Herr|by simplify_eq]).
    all: try (intros err Herr; by apply Hresult in Herr).
    all: try (intros t ev [Hev|?]%elem_of_snoc; [|done];
              destruct (Hcalls _ _ Hev) as (j & ? & ?); exists j;
              rewrite ?length_app; split; [done|lia]).
    all: try (intros j g r Hj Hr; apply elem_of_snoc; left; by eauto).
    all: try (intros j g Hj; destruct (Hfollows j g Hj) as (f & ? & ?);
              exists f; split; [done|];
              rewrite calls_of_snoc; simpl; by rewrite app_nil_r).
    + (* the goroutine just started has made no call *)
      intros j g [Hj|[-> ->]]%lookup_snoc_Some.
      * destruct (Hfollows j g Hj) as (f & ? & ?).
        exists f. split; [done|].
        rewrite calls_of_snoc. simpl. by rewrite app_nil_r.
      * exists p. split.
        { rewrite Hlen. apply list_lookup_middle. done. }
        rewrite calls_of_snoc. simpl. rewrite app_nil_r.
        rewrite calls_of_nil; [constructor|].
        intros ev Hev. destruct (Hcalls _ _ Hev) as (j & ? & ?).
        simplify_eq. lia.
    + intros j g r [Hj|[-> ->]]%lookup_snoc_Some Hr; [|done].
      apply elem_of_snoc. left. eauto.
  - go_inv Hstep.
    all: split_and!; try done.
    all: try (intros err' [Herr|?]%elem_of_snoc; [by eauto|done]).
    all: try (intros t ev Hev; rewrite length_insert;
              apply elem_of_snoc in Hev as [Hev|Hev]; [by eauto|];
              first [ done
                    | simplify_eq; exists i; split; [done|];
                      by eapply lookup_lt_Some ]).
    all: try (intros t ev Hev; rewrite length_insert; by eauto).
    all: try (intros j g r [(-> & <- & _)|[Hne Hj]]%list_lookup_insert_Some Hr;
              [ simpl in Hr; simplify_eq;
                first [ by (apply elem_of_snoc; right)
                      | try (apply elem_of_snoc; left);
                        by eapply Hreturned ]
              | try (apply elem_of_snoc; left); by eauto ]).
    all: intros j g [(-> & <- & _)|[Hne Hj]]%list_lookup_insert_Some;
      [ destruct (Hfollows _ _ Hg) as (f & Hf & Hfol)
      | destruct (Hfollows j g Hj) as (f & Hf & Hfol) ];
      exists f; (split; [done|]);
      rewrite ?calls_of_snoc; simpl;
      rewrite ?bool_decide_eq_true_2, ?bool_decide_eq_false_2 by done;
      rewrite ?app_nil_r; simpl in *;
      first [done | by apply follows_snoc].
Qed.

Lemma inv_log_entry (w : W) : inv_log (entry functions w).
Proof.
  unfold inv_log. simpl. split; [|done].
  intros i err Herr. by apply elem_of_nil in Herr.
Qed.

Lemma inv_log_step (s s' : state W) :
  inv_log s -> sched_step h s s' -> inv_log s'.
Proof.
  intros (Hret & Hpast) [[|i] Hstep]; unfold inv_log.
  - main_inv Hstep; rewrite ?Hmain in *; simpl in *.
    all: split; try done.
    all: try (intros j r [Hj|?]%elem_of_snoc; [|done];
              destruct (Hret _ _ Hj) as (g & Hg & ?); exists g;
              split; [|done]; first [done|by apply lookup_app_l_Some]).
    all: intros j g Hj Hg;
      try (apply lookup_snoc_Some in Hj as [Hj|[-> ->]]; [|done]);
      destruct (Hpast _ _ Hj Hg) as (e & ? & Hin); exists e;
      (split; [done|]); rewrite !elem_of_snoc; tauto.
  - go_inv Hstep; (split; [intros j r Hj|intros j g1 Hj Hpc]).
    all: try (first [ apply elem_of_snoc in Hj as [Hj|Hj] | idtac ];
              [ destruct (Hret _ _ Hj) as (g1 & Hg1 & Hr1);
                destruct (decide (j = i)) as [->|Hne];
                [ simplify_eq/=;
                  try (eexists; split;
                       [ apply list_lookup_insert_eq;
                         eapply lookup_lt_Some; eassumption
                       | done ])
                | exists g1; by rewrite list_lookup_insert_ne ]
              | simplify_eq;
                try (eexists; split;
                     [ apply list_lookup_insert_eq;
                       eapply lookup_lt_Some; eassumption
                     | done ]) .. ]).
    all: apply list_lookup_insert_Some in Hj as [(-> & <- & _)|[Hne Hj]];
      [ simpl in Hpc; try done
      | destruct (Hpast _ _ Hj Hpc) as (e' & ? & Hin); exists e';
        (split; [done|]); rewrite ?elem_of_snoc; tauto ].
    + exists err. rewrite !elem_of_snoc. auto.
    + exists err. rewrite !elem_of_snoc. auto.
    + destruct (Hpast _ _ Hg eq_refl) as (e' & ? & Hin). by exists e'.
    + destruct err as [err|]; [|done].
      destruct (Hpast _ _ Hg eq_refl) as (e' & ? & Hin). exists e'.
      rewrite !elem_of_snoc. tauto.
Qed.

Lemma inv_result_step (s s' : state W) :
  inv_result s -> sched_step h s s' -> inv_result s'.
Proof.
  intros Hres [[|i] Hstep]; unfold inv_result in *.
  - main_inv Hstep; rewrite ?Hmain in *; simpl in *; try done.
    intros err ?. simplify_eq. apply elem_of_snoc. by right.
  - go_inv Hstep; intros r Hr; rewrite ?elem_of_snoc; auto.
Qed.

(** Every state of an execution satisfies the invariants. *)
Lemma inv_reachable (w : W) (s : state W) :
  reachable h functions w s -> inv functions s.
Proof.
  unfold reachable. revert s.
  apply (rtc_ind_r (inv functions)); [|intros s1 s2 Hreach Hstep IH].
  - split_and!; [apply inv_wg_entry|apply inv_mu_entry|apply inv_err_entry
                |apply inv_run_entry|apply inv_log_entry|done].
  - destruct IH as (Hwg & Hmu & Herr & Hrun & Hlog & Hres). split_and!.
    + by eapply inv_wg_step.
    + by eapply inv_mu_step.
    + by eapply inv_err_step.
    + by eapply inv_run_step.
    + by eapply inv_log_step.
    + by eapply inv_result_step.
Qed.

End RunParallel.

(** *** Termination *)

Lemma gnext_wf : ∀ g, Acc gnext g.
Proof.
  assert (∀ err, Acc gnext (GExited err)) as Hexited.
  { intros err. constructor. intros g' Hg'. inversion Hg'. }
  assert (∀ err, Acc gnext (GDone err)) as Hdone.
  { intros err. constructor. intros g' Hg'. inversion Hg'; subst. done. }
  assert (∀ err, Acc gnext (GUnlock err)) as Hunlock.
  { intros err. constructor. intros g' Hg'. inversion Hg'; subst. done. }
  assert (∀ err, Acc gnext (GWrite err)) as Hwrite.
  { intros err. constructor. intros g' Hg'. inversion Hg'; subst. done. }
  assert (∀ err, Acc gnext (GTest err)) as Htest.
  { intros err. constructor. intros g' Hg'. inversion Hg'; subst; done. }
  assert (∀ err, Acc gnext (GLock err)) as Hlock.
  { intros err. constructor. intros g' Hg'. inversion Hg'; subst. done. }
  assert (∀ p, Acc gnext (GCall p)) as Hcall.
  { induction p as [r|X c k IH]; constructor; intros g' Hg'.
    - inversion Hg'; subst; done.
    - inversion Hg' as [p' p Hp| | | | | | | |]; subst.
      destruct Hp as [x ->]. apply IH. }
  intros []; done.
Qed.

Lemma lnext_wf : ∀ l, Acc lnext l.
Proof.
  induction l as [|g l IHl].
  - constructor. intros l' (i & g & g' & Hi & _). done.
  - revert l IHl. induction (gnext_wf g) as [g _ IHg]. intros l IHl.
    induction IHl as [l Hl IHl].
    constructor. intros l' (i & gi & g' & Hi & Hnext & ->).
    destruct i as [|i]; simplify_eq/=.
    + apply IHg; [done|]. by constructor.
    + apply IHl. by exists i, gi, g'.
Qed.

Lemma mnext_wf : ∀ m, Acc mnext m.
Proof.
  intros [n l]. revert l.
  induction (lt_wf n) as [n _ IHn]. intros l.
  induction (lnext_wf l) as [l _ IHl].
  constructor. intros [n' l'] [[Hlt Heq]|[Heq Hnext]]; simpl in *; subst.
  - by apply IHn.
  - by apply IHl.
Qed.

Section Termination.

Context {W : Type} (h : Handler W).

(** Every action decreases the measure. *)
Lemma step_measure (t : tid) (s s' : state W) :
  step h t s = Some s' -> mnext (measure s') (measure s).
Proof.
  intros Hstep. destruct t as [|i].
  - left. unfold measure. main_inv Hstep; rewrite ?Hmain; simpl.
    all: split; [lia|]; try done.
    by rewrite <- app_assoc.
  - right. unfold measure. simpl.
    assert (∀ g g', gs s !! i = Some g -> gnext g' g ->
                    lnext (<[i := g']> (gs s) ++ map GCall (pending (main s)))
                      (gs s ++ map GCall (pending (main s)))) as Hnext.
    { intros g g' Hg Hgg'. exists i, g, g'. split_and!; [|done|].
      - by apply lookup_app_l_Some.
      - rewrite insert_app_l; [done|]. by eapply lookup_lt_Some. }
    go_inv Hstep; (split; [done|]); eapply Hnext; try done;
      repeat constructor.
    simpl. by eexists.
Qed.

(** No execution goes on for ever, whatever the scheduler does. *)
Lemma sched_step_wf (s : state W) : Acc (flip (sched_step h)) s.
Proof.
  remember (measure s) as m eqn:Hm. revert s Hm.
  induction (mnext_wf m) as [m _ IH]. intros s ->.
  constructor. intros s' [t Hstep].
  eapply IH; [|done]. by eapply step_measure.
Qed.

End Termination.

(** *** Progress and the results of runParallel *)

Section Results.

Context {W : Type} (h : Handler W).
Variable functions : list (prog (option error)).

Lemma ready_always {X : Type} (c : call X) (w : W) :
  always_signalled h -> ready h c w = true.
Proof. intros Hsig. destruct c; simpl; auto. Qed.

Lemma count_none {A : Type} (P : A -> bool) (l : list A) :
  (∀ i x, l !! i = Some x -> P x = false) -> count P l = 0.
Proof.
  induction l as [|a l IH]; intros Hall; simpl; [done|].
  rewrite (Hall 0 a eq_refl). rewrite IH; [done|].
  intros i x Hi. apply (Hall (S i) x Hi).
Qed.

(** A goroutine that is not waiting for a held mutex can act. *)
Lemma step_go_enabled (s : state W) (i : nat) (g : gstate) :
  always_signalled h -> is_exited g = false ->
  (mu s = false ∨ holds_mu g = true) ->
  is_Some (step_go h i g s).
Proof.
  intros Hsig Hex Hmu.
  destruct g as [[r|X c k]|e|e|e|e|r|r]; simpl in *; try done.
  - rewrite ready_always by done. by destruct (answer h c (world s)).
  - destruct Hmu as [->|?]; done.
  - by destruct (firstErr s).
Qed.

(** Unless the caller has returned, some thread can act: no deadlock. *)
Lemma progress (s : state W) :
  always_signalled h -> inv functions s ->
  (∃ err, main s = MReturned err) ∨ (∃ s', sched_step h s s').
Proof.
  intros Hsig (Hwg & Hmu & _).
  destruct Hwg as ((started & Hfs & Hlen) & Hnone & Hwg & Hjoin).
  unfold inv_mu in Hmu.
  destruct (main s) as [fs|[|f rest]| | | |r] eqn:Hmain; simpl in *.
  - right. eexists. exists TMain. simpl. unfold step_main. by rewrite Hmain.
  - right. eexists. exists TMain. simpl. unfold step_main. by rewrite Hmain.
  - right. eexists. exists TMain. simpl. unfold step_main. by rewrite Hmain.
  - right. destruct (decide (wg s = 0%Z)) as [Hz|Hnz].
    { eexists. exists TMain. simpl. unfold step_main.
      rewrite Hmain. by rewrite bool_decide_eq_true_2. }
    assert (∃ i g, gs s !! i = Some g ∧ is_exited g = false
                   ∧ (mu s = false ∨ holds_mu g = true))
      as (i & g & Hg & Hex & Hfree).
    { rewrite app_nil_r in Hfs. subst started.
      pose proof (count_le_length is_exited (gs s)).
      destruct (mu s) eqn:Hheld.
      - destruct (count_pos holds_mu (gs s)) as (i & g & Hg & Hholds); [lia|].
        exists i, g. split_and!; [done| |by right]. by destruct g.
      - destruct (count_short is_exited (gs s)) as (i & g & Hg & Hex); [lia|].
        exists i, g. split_and!; [done|done|by left]. }
    destruct (step_go_enabled s i g Hsig Hex Hfree) as [s' Hs'].
    exists s', (TGo i). simpl. by rewrite Hg.
  - right. assert (mu s = false) as Hfree.
    { rewrite (count_none holds_mu) in Hmu.
      - by destruct (mu s).
      - intros i g Hg.
        pose proof (count_full _ _ (Hjoin eq_refl) _ _ Hg). by destruct g. }
    eexists. exists TMain. simpl. unfold step_main. by rewrite Hmain, Hfree.
  - right. eexists. exists TMain. simpl. unfold step_main. by rewrite Hmain.
  - left. by exists r.
Qed.

(** When no call blocks, every execution can be carried on until the caller
    returns; by [sched_step_wf] it cannot be carried on for ever. *)
Lemma runParallel_returns (w : W) (s : state W) :
  always_signalled h -> reachable h functions w s ->
  ∃ s' err, rtc (sched_step h) s s' ∧ reachable h functions w s'
            ∧ main s' = MReturned err.
Proof.
  intros Hsig. induction (sched_step_wf h s) as [s _ IH]. intros Hreach.
  destruct (progress s Hsig (inv_reachable h functions w s Hreach))
    as [[err Herr]|[s1 Hstep]].
  - by exists s, err.
  - destruct (IH s1 Hstep) as (s' & err & Hsteps & Hreach' & Herr).
    { by eapply rtc_r. }
    exists s', err. split_and!; try done. by eapply rtc_l.
Qed.

Lemma run_steps (sched : list tid) (s s' : state W) :
  run h sched s = Some s' -> rtc (sched_step h) s s'.
Proof.
  revert s. induction sched as [|t sched IH]; intros s Hrun; simplify_eq/=.
  - done.
  - destruct (step h t s) as [s1|] eqn:Hstep; simplify_eq/=.
    eapply rtc_l; [by exists t|]. by apply IH.
Qed.

(** A result of [runParallel] is the result of an execution. *)
Lemma runParallel_reachable (sched : list tid) (w w' : W) (tr : list label)
  (err : option error) :
  runParallel h functions sched w = Some (w', tr, err) ->
  ∃ s, reachable h functions w s ∧ main s = MReturned err
       ∧ world s = w' ∧ trace s = tr.
Proof.
  unfold runParallel. intros Hrun.
  destruct (run h sched (entry functions w)) as [s|] eqn:Hs; simplify_eq/=.
  destruct (main s) eqn:Hmain; simplify_eq/=.
  exists s. split_and!; try done. by eapply run_steps.
Qed.

(** Past [wg.Wait()], every function has been run to its return by a
    goroutine that has exited. *)
Lemma joined_all_exited (w : W) (s : state W) :
  reachable h functions w s -> joined (main s) = true ->
  length (gs s) = length functions
  ∧ ∀ i f, functions !! i = Some f ->
      ∃ err, gs s !! i = Some (GExited err)
             ∧ LReturn i err ∈ trace s
             ∧ follows f (calls_of i (trace s)) (Ret err).
Proof.
  intros Hreach Hjoined.
  destruct (inv_reachable h functions w s Hreach)
    as (Hwg & _ & _ & (Hfollows & Hreturned & _) & _).
  destruct Hwg as ((started & Hfs & Hlen) & _ & _ & Hjoin).
  assert (pending (main s) = []) as Hpending by (by destruct (main s)).
  rewrite Hpending, app_nil_r in Hfs. subst started. split; [done|].
  intros i f Hf.
  destruct (lookup_lt_is_Some_2 (gs s) i) as [g Hg].
  { rewrite Hlen. by eapply lookup_lt_Some. }
  pose proof (count_full _ _ (Hjoin Hjoined) _ _ Hg) as Hex.
  destruct g as [| | | | | |err]; try done.
  exists err. split_and!; [done|by eapply Hreturned|].
  destruct (Hfollows _ _ Hg) as (f' & Hf' & Hfol). by simplify_eq.
Qed.

Lemma run_app (sched1 sched2 : list tid) (s : state W) :
  run h (sched1 ++ sched2) s = run h sched1 s ≫= run h sched2.
Proof.
  revert s. induction sched1 as [|t sched1 IH]; intros s; simpl; [done|].
  destruct (step h t s); simpl; [apply IH|done].
Qed.

Lemma steps_run (s s' : state W) :
  rtc (sched_step h) s s' -> ∃ sched, run h sched s = Some s'.
Proof.
  induction 1 as [s|s s1 s' [t Hstep] _ [sched IH]].
  - by exists [].
  - exists (t :: sched). simpl. by rewrite Hstep.
Qed.

(** A partial run of [runParallel] can be completed, when no call blocks. *)
Lemma run_completes (w : W) (sched : list tid) (s : state W) :
  always_signalled h -> run h sched (entry functions w) = Some s ->
  ∃ sched' w' tr err,
    runParallel h functions (sched ++ sched') w = Some (w', tr, err).
Proof.
  intros Hsig Hrun.
  destruct (runParallel_returns w s Hsig (run_steps _ _ _ Hrun))
    as (s' & err & Hsteps & _ & Herr).
  destruct (steps_run _ _ Hsteps) as [sched' Hrun'].
  exists sched', (world s'), (trace s'), err.
  unfold runParallel. rewrite run_app, Hrun. simpl. rewrite Hrun'. simpl.
  by rewrite Herr.
Qed.

Lemma elem_of_recorded (l : label) (tr : list label) :
  l ∈ tr -> is_discard l = true ∨ (∃ i err, l = LStore i err) ->
  l ∈ recorded tr.
Proof.
  intros Hl Hkind. apply list_elem_of_In, filter_In. split.
  - by apply list_elem_of_In.
  - destruct Hkind as [?|(i & err & ->)]; [by destruct l|done].
Qed.

(** What [runParallel] returns when some function has returned an error. *)
Lemma first_error_returned (w : W) (s : state W) (err : option error) :
  reachable h functions w s ->
  main s = MReturned err ->
  (∃ i e, LReturn i (Some e) ∈ trace s) ->
  ∃ i0 err0 discards f0,
    err = Some err0
    ∧ recorded (trace s) = LStore i0 err0 :: discards
    ∧ forallb is_discard discards = true
    ∧ functions !! i0 = Some f0
    ∧ follows f0 (calls_of i0 (trace s)) (Ret (Some err0))
    ∧ ∀ j e, LReturn j (Some e) ∈ trace s ->
        (j = i0 ∧ e = err0) ∨ LDiscard j e ∈ discards.
Proof.
  intros Hreach Hmain (i & e & Hfail).
  destruct (joined_all_exited w s Hreach) as [Hlen Hall];
    [by rewrite Hmain|].
  destruct (inv_reachable h functions w s Hreach)
    as (_ & _ & (_ & Hfirst & Hret) & (Hfollows & Hreturned & _)
        & (Hlog & Hpast) & _).
  (* a failing function has been through the critical section *)
  assert (∀ j e', LReturn j (Some e') ∈ trace s ->
            LStore j e' ∈ trace s ∨ LDiscard j e' ∈ trace s) as Hvisited.
  { intros j e' Hj. destruct (Hlog _ _ Hj) as (g & Hg & Hr).
    destruct (lookup_lt_is_Some_2 functions j) as [f Hf].
    { rewrite <- Hlen. by eapply lookup_lt_Some. }
    destruct (Hall j f Hf) as (r & Hg' & _).
    rewrite Hg in Hg'. injection Hg' as ->. simpl in Hr. injection Hr as ->.
    destruct (Hpast _ _ Hg eq_refl) as (e2 & ? & ?). by simplify_eq/=. }
  rewrite <- (Hret _ Hmain) in Hfirst. destruct err as [err0|].
  - destruct Hfirst as (i0 & ds & Hrec & Hds & g0 & Hg0 & Hpc & Hr0).
    destruct (Hfollows _ _ Hg0) as (f0 & Hf0 & _).
    destruct (Hall _ _ Hf0) as (r & Hg0' & _ & Hfol).
    rewrite Hg0 in Hg0'. injection Hg0' as ->. simpl in Hr0.
    injection Hr0 as ->.
    exists i0, err0, ds, f0. split_and!; try done.
    intros j e' Hj.
    assert (∀ l, l ∈ ds -> is_discard l = true) as Hdiscards.
    { intros l Hl. eapply forallb_forall; [done|]. by apply list_elem_of_In. }
    destruct (Hvisited _ _ Hj) as [Hin|Hin];
      eapply elem_of_recorded in Hin; eauto; rewrite Hrec in Hin;
      apply elem_of_cons in Hin as [Heq|Hin]; simplify_eq; auto.
    by apply Hdiscards in Hin.
  - destruct Hfirst as [Hrec _].
    destruct (Hvisited _ _ Hfail) as [Hin|Hin];
      eapply elem_of_recorded in Hin; eauto; rewrite Hrec in Hin;
      by apply elem_of_nil in Hin.
Qed.

(** What [runParallel] returns when no function has returned an error. *)
Lemma no_error_returned (w : W) (s : state W) (err : option error) :
  reachable h functions w s ->
  main s = MReturned err ->
  (∀ i e, LReturn i (Some e) ∉ trace s) ->
  err = None.
Proof.
  intros Hreach Hmain Hok.
  destruct (inv_reachable h functions w s Hreach)
    as (_ & _ & (_ & Hfirst & Hret) & (_ & Hreturned & _) & _).
  rewrite <- (Hret _ Hmain) in Hfirst. destruct err as [err0|]; [|done].
  destruct Hfirst as (i0 & ds & _ & _ & g0 & Hg0 & _ & Hr0).
  destruct (Hok i0 err0). by eapply Hreturned.
Qed.

(** C1: whatever the schedule, when some function has returned an error,
    [runParallel] returns only after every function has returned and every
    goroutine has exited, and what it returns is the error of the first
    store into [firstErr]: an error that one of the functions returned.
    Every other visit of the critical section discards its error, and every
    other failing function made such a visit.  When no call blocks, every
    partial run can be completed to a return. *)
Theorem runParallel_first_error (w : W) :
  (always_signalled h ->
   ∀ sched s, run h sched (entry functions w) = Some s ->
     ∃ sched' w' tr err,
       runParallel h functions (sched ++ sched') w = Some (w', tr, err))
  ∧ ∀ sched s err,
      run h sched (entry functions w) = Some s ->
      main s = MReturned err ->
      (∃ i e, LReturn i (Some e) ∈ trace s) ->
      (∀ i f, functions !! i = Some f ->
         ∃ r, gs s !! i = Some (GExited r) ∧ LReturn i r ∈ trace s
              ∧ follows f (calls_of i (trace s)) (Ret r))
      ∧ ∃ i0 err0 discards f0,
          err = Some err0
          ∧ recorded (trace s) = LStore i0 err0 :: discards
          ∧ forallb is_discard discards = true
          ∧ functions !! i0 = Some f0
          ∧ follows f0 (calls_of i0 (trace s)) (Ret (Some err0))
          ∧ ∀ j e, LReturn j (Some e) ∈ trace s ->
              (j = i0 ∧ e = err0) ∨ LDiscard j e ∈ discards.
Proof.
  split; [intros Hsig sched s Hrun; by eapply run_completes|].
  intros sched s err Hrun Hmain Hfail.
  pose proof (run_steps _ _ _ Hrun) as Hreach. split.
  - apply (joined_all_exited w s Hreach). by rewrite Hmain.
  - by eapply first_error_returned.
Qed.

(** C2: whatever the schedule, once the caller is past [wg.Wait()] every
    function has been run to its return and its goroutine has exited: no
    function is cut short.  When every function has returned nil,
    [runParallel] returns nil.  When no call blocks, every partial run can be
    completed to a return. *)
Theorem runParallel_all_succeed (w : W) :
  (always_signalled h ->
   ∀ sched s, run h sched (entry functions w) = Some s ->
     ∃ sched' w' tr err,
       runParallel h functions (sched ++ sched') w = Some (w', tr, err))
  ∧ (∀ sched s,
       run h sched (entry functions w) = Some s -> joined (main s) = true ->
       length (gs s) = length functions
       ∧ ∀ i f, functions !! i = Some f ->
           ∃ r, gs s !! i = Some (GExited r) ∧ LReturn i r ∈ trace s
                ∧ follows f (calls_of i (trace s)) (Ret r))
  ∧ ∀ sched s err,
      run h sched (entry functions w) = Some s ->
      main s = MReturned err ->
      (∀ i e, LReturn i (Some e) ∉ trace s) ->
      err = None.
Proof.
  split_and!.
  - intros Hsig sched s Hrun. by eapply run_completes.
  - intros sched s Hrun Hjoined.
    by eapply joined_all_exited, Hjoined; eapply run_steps.
  - intros sched s err Hrun Hmain Hok.
    eapply no_error_returned; [by eapply run_steps|done..].
Qed.

End Results.

Section NoFunctions.

Context {W : Type} (h : Handler W).

(** What holds of every state of [runParallel()]. *)
Lemma no_functions_step (w : W) (t : tid) (s s' : state W) :
  let P s :=
    gs s = [] ∧ world s = w ∧ wg s = 0%Z ∧ firstErr s = None
    ∧ (∀ i, LSpawn i ∉ trace s)
    ∧ pending (main s) = []
    ∧ (mu s = true -> main s = MReturn)
    ∧ (∀ err, main s = MReturned err -> err = None) in
  P s -> step h t s = Some s' -> P s'.
Proof.
  intros P (Hgs & Hw & Hwg & Hfirst & Hspawn & Hpending & Hmu & Hret) Hstep.
  destruct t as [|i].
  - main_inv Hstep; rewrite ?Hmain in *; simpl in *; simplify_eq/=;
      unfold P; simpl; split_and!; try done.
    all: try (intros i [?|?]%elem_of_snoc; [by eapply Hspawn|done]).
    all: try (intros Hheld; by specialize (Hmu Hheld)).
    + lia.
    + intros; by simplify_eq.
  - simpl in Hstep. by rewrite Hgs in Hstep.
Qed.

(** C9: [runParallel()] with no function starts no goroutine and returns
    nil without ever waiting: in every state of every run the list of
    goroutines is empty and the world untouched, the caller either has
    returned nil or can take its next action, and five actions of the
    caller take it to its return. *)
Theorem runParallel_no_functions (w : W) :
  runParallel h [] (replicate 5 TMain) w
  = Some (w, [LJoin; LResult None], None)
  ∧ ∀ sched s,
      run h sched (entry [] w) = Some s ->
      gs s = [] ∧ world s = w ∧ (∀ i, LSpawn i ∉ trace s)
      ∧ sched = replicate (length sched) TMain
      ∧ match main s with
        | MReturned err => err = None
        | _ => is_Some (step h TMain s)
        end.
Proof.
  split; [done|]. intros sched s Hrun.
  set (P := fun s : state W =>
    gs s = [] ∧ world s = w ∧ wg s = 0%Z ∧ firstErr s = None
    ∧ (∀ i, LSpawn i ∉ trace s)
    ∧ pending (main s) = []
    ∧ (mu s = true -> main s = MReturn)
    ∧ (∀ err, main s = MReturned err -> err = None)).
  assert (P (entry [] w)) as Hentry.
  { unfold P. simpl. split_and!; try done. intros i Hi.
    by apply elem_of_nil in Hi. }
  assert (P s ∧ sched = replicate (length sched) TMain) as [HP Hsched].
  { revert Hentry Hrun. generalize (entry [] w : state W).
    induction sched as [|t sched IH]; intros s0 HP0 Hrun; simplify_eq/=.
    - done.
    - destruct (step h t s0) as [s1|] eqn:Hstep; simplify_eq/=.
      destruct (IH s1) as [HP Hsched];
        [by eapply (no_functions_step w t s0 s1)|done|].
      split; [done|]. f_equal; [|done].
      destruct t as [|i]; [done|]. simpl in Hstep.
      destruct HP0 as (Hgs & _). by rewrite Hgs in Hstep. }
  destruct HP as (Hgs & Hw & Hwg & Hfirst & Hspawn & Hpending & Hmu & Hret).
  split_and!; try done.
  simpl. unfold step_main.
  destruct (main s) as [fs|[|f rest]| | | |r] eqn:Hmain; simpl in *;
    try done; try by eauto.
  - by rewrite Hwg.
  - destruct (mu s); [|done]. by specialize (Hmu eq_refl).
Qed.

End NoFunctions.

(** ** Build *)

Section NeverCalls.

Context {W : Type} (h : Handler W).
Variable P : event -> bool.

Lemma follows_never_calls {A : Type} (f q : prog A) (evs : list event) :
  never_calls P f -> follows f evs q -> ∀ ev, ev ∈ evs -> P ev = false.
Proof.
  intros Hnever Hfollows. induction Hfollows as [p|X c k x evs q _ IH].
  - intros ev Hev. by apply elem_of_nil in Hev.
  - simpl in Hnever. destruct (Hnever x) as [Hx Hk].
    intros ev [->|Hev]%elem_of_cons; [done|]. by apply IH.
Qed.

Lemma exec_from_never_calls {A : Type} (p : prog A) (w : W)
  (tr : list event) :
  never_calls P p ->
  ∀ ev, ev ∈ out_trace (exec_from h p w tr) -> ev ∈ tr ∨ P ev = false.
Proof.
  revert w tr. induction p as [a|X c k IH]; intros w tr Hnever ev; simpl.
  - by left.
  - destruct (ready h c w); [|by left].
    destruct (answer h c w) as [w' x]. destruct (Hnever x) as [Hx Hk].
    intros Hev. destruct (IH x w' _ Hk ev Hev) as [Hin|?]; [|by right].
    apply elem_of_snoc in Hin as [?| ->]; auto.
Qed.

(** The calls of an execution of [runParallel] are those of its functions. *)
Lemma reachable_never_calls (functions : list (prog (option error))) (w : W)
  (s : state W) :
  reachable h functions w s ->
  (∀ i f, functions !! i = Some f -> never_calls P f) ->
  ∀ t ev, LCall t ev ∈ trace s -> P ev = false.
Proof.
  intros Hreach Hnever t ev Hev.
  destruct (inv_reachable h functions w s Hreach)
    as (_ & _ & _ & (Hfollows & _ & Hcalls & _) & _).
  destruct (Hcalls _ _ Hev) as (i & -> & Hi).
  destruct (lookup_lt_is_Some_2 (gs s) i Hi) as [g Hg].
  destruct (Hfollows _ _ Hg) as (f & Hf & Hfol).
  eapply follows_never_calls; [by eapply Hnever|done|].
  by apply elem_of_calls_of.
Qed.

End NeverCalls.

(** Proves that a build step never makes a call of some kind. *)
Ltac never_calls :=
  repeat (simpl; intros;
          match goal with
          | |- _ ∧ _ => split
          | |- _ = _ => reflexivity
          | |- True => exact I
          | |- context [match ?x with _ => _ end] => destruct x
          end).

Section BuildProperties.

Context {W : Type} (h : Handler W).
Variable join : list string -> string.
Variable ChannelFor : string -> ReleaseChannel.

Lemma Build_prepare_never_archive (d : DistBuilder) :
  never_calls is_archive (Build_prepare join d).
Proof. unfold Build_prepare. never_calls. Qed.

Lemma Build_steps_never_archive (d : DistBuilder) (i : nat)
  (f : prog (option error)) :
  Build_steps join ChannelFor d !! i = Some f -> never_calls is_archive f.
Proof.
  unfold Build_steps. intros Hf.
  repeat (destruct i as [|i]; simplify_eq/=).
  - unfold buildEncoreCLI. never_calls.
  - unfold buildTSBundler. never_calls.
  - unfold buildGitHook. never_calls.
  - unfold buildTSParser. never_calls.
  - unfold buildNodePlugin, compiledBinaryName_of. never_calls.
  - unfold copyEncoreRuntimeForGo. never_calls.
  - unfold copyEncoreRuntimeForJS. never_calls.
  - unfold downloadEncoreGo. never_calls.
Qed.

(** The first place at which a list holds an element of some kind lies
    beyond any prefix that holds none. *)
Lemma split_beyond {A : Type} (P : A -> bool) (l1 l2 pre post : list A)
  (x : A) :
  pre ++ x :: post = l1 ++ l2 -> P x = true ->
  (∀ y, y ∈ l1 -> P y = false) ->
  ∃ pre', pre = l1 ++ pre' ∧ l2 = pre' ++ x :: post.
Proof.
  revert pre. induction l1 as [|a l1 IH]; intros pre Heq Hx Hl1.
  - by exists pre.
  - destruct pre as [|b pre]; simplify_eq/=.
    + rewrite Hl1 in Hx; [done|left].
    + destruct (IH pre) as (pre' & -> & ->); [done..| |by exists pre'].
      intros y Hy. apply Hl1. by right.
Qed.

(** C3: in every run of [Build], when [runParallel] has returned an error,
    [Build] returns that error wrapped with the OS and the architecture and no
    thread ever calls [TarGzip].  A call to [TarGzip] is made by the caller,
    on the staging directory and the archive file of the request, after
    [runParallel] has returned nil and every build step has returned nil; when
    it fails, [Build] returns its error wrapped with the OS and the
    architecture. *)
Theorem Build_runParallel_error (d : DistBuilder) (sched : list tid)
  (w w' : W) (tr : list label) (r : option error) :
  Build join ChannelFor h d sched w = Some (w', tr, r) ->
  let target := " os: " +:+ OS d +:+ ", arch: " +:+ Arch d in
  (∀ err, LResult (Some err) ∈ tr ->
     r = Some (errors_Wrap err target)
     ∧ ∀ t ev, LCall t ev ∈ tr -> is_archive ev = false)
  ∧ (∀ pre t ev post,
       tr = pre ++ LCall t ev :: post -> is_archive ev = true ->
       t = TMain
       ∧ LResult None ∈ pre
       ∧ (∀ i f, Build_steps join ChannelFor (with_logger d) !! i = Some f ->
            LReturn i None ∈ pre)
       ∧ ∃ x, ev = Event (TarGzip (DistBuildDir d) (ArtifactsTarFile d)) x
              ∧ r = match x with
                    | Some err => Some (errors_Wrap err target)
                    | None => None
                    end).
Proof.
  unfold Build. intros HBuild.
  destruct (exec h (Build_prepare join (with_logger d)) w)
    as [w1 t1 v1] eqn:Hprep.
  simpl in HBuild.
  assert (∀ l, l ∈ main_calls t1 -> archives l = false) as Ht1.
  { intros l (ev & -> & Hev)%list_elem_of_fmap. simpl.
    pose proof (exec_from_never_calls h is_archive _ w []
                  (Build_prepare_never_archive (with_logger d)) ev) as Hnever.
    unfold exec in Hprep. rewrite Hprep in Hnever.
    destruct (Hnever Hev) as [Hnil|?]; [|done]. by apply elem_of_nil in Hnil. }
  destruct v1 as [[err1|]|]; [| |done].
  { (* the preparation has failed *)
    simplify_eq. split.
    - intros err (ev & ? & _)%list_elem_of_fmap. done.
    - intros pre t ev post Htr Hev.
      assert (archives (LCall t ev) = false) as Hno; [|simpl in Hno; congruence].
      apply Ht1. rewrite Htr. apply elem_of_app. right. left. }
  destruct (runParallel h _ sched w1) as [[[w2 tr2] err]|] eqn:Hpar;
    [|done].
  simpl in HBuild.
  destruct (runParallel_reachable h _ _ _ _ _ _ Hpar)
    as (s & Hreach & Hmain & <- & <-).
  destruct (inv_reachable h _ _ _ Hreach)
    as (_ & _ & _ & (_ & _ & _ & Hresult) & _ & Hres).
  assert (∀ l, l ∈ trace s -> archives l = false) as Htr2.
  { intros [t ev| | | | | | |] Hl; try done. simpl.
    eapply (reachable_never_calls h is_archive _ _ _ Hreach); [|exact Hl].
    intros i f. apply Build_steps_never_archive. }
  assert (∀ err', LResult err' ∈ main_calls t1 ++ trace s -> err' = err)
    as Hres1.
  { intros err' [(? & ? & _)%list_elem_of_fmap|Hin]%elem_of_app; [done|].
    apply Hresult in Hin. rewrite Hmain in Hin. by injection Hin. }
  assert (err = None ->
          ∀ i f, Build_steps join ChannelFor (with_logger d) !! i = Some f ->
                 LReturn i None ∈ trace s) as Hsteps.
  { intros -> i f Hf.
    destruct (joined_all_exited h _ _ _ Hreach) as [_ Hall];
      [by rewrite Hmain|].
    destruct (Hall i f Hf) as ([e|] & _ & Hi & _); [|done].
    destruct (first_error_returned h _ _ _ _ Hreach Hmain)
      as (? & ? & ? & ? & ? & _); [by eauto|done]. }
  destruct err as [err|]; unfold exec in HBuild; simpl in HBuild.
  - (* runParallel has returned an error *)
    destruct (answer h (Log _) (world s)) as [w3 []]. simplify_eq/=.
    split.
    + intros err' [(? & ? & _)%list_elem_of_fmap|Hin]%elem_of_app; [done|].
      apply elem_of_app in Hin as [Hin|Hin].
      * apply Hresult in Hin. rewrite Hmain in Hin. injection Hin as ->.
        split; [done|].
        intros t ev [Hev|[Hev|Hev]%elem_of_app]%elem_of_app.
        -- by apply Ht1 in Hev.
        -- by apply Htr2 in Hev.
        -- apply list_elem_of_singleton in Hev. by simplify_eq.
      * apply list_elem_of_singleton in Hin. done.
    + intros pre t ev post Htr Hev. rewrite app_assoc in Htr.
      symmetry in Htr.
      destruct (split_beyond archives _ _ _ _ _ Htr Hev) as (pre' & _ & Hlast).
      { intros l [?|?]%elem_of_app; auto. }
      destruct pre' as [|? [|? ?]]; simplify_eq/=.
  - (* runParallel has returned nil *)
    destruct (answer h (Log _) (world s)) as [w3 []]. simpl in HBuild.
    destruct (answer h (TarGzip _ _) w3) as [w4 x].
    assert (r = match x with
                | Some err =>
                    Some (errors_Wrap err
                            (" os: " +:+ OS d +:+ ", arch: " +:+ Arch d))
                | None => None
                end
            ∧ ∃ l1 l3,
                tr = (main_calls t1 ++ trace s)
                     ++ [LCall TMain l1;
                         LCall TMain
                           (Event (TarGzip (DistBuildDir d)
                                     (ArtifactsTarFile d)) x);
                         LCall TMain l3]
                ∧ is_archive l1 = false ∧ is_archive l3 = false)
      as (Hr & l1 & l3 & Htr & Hl1 & Hl3).
    { destruct x as [err|]; simpl in HBuild;
        destruct (answer h (Log _) w4) as [w5 []]; simplify_eq/=;
        (split; [done|]); eexists _, _; rewrite <- app_assoc; done. }
    clear HBuild. split.
    + intros err' Hin. rewrite Htr in Hin.
      apply elem_of_app in Hin as [Hin|Hin].
      * by apply Hres1 in Hin.
      * repeat (apply elem_of_cons in Hin as [?|Hin]; [done|]).
        by apply elem_of_nil in Hin.
    + intros pre t ev post Htr' Hev. rewrite Htr in Htr'.
      symmetry in Htr'.
      destruct (split_beyond archives _ _ _ _ _ Htr' Hev)
        as (pre' & -> & Hlast).
      { intros l [?|?]%elem_of_app; auto. }
      destruct pre' as [|? [|? [|? ?]]]; simplify_eq/=.
      * by rewrite Hev in Hl1.
      * split_and!; [done| | |by exists x].
        -- rewrite !elem_of_app. left. right. by apply Hres.
        -- intros i f Hf. rewrite !elem_of_app. left. right.
           by eapply Hsteps.
      * by rewrite Hev in Hl3.
      * match goal with H : [] = ?l ++ _ |- _ => by destruct l end.
Qed.

(** Where the preparation says what failed, it says so rightly: the failure
    of each call but the fourth comes back wrapped with the description of
    that call. *)
Lemma Build_prepare_labels (d : DistBuilder) (err : error) :
  let started := Event (Log (Logline InfoLevel None (log d)
                               "building distribution...")) () in
  let failed msg := Event (Log (Logline ErrorLevel (Some err) (log d) msg)) () in
  let mkdir elems answer :=
    Event (os_MkdirAll (join (DistBuildDir d :: elems)) perm_0755) answer in
  follows (Build_prepare join d)
    [started; Event (os_RemoveAll (DistBuildDir d)) (Some err);
     failed "failed to remove existing target dir"]
    (Ret (Some (errors_Wrap err "remove target dir")))
  ∧ follows (Build_prepare join d)
      [started; Event (os_RemoveAll (DistBuildDir d)) None;
       Event (os_MkdirAll (DistBuildDir d) perm_0755) (Some err);
       failed "failed to create target dir"]
      (Ret (Some (errors_Wrap err "create target dir")))
  ∧ follows (Build_prepare join d)
      [started; Event (os_RemoveAll (DistBuildDir d)) None;
       Event (os_MkdirAll (DistBuildDir d) perm_0755) None;
       mkdir ["bin"] (Some err); failed "failed to create bin dir"]
      (Ret (Some (errors_Wrap err "create bin dir")))
  ∧ follows (Build_prepare join d)
      [started; Event (os_RemoveAll (DistBuildDir d)) None;
       Event (os_MkdirAll (DistBuildDir d) perm_0755) None;
       mkdir ["bin"] None; mkdir ["runtimes"] None;
       mkdir ["runtimes"; "go"] (Some err);
       failed "failed to create runtimes/go dir"]
      (Ret (Some (errors_Wrap err "create runtimes/go dir")))
  ∧ follows (Build_prepare join d)
      [started; Event (os_RemoveAll (DistBuildDir d)) None;
       Event (os_MkdirAll (DistBuildDir d) perm_0755) None;
       mkdir ["bin"] None; mkdir ["runtimes"] None;
       mkdir ["runtimes"; "go"] None; mkdir ["runtimes"; "js"] (Some err);
       failed "failed to create runtimes/js dir"]
      (Ret (Some (errors_Wrap err "create runtimes/js dir"))).
Proof.
  cbn zeta. unfold Build_prepare. split_and!; repeat constructor.
Qed.

(** A failed preparation ends [Build] at once: no goroutine is started. *)
Lemma Build_prepare_fails_fast (d : DistBuilder) (sched : list tid) (w : W)
  (err : error) :
  out_value (exec h (Build_prepare join (with_logger d)) w) = Some (Some err) ->
  ∃ w' tr,
    Build join ChannelFor h d sched w = Some (w', tr, Some err)
    ∧ ∀ l, l ∈ tr -> ∃ ev, l = LCall TMain ev.
Proof.
  intros Hprep. unfold Build. rewrite Hprep. eexists _, _. split; [done|].
  intros l (ev & -> & _)%list_elem_of_fmap. by exists ev.
Qed.

(** C8, where the code departs from it: when the creation of the directory
    runtimes fails, after the calls before it have succeeded, the preparation
    logs that it failed to create the runtimes dir and returns the error
    wrapped as [create runtimes/go dir], the description of the next call.
    On the scripted world the two failures, of runtimes and of runtimes/go,
    come back from [Build] under that one description. *)
Theorem Build_prepare_runtimes_dir_label (d : DistBuilder) (err : error) :
  follows (Build_prepare join d)
    [Event (Log (Logline InfoLevel None (log d) "building distribution...")) ();
     Event (os_RemoveAll (DistBuildDir d)) None;
     Event (os_MkdirAll (DistBuildDir d) perm_0755) None;
     Event (os_MkdirAll (join [DistBuildDir d; "bin"]) perm_0755) None;
     Event (os_MkdirAll (join [DistBuildDir d; "runtimes"]) perm_0755)
       (Some err);
     Event (Log (Logline ErrorLevel (Some err) (log d)
                   "failed to create runtimes dir")) ()]
    (Ret (Some (errors_Wrap err "create runtimes/go dir")))
  ∧ snd <$> Build filepath_Join Stub.ChannelFor
              (Stub.handler Stub.runtimes_fails) (Stub.request "1.2.3") [] 0
    = Some (Some (errors_Wrap
                    (errors_New
                       "mkdir /dist/linux_amd64/runtimes: stubbed to fail")
                    "create runtimes/go dir"))
  ∧ snd <$> Build filepath_Join Stub.ChannelFor
              (Stub.handler Stub.runtimes_go_fails) (Stub.request "1.2.3") [] 0
    = Some (Some (errors_Wrap
                    (errors_New
                       "mkdir /dist/linux_amd64/runtimes/go: stubbed to fail")
                    "create runtimes/go dir")).
Proof.
  split_and!.
  - unfold Build_prepare. repeat constructor.
  - vm_compute. reflexivity.
  - vm_compute. reflexivity.
Qed.

End BuildProperties.

(** ** More on runParallel *)

Section RunParallelMore.

Context {W : Type} (h : Handler W).
Variable functions : list (prog (option error)).

(** X1: the mutex is held by one thread at a time: two goroutines are never both
    between [mu.Lock()] and [mu.Unlock()], a goroutine and the caller neither,
    and the mutex is held exactly when one of them is there. *)
Theorem runParallel_mutual_exclusion (w : W) (sched : list tid)
  (s : state W) :
  run h sched (entry functions w) = Some s ->
  (∀ i j gi gj, gs s !! i = Some gi -> gs s !! j = Some gj ->
     holds_mu gi = true -> holds_mu gj = true -> i = j)
  ∧ (∀ i g, gs s !! i = Some g -> holds_mu g = true ->
       main_holds_mu (main s) = false)
  ∧ (mu s = true ↔
     main_holds_mu (main s) = true
     ∨ ∃ i g, gs s !! i = Some g ∧ holds_mu g = true).
Proof.
  intros Hrun.
  destruct (inv_reachable h functions w s (run_steps _ _ _ _ Hrun))
    as (_ & Hmu & _).
  split_and!.
  - intros i j gi gj. by apply mutual_exclusion.
  - intros i g Hg Hholds. unfold inv_mu in Hmu.
    destruct (main_holds_mu (main s)); [|done].
    destruct (decide (count holds_mu (gs s) = 0)) as [Hz|Hnz].
    + by rewrite (count_zero _ _ Hz _ _ Hg) in Hholds.
    + destruct (mu s); lia.
  - unfold inv_mu in Hmu. split.
    + intros Hheld. rewrite Hheld in Hmu.
      destruct (main_holds_mu (main s)); [by left|right].
      apply count_pos. lia.
    + intros [Hmain|(i & g & Hg & Hholds)].
      * rewrite Hmain in Hmu. destruct (mu s); [done|lia].
      * destruct (mu s); [done|].
        assert (count holds_mu (gs s) = 0) as Hz by lia.
        by rewrite (count_zero _ _ Hz _ _ Hg) in Hholds.
Qed.

(** X2: the counter of the wait group never goes below zero, so [wg.Done()] never
    panics; once [wg.Add] has run it is the number of functions less the
    goroutines that have exited; and when [runParallel] has returned the
    counter is zero and the mutex is free. *)
Theorem runParallel_waitgroup (w : W) (sched : list tid) (s : state W) :
  run h sched (entry functions w) = Some s ->
  (0 ≤ wg s)%Z
  ∧ (added (main s) = true ->
     wg s = (Z.of_nat (length functions)
             - Z.of_nat (count is_exited (gs s)))%Z)
  ∧ (∀ err, main s = MReturned err -> wg s = 0%Z ∧ mu s = false).
Proof.
  intros Hrun.
  destruct (inv_reachable h functions w s (run_steps _ _ _ _ Hrun))
    as (((started & Hfs & Hlen) & Hnone & Hwg & Hjoin) & Hmu & _).
  pose proof (count_le_length is_exited (gs s)) as Hle.
  assert (length started ≤ length functions) as Hstarted.
  { rewrite Hfs, length_app. lia. }
  split_and!.
  - destruct (added (main s)); [lia|]. rewrite Hnone in Hwg by done.
    simpl in Hwg. lia.
  - intros Hadded. by rewrite Hadded in Hwg.
  - intros err Hmain. rewrite Hmain in *. simpl in *.
    rewrite app_nil_r in Hfs. subst started.
    specialize (Hjoin eq_refl). split; [lia|].
    unfold inv_mu in Hmu. rewrite Hmain in Hmu. simpl in Hmu.
    rewrite (count_none holds_mu) in Hmu.
    + by destruct (mu s).
    + intros i g Hg. pose proof (count_full _ _ Hjoin _ _ Hg). by destruct g.
Qed.

(** X3: no run of [runParallel] goes on for ever, whatever the functions, the
    world and the scheduler; and when no call blocks there is no deadlock:
    as long as the caller has not returned some thread can act. *)
Theorem runParallel_terminates (w : W) :
  (∀ states : nat -> state W,
     ¬ ∀ n, sched_step h (states n) (states (S n)))
  ∧ (always_signalled h ->
     ∀ sched s, run h sched (entry functions w) = Some s ->
       (∃ err, main s = MReturned err) ∨ ∃ t s', step h t s = Some s').
Proof.
  split.
  - intros states Hsteps.
    assert (∀ s, Acc (flip (sched_step h)) s -> ∀ n, states n ≠ s) as Hacc.
    { induction 1 as [s _ IH]. intros n <-.
      apply (IH (states (S n)) (Hsteps n) (S n)). done. }
    by apply (Hacc (states 0) (sched_step_wf h _) 0).
  - intros Hsig sched s Hrun.
    destruct (progress h functions s Hsig
                (inv_reachable h functions w s (run_steps _ _ _ _ Hrun)))
      as [?|[s' [t Hstep]]]; [by left|right; eauto].
Qed.

(** X4: when one function only has returned an error, [runParallel] returns that
    error, whatever the schedule. *)
Theorem runParallel_single_failure (w : W) (sched : list tid) (s : state W)
  (err : option error) (i : nat) (e : error) :
  run h sched (entry functions w) = Some s ->
  main s = MReturned err ->
  LReturn i (Some e) ∈ trace s ->
  (∀ j e', LReturn j (Some e') ∈ trace s -> j = i) ->
  err = Some e.
Proof.
  intros Hrun Hmain Hi Honly.
  pose proof (run_steps _ _ _ _ Hrun) as Hreach.
  destruct (first_error_returned h functions w s err Hreach Hmain)
    as (i0 & err0 & ds & f0 & -> & Hrec & _); [by eauto|].
  destruct (inv_reachable h functions w s Hreach)
    as (_ & _ & (_ & Hfirst & Hret) & (_ & Hreturned & _) & (Hlog & _) & _).
  rewrite <- (Hret _ Hmain) in Hfirst.
  destruct Hfirst as (i1 & ds1 & Hrec1 & _ & g0 & Hg0 & _ & Hr0).
  pose proof (Hreturned _ _ _ Hg0 Hr0) as Hi1.
  pose proof (Honly _ _ Hi1) as ->.
  destruct (Hlog _ _ Hi) as (g & Hg & Hr). by simplify_eq.
Qed.

End RunParallelMore.

(** ** Blocking *)

Section Blocking.

Context {W : Type} (h : Handler W).

Lemma ready_not_recv {X : Type} (c : call X) (x : X) (w : W) :
  is_recv (Event c x) = false -> ready h c w = true.
Proof. by destruct c. Qed.

Lemma exec_from_never_blocks {A : Type} (p : prog A) (w : W)
  (tr : list event) :
  never_calls is_recv p -> is_Some (out_value (exec_from h p w tr)).
Proof.
  revert w tr. induction p as [a|X c k IH]; intros w tr Hnever; simpl.
  - by eexists.
  - destruct (answer h c w) as [w' x] eqn:Hanswer.
    destruct (Hnever x) as [Hx Hk].
    rewrite (ready_not_recv c x w Hx). by apply IH.
Qed.

Lemma follows_must_call {A : Type} (P : event -> bool) (f : prog A)
  (evs : list event) (r : A) :
  must_call P f -> follows f evs (Ret r) -> ∃ ev, ev ∈ evs ∧ P ev = true.
Proof.
  intros Hmust Hfollows. remember (Ret r) as q eqn:Hq.
  induction Hfollows as [p|X c k x evs q _ IH]; subst.
  - done.
  - destruct (Hmust x) as [Hx|Hk].
    + exists (Event c x). split; [left|done].
    + destruct (IH Hk eq_refl) as (ev & Hev & HP).
      exists ev. split; [by right|done].
Qed.

Lemma calls_of_elem_of (i : nat) (tr : list label) (ev : event) :
  ev ∈ calls_of i tr -> LCall (TGo i) ev ∈ tr.
Proof.
  intros (l & Hl & Hev)%list_elem_of_omap.
  destruct l as [[|j] ev'| | | | | | |]; simplify_eq/=.
  case_bool_decide; by simplify_eq.
Qed.

(** While the channel cannot be received from, no receive is in the trace. *)
Lemma never_signalled_no_recv (functions : list (prog (option error)))
  (w : W) (s : state W) :
  never_signalled h -> reachable h functions w s ->
  ∀ t ev, LCall t ev ∈ trace s -> is_recv ev = false.
Proof.
  intros Hnever. unfold reachable. revert s.
  apply (rtc_ind_r (fun s => ∀ t ev, LCall t ev ∈ trace s ->
                             is_recv ev = false)).
  - intros t ev Hev. by apply elem_of_nil in Hev.
  - intros s s' _ [[|i] Hstep] IH t ev.
    + main_inv Hstep; intros Hev; try (by eapply IH).
      all: apply elem_of_snoc in Hev as [Hev|?]; [by eapply IH|done].
    + go_inv Hstep; intros Hev; try (by eapply IH).
      all: apply elem_of_snoc in Hev as [Hev|Hev]; [by eapply IH|]; try done.
      injection Hev as -> ->.
      match goal with Hr : ready h ?c _ = true |- _ =>
        destruct c; try done; simpl in Hr; by rewrite Hnever in Hr end.
Qed.

(** A function that must receive keeps the caller at [wg.Wait()]. *)
Lemma blocked_function_never_joined
  (functions : list (prog (option error))) (i : nat)
  (f : prog (option error)) (w : W) (sched : list tid) :
  never_signalled h ->
  functions !! i = Some f ->
  must_call is_recv f ->
  (∀ s, run h sched (entry functions w) = Some s -> joined (main s) = false)
  ∧ runParallel h functions sched w = None.
Proof.
  intros Hnever Hf Hmust.
  assert (∀ s, run h sched (entry functions w) = Some s ->
               joined (main s) = false) as Hwait.
  { intros s Hrun. destruct (joined (main s)) eqn:Hjoined; [|done].
    pose proof (run_steps _ _ _ _ Hrun) as Hreach.
    destruct (joined_all_exited h functions w s Hreach Hjoined) as [_ Hall].
    destruct (Hall i f Hf) as (r & _ & _ & Hfollows).
    destruct (follows_must_call _ _ _ _ Hmust Hfollows) as (ev & Hev & Hrecv).
    apply calls_of_elem_of in Hev.
    by rewrite (never_signalled_no_recv _ _ _ Hnever Hreach _ _ Hev) in Hrecv. }
  split; [done|]. unfold runParallel.
  destruct (run h sched (entry functions w)) as [s|] eqn:Hrun; [|done].
  simpl. specialize (Hwait s eq_refl). by destruct (main s).
Qed.

(** X5: the join has no timeout: while the packager's channel cannot be received
    from, a function that receives from it before it returns keeps the caller
    of [runParallel] at [wg.Wait()] for good, under every schedule. *)
Theorem runParallel_waits_for_blocked
  (functions : list (prog (option error))) (i : nat)
  (f : prog (option error)) (w : W) (sched : list tid) :
  never_signalled h ->
  functions !! i = Some f ->
  must_call is_recv f ->
  (∀ s, run h sched (entry functions w) = Some s -> joined (main s) = false)
  ∧ runParallel h functions sched w = None.
Proof. apply blocked_function_never_joined. Qed.

End Blocking.

Section BuildBlocking.

Context {W : Type} (h : Handler W).
Variable join : list string -> string.
Variable ChannelFor : string -> ReleaseChannel.

Lemma independent_steps_never_recv (d : DistBuilder)
  (f : prog (option error)) :
  f ∈ independent_steps join ChannelFor d -> never_calls is_recv f.
Proof.
  unfold independent_steps. intros Hf.
  repeat (apply elem_of_cons in Hf as [->|Hf]); [..|by apply elem_of_nil in Hf].
  - unfold buildEncoreCLI. never_calls.
  - unfold buildTSBundler. never_calls.
  - unfold buildGitHook. never_calls.
  - unfold buildTSParser. never_calls.
  - unfold buildNodePlugin, compiledBinaryName_of. never_calls.
  - unfold copyEncoreRuntimeForGo. never_calls.
  - unfold downloadEncoreGo. never_calls.
Qed.

(** X6: of the build steps only [copyEncoreRuntimeForJS] waits: each of the other
    seven, run on its own, returns, whatever the world answers and whether
    the packager has signalled or not; [copyEncoreRuntimeForJS] returns
    exactly when the packager has signalled by the time of its receive. *)
Theorem independent_steps_return (d : DistBuilder) (w : W) :
  (∀ f, f ∈ independent_steps join ChannelFor d ->
        is_Some (out_value (exec h f w)))
  ∧ (is_Some (out_value (exec h (copyEncoreRuntimeForJS join d) w))
     ↔ signalled h
         (answer h (Log (Logline InfoLevel None (log d)
                           "waiting for JS packager to complete...")) w).1
       = true).
Proof.
  split.
  - intros f Hf. apply exec_from_never_blocks.
    by eapply independent_steps_never_recv.
  - unfold exec, copyEncoreRuntimeForJS. simpl.
    destruct (answer h (Log _) w) as [w1 []]. simpl.
    destruct (signalled h w1).
    + split; [done|intros _]. repeat exec_step; by eexists.
    + split; [by intros [? ?]|done].
Qed.

Lemma Build_prepare_never_recv (d : DistBuilder) :
  never_calls is_recv (Build_prepare join d).
Proof. unfold Build_prepare. never_calls. Qed.

Lemma Build_finish_never_recv (d : DistBuilder) (err : option error) :
  never_calls is_recv (Build_finish d err).
Proof. unfold Build_finish. never_calls. Qed.

(** X7: when the packager's channel can be received from, [Build] returns: the
    concurrent phase can be scheduled to its end, and however far it has been
    scheduled it can be carried on to its end. *)
Theorem Build_returns (d : DistBuilder) (w : W) :
  always_signalled h ->
  (∃ sched result, Build join ChannelFor h d sched w = Some result)
  ∧ ∀ sched s,
      run h sched
        (entry (Build_steps join ChannelFor (with_logger d))
           (out_world (exec h (Build_prepare join (with_logger d)) w)))
      = Some s ->
      ∃ sched' result,
        Build join ChannelFor h d (sched ++ sched') w = Some result.
Proof.
  intros Hsig.
  assert (∀ sched s,
      run h sched
        (entry (Build_steps join ChannelFor (with_logger d))
           (out_world (exec h (Build_prepare join (with_logger d)) w)))
      = Some s ->
      ∃ sched' result,
        Build join ChannelFor h d (sched ++ sched') w = Some result) as Hany.
  { intros sched s Hrun. unfold Build.
    destruct (exec_from_never_blocks h (Build_prepare join (with_logger d)) w []
                (Build_prepare_never_recv _)) as [v Hv].
    unfold exec. rewrite Hv. destruct v as [err|].
    { exists []. by eexists. }
    destruct (run_completes h _ _ _ _ Hsig Hrun)
      as (sched' & w2 & tr2 & err & Hpar).
    exists sched'. unfold exec in Hpar. rewrite Hpar. simpl.
    destruct (exec_from_never_blocks h (Build_finish (with_logger d) err) w2 []
                (Build_finish_never_recv _ _)) as [r Hr].
    rewrite Hr. simpl. by eexists. }
  split; [|done].
  destruct (Hany [] _ eq_refl) as (sched' & result & HBuild). eauto.
Qed.

Lemma copyEncoreRuntimeForJS_must_recv (d : DistBuilder) :
  must_call is_recv (copyEncoreRuntimeForJS join d).
Proof. unfold copyEncoreRuntimeForJS. simpl. intros []. right. by left. Qed.

(** X8: while the packager's channel cannot be received from, [Build] returns
    under no schedule unless the preparation of the directories has failed:
    the wait is without timeout and nothing cancels it. *)
Theorem Build_waits_for_packager (d : DistBuilder) (sched : list tid)
  (w w' : W) (tr : list label) (r : option error) :
  never_signalled h ->
  Build join ChannelFor h d sched w = Some (w', tr, r) ->
  ∃ err, r = Some err
         ∧ out_value (exec h (Build_prepare join (with_logger d)) w)
           = Some (Some err)
         ∧ ∀ l, l ∈ tr -> ∃ ev, l = LCall TMain ev.
Proof.
  intros Hnever. unfold Build.
  destruct (out_value (exec h (Build_prepare join (with_logger d)) w))
    as [[err|]|]; [| |done].
  - intros ?. simplify_eq. exists err. split_and!; try done.
    intros l (ev & -> & _)%list_elem_of_fmap. by exists ev.
  - destruct (blocked_function_never_joined h
                (Build_steps join ChannelFor (with_logger d)) 6
                (copyEncoreRuntimeForJS join (with_logger d))
                (out_world (exec h (Build_prepare join (with_logger d)) w))
                sched Hnever eq_refl (copyEncoreRuntimeForJS_must_recv _))
      as [_ ->].
    done.
Qed.

End BuildBlocking.

(** ** Failures and their causes *)

Section Paths.

Lemma follows_always_fails (f : prog (option error)) (evs : list event)
  (r : option error) :
  always_fails f -> follows f evs (Ret r) -> r ≠ None.
Proof.
  intros Hfails Hfollows. remember (Ret r) as q eqn:Hq.
  induction Hfollows as [p|X c k x evs q _ IH]; subst; [done|].
  apply IH; [apply Hfails|done].
Qed.

Lemma follows_propagates (f : prog (option error)) (evs : list event)
  (r : option error) (ev : event) :
  propagates f -> follows f evs (Ret r) ->
  ev ∈ evs -> reports_failure ev = true -> r ≠ None.
Proof.
  intros Hprop Hfollows. remember (Ret r) as q eqn:Hq.
  induction Hfollows as [p|X c k x evs q Hfollows IH]; subst.
  - intros Hev. by apply elem_of_nil in Hev.
  - destruct (Hprop x) as [Hfails Hk].
    intros [->|Hev]%elem_of_cons Hbad.
    + by eapply follows_always_fails; [apply Hfails|].
    + by apply IH.
Qed.

Lemma follows_fails_only_after_failure (f : prog (option error))
  (evs : list event) (err : error) :
  fails_only_after_failure f -> follows f evs (Ret (Some err)) ->
  ∃ ev, ev ∈ evs ∧ reports_failure ev = true.
Proof.
  intros Honly Hfollows. remember (Ret (Some err)) as q eqn:Hq.
  induction Hfollows as [p|X c k x evs q Hfollows IH]; subst; [done|].
  destruct (reports_failure (Event c x)) eqn:Hbad.
  - exists (Event c x). split; [left|done].
  - destruct (IH (Honly x Hbad) eq_refl) as (ev & Hev & Hev').
    exists ev. split; [by right|done].
Qed.

Lemma follows_keeps_cause (seen made : list error)
  (f : prog (option error)) (evs : list event) (err : error) :
  keeps_cause seen made f -> follows f evs (Ret (Some err)) ->
  ∃ err0, root_cause err = root_cause err0
          ∧ (err0 ∈ seen ∨ err0 ∈ made
             ∨ ∃ ev, ev ∈ evs ∧ answered_error ev = Some err0).
Proof.
  intros Hkeeps Hfollows. remember (Ret (Some err)) as q eqn:Hq.
  revert seen Hkeeps.
  induction Hfollows as [p|X c k x evs q Hfollows IH]; subst;
    intros seen Hkeeps.
  - destruct Hkeeps as (err0 & ? & ?). exists err0. tauto.
  - destruct (IH eq_refl _ (Hkeeps x)) as (err0 & Hroot & Hwhere).
    exists err0. split; [done|].
    destruct Hwhere as [[?|Hnew]%elem_of_app|[?|(ev & ? & ?)]]; auto.
    + right. right. exists (Event c x). split; [left|].
      destruct (answered_error (Event c x)); simpl in Hnew;
        [by apply list_elem_of_singleton in Hnew; subst
        |by apply elem_of_nil in Hnew].
    + right. right. exists ev. split; [by right|done].
Qed.

End Paths.

Section SequentialPaths.

Context {W : Type} (h : Handler W).

(** A sequential run that returns has followed the program. *)
Lemma exec_from_follows {A : Type} (p : prog A) (w : W) (tr : list event)
  (a : A) :
  out_value (exec_from h p w tr) = Some a ->
  ∃ evs, out_trace (exec_from h p w tr) = tr ++ evs ∧ follows p evs (Ret a).
Proof.
  revert w tr. induction p as [b|X c k IH]; intros w tr; simpl.
  - intros [= ->]. exists []. split; [by rewrite app_nil_r|constructor].
  - destruct (ready h c w); [|done].
    destruct (answer h c w) as [w' x]. intros Hv.
    destruct (IH x w' _ Hv) as (evs & Htr & Hfol).
    exists (Event c x :: evs). split; [by rewrite Htr, <- app_assoc|].
    by constructor.
Qed.

End SequentialPaths.

(** Membership in a list given in full. *)
Ltac in_list :=
  repeat first [apply list_elem_of_here | apply list_elem_of_further].

(** Walks through the calls and the tests of a build step. *)
Ltac paths :=
  repeat (simpl in *; intros;
          match goal with
          | |- _ ∧ _ => split
          | |- True => exact I
          | |- Some _ ≠ None => discriminate
          | |- None = None => reflexivity
          | H : false = true |- _ => discriminate H
          | H : true = false |- _ => discriminate H
          | H : context [reports_failure _] |- _ =>
              cbv [reports_failure answered_error flag_set] in H
          | |- context [reports_failure _] =>
              cbv [reports_failure answered_error flag_set]
          | x : option error |- _ => destruct x
          | x : (string * option error)%type |- _ => destruct x
          | x : bool |- _ => destruct x
          | x : unit |- _ => destruct x
          | |- context [match ?x with _ => _ end] => destruct x eqn:?
          | |- ∃ err0, _ = root_cause err0 ∧ _ =>
              first [ eexists; split; [reflexivity|]; left; solve [in_list]
                    | eexists (errors_New _); split; [reflexivity|];
                      right; solve [in_list] ]
          end).

Section StepFailures.

Variable join : list string -> string.
Variable ChannelFor : string -> ReleaseChannel.

Lemma Build_steps_propagate (d : DistBuilder) (i : nat)
  (f : prog (option error)) :
  Build_steps join ChannelFor d !! i = Some f -> propagates f.
Proof.
  unfold Build_steps. intros Hf.
  repeat (destruct i as [|i]; simplify_eq/=).
  - unfold buildEncoreCLI. destruct (ChannelFor (Version d)); paths.
  - unfold buildTSBundler. paths.
  - unfold buildGitHook. paths.
  - unfold buildTSParser. paths.
  - unfold buildNodePlugin, compiledBinaryName_of. paths.
  - unfold copyEncoreRuntimeForGo. paths.
  - unfold copyEncoreRuntimeForJS. paths.
  - unfold downloadEncoreGo. paths.
Qed.

Lemma Build_steps_keep_cause (d : DistBuilder) (i : nat)
  (f : prog (option error)) :
  Build_steps join ChannelFor d !! i = Some f ->
  keeps_cause [] (made_errors d) f.
Proof.
  unfold Build_steps, made_errors. intros Hf.
  repeat (destruct i as [|i]; simplify_eq/=).
  - unfold buildEncoreCLI. destruct (ChannelFor (Version d)); paths.
  - unfold buildTSBundler. paths.
  - unfold buildGitHook. paths.
  - unfold buildTSParser. paths.
  - unfold buildNodePlugin. destruct (recognised_OS (OS d)) eqn:Hos.
    + destruct (compiledBinaryName_of_recognised _ Hos) as [name ->]. paths.
    + rewrite (compiledBinaryName_of_unknown _ Hos). paths.
  - unfold copyEncoreRuntimeForGo. paths.
  - unfold copyEncoreRuntimeForJS. paths.
  - unfold downloadEncoreGo. paths.
Qed.

Lemma Build_steps_fail_only_after_failure (d : DistBuilder) (i : nat)
  (f : prog (option error)) :
  (∀ name, ChannelFor (Version d) ≠ OtherChannel name) ->
  recognised_OS (OS d) = true ->
  Build_steps join ChannelFor d !! i = Some f ->
  fails_only_after_failure f.
Proof.
  unfold Build_steps. intros Hchannel Hos Hf.
  repeat (destruct i as [|i]; simplify_eq/=).
  - unfold buildEncoreCLI.
    destruct (ChannelFor (Version d)) eqn:Hc; [..|by destruct (Hchannel name)];
      paths.
  - unfold buildTSBundler. paths.
  - unfold buildGitHook. paths.
  - unfold buildTSParser. paths.
  - unfold buildNodePlugin.
    destruct (compiledBinaryName_of_recognised _ Hos) as [name ->]. paths.
  - unfold copyEncoreRuntimeForGo. paths.
  - unfold copyEncoreRuntimeForJS. paths.
  - unfold downloadEncoreGo. paths.
Qed.

Lemma Build_prepare_propagates (d : DistBuilder) :
  propagates (Build_prepare join d).
Proof. unfold Build_prepare. paths. Qed.

Lemma Build_prepare_keeps_cause (d : DistBuilder) :
  keeps_cause [] [] (Build_prepare join d).
Proof. unfold Build_prepare. paths. Qed.

Lemma Build_prepare_fails_only_after_failure (d : DistBuilder) :
  fails_only_after_failure (Build_prepare join d).
Proof. unfold Build_prepare. paths. Qed.

End StepFailures.

Section BuildFailures.

Context {W : Type} (h : Handler W).
Variable join : list string -> string.
Variable ChannelFor : string -> ReleaseChannel.

(** The three stretches of a run of [Build]. *)
Lemma Build_inv (d : DistBuilder) (sched : list tid) (w w' : W)
  (tr : list label) (r : option error) :
  Build join ChannelFor h d sched w = Some (w', tr, r) ->
  let o1 := exec h (Build_prepare join (with_logger d)) w in
  (∃ err, out_value o1 = Some (Some err) ∧ r = Some err
          ∧ tr = main_calls (out_trace o1)
          ∧ follows (Build_prepare join (with_logger d)) (out_trace o1)
              (Ret (Some err)))
  ∨ (out_value o1 = Some None
     ∧ follows (Build_prepare join (with_logger d)) (out_trace o1) (Ret None)
     ∧ ∃ s err t3,
         reachable h (Build_steps join ChannelFor (with_logger d))
           (out_world o1) s
         ∧ main s = MReturned err
         ∧ follows (Build_finish (with_logger d) err) t3 (Ret r)
         ∧ tr = main_calls (out_trace o1) ++ trace s ++ main_calls t3).
Proof.
  intros HBuild. cbv zeta. unfold Build in HBuild.
  destruct (out_value (exec h (Build_prepare join (with_logger d)) w))
    as [v|] eqn:Hv; [|done].
  destruct (exec_from_follows h _ _ _ _ Hv) as (t1 & Ht1 & Hfol1).
  simpl in Ht1. fold (exec h (Build_prepare join (with_logger d)) w) in Ht1.
  rewrite <- Ht1 in Hfol1.
  destruct v as [err|].
  - left. exists err. by simplify_eq.
  - right. split_and!; try done.
    destruct (runParallel h _ sched _) as [[[w2 tr2] err]|] eqn:Hpar;
      [|done].
    simpl in HBuild.
    destruct (runParallel_reachable h _ _ _ _ _ _ Hpar)
      as (s & Hreach & Hmain & <- & <-).
    destruct (out_value (exec h (Build_finish (with_logger d) err) (world s)))
      as [r'|] eqn:Hr; [|done].
    simpl in HBuild. simplify_eq.
    destruct (exec_from_follows h _ _ _ _ Hr) as (t3 & Ht3 & Hfol3).
    exists s, err, t3. split_and!; try done.
    unfold exec. by rewrite Ht3.
Qed.

(** An error returned by [runParallel] is one a function returned. *)
Lemma returned_error_is_a_return (functions : list (prog (option error)))
  (w : W) (s : state W) (err : error) :
  reachable h functions w s -> main s = MReturned (Some err) ->
  ∃ i f, functions !! i = Some f
         ∧ follows f (calls_of i (trace s)) (Ret (Some err)).
Proof.
  intros Hreach Hmain.
  destruct (inv_reachable h functions w s Hreach)
    as (_ & _ & (_ & Hfirst & Hret) & (_ & Hreturned & _) & _).
  rewrite <- (Hret _ Hmain) in Hfirst.
  destruct Hfirst as (i0 & ds & _ & _ & g0 & Hg0 & _ & Hr0).
  destruct (first_error_returned h functions w s _ Hreach Hmain)
    as (i1 & err1 & ds1 & f1 & Heq & _ & _ & Hf1 & Hfol1 & _).
  { exists i0, err. by eapply Hreturned. }
  exists i1, f1. by simplify_eq.
Qed.

(** A failure reported to a goroutine makes [runParallel] return an error,
    when the functions propagate the failures reported to them. *)
Lemma reported_failure_returned (functions : list (prog (option error)))
  (w : W) (s : state W) (err : option error) (t : tid) (ev : event) :
  (∀ i f, functions !! i = Some f -> propagates f) ->
  reachable h functions w s -> main s = MReturned err ->
  LCall t ev ∈ trace s -> reports_failure ev = true ->
  err ≠ None.
Proof.
  intros Hprop Hreach Hmain Hev Hbad.
  destruct (inv_reachable h functions w s Hreach)
    as (_ & _ & _ & (_ & _ & Hcalls & _) & _).
  destruct (Hcalls _ _ Hev) as (i & -> & Hi).
  destruct (joined_all_exited h functions w s Hreach) as [Hlen Hall];
    [by rewrite Hmain|].
  destruct (lookup_lt_is_Some_2 functions i) as [f Hf]; [by rewrite <- Hlen|].
  destruct (Hall i f Hf) as (r & _ & Hr & Hfol).
  assert (r ≠ None) as Hfailed.
  { eapply follows_propagates; [by eapply Hprop|done| |done].
    by apply elem_of_calls_of. }
  destruct r as [e|]; [|done].
  destruct (first_error_returned h functions w s _ Hreach Hmain)
    as (? & ? & ? & ? & -> & _); [by eauto|done].
Qed.

Lemma Build_finish_propagates (d : DistBuilder) (err : option error) :
  propagates (Build_finish d err).
Proof. unfold Build_finish. paths. Qed.

Lemma Build_finish_fails (d : DistBuilder) (err : error) :
  always_fails (Build_finish d (Some err)).
Proof. unfold Build_finish. paths. Qed.

Lemma Build_finish_fails_only_after_failure (d : DistBuilder) :
  fails_only_after_failure (Build_finish d None).
Proof. unfold Build_finish. paths. Qed.

Lemma Build_finish_keeps_cause (d : DistBuilder) (err : option error) :
  keeps_cause (option_list err) [] (Build_finish d err).
Proof. unfold Build_finish. paths. Qed.

Lemma elem_of_main_calls (ev : event) (evs : list event) :
  ev ∈ evs -> LCall TMain ev ∈ main_calls evs.
Proof. intros Hev. by apply list_elem_of_fmap_2. Qed.

Lemma main_calls_elem_of (t : tid) (ev : event) (evs : list event) :
  LCall t ev ∈ main_calls evs -> ev ∈ evs.
Proof. intros (ev' & ? & ?)%list_elem_of_fmap. by simplify_eq. Qed.

(** X9: no failure is swallowed: when a call made in a run of [Build], by the
    caller or by any build step, has come back with an error, or the
    packager's failure flag has been found set, [Build] returns an error. *)
Theorem Build_no_failure_swallowed (d : DistBuilder) (sched : list tid)
  (w w' : W) (tr : list label) (r : option error) (t : tid) (ev : event) :
  Build join ChannelFor h d sched w = Some (w', tr, r) ->
  LCall t ev ∈ tr -> reports_failure ev = true ->
  r ≠ None.
Proof.
  intros HBuild Hev Hbad.
  destruct (Build_inv _ _ _ _ _ _ HBuild)
    as [(err & _ & -> & _)
       |(_ & Hfol1 & s & err & t3 & Hreach & Hmain & Hfol3 & ->)]; [done|].
  apply elem_of_app in Hev as [Hev|[Hev|Hev]%elem_of_app].
  - apply main_calls_elem_of in Hev.
    by destruct (follows_propagates _ _ _ _ (Build_prepare_propagates join _)
                   Hfol1 Hev Hbad).
  - assert (err ≠ None) as Herr.
    { eapply (reported_failure_returned _ _ s); try done.
      apply Build_steps_propagate. }
    destruct err as [err|]; [|done].
    eapply follows_always_fails; [apply Build_finish_fails|done].
  - apply main_calls_elem_of in Hev.
    by eapply follows_propagates; [apply Build_finish_propagates|..].
Qed.

(** X10: [Build] fails for a reason: for a version of a recognised channel and a
    target OS the native plugin knows, when [Build] returns an error some call
    made in the run has come back with an error or has found the packager's
    failure flag set. *)
Theorem Build_fails_only_after_failure (d : DistBuilder) (sched : list tid)
  (w w' : W) (tr : list label) (err : error) :
  (∀ name, ChannelFor (Version d) ≠ OtherChannel name) ->
  recognised_OS (OS d) = true ->
  Build join ChannelFor h d sched w = Some (w', tr, Some err) ->
  ∃ t ev, LCall t ev ∈ tr ∧ reports_failure ev = true.
Proof.
  intros Hchannel Hos HBuild.
  destruct (Build_inv _ _ _ _ _ _ HBuild)
    as [(err1 & _ & _ & -> & Hfol1)
       |(_ & _ & s & err2 & t3 & Hreach & Hmain & Hfol3 & ->)].
  - destruct (follows_fails_only_after_failure _ _ _
                (Build_prepare_fails_only_after_failure join _) Hfol1)
      as (ev & Hev & Hbad).
    exists TMain, ev. split; [by apply elem_of_main_calls|done].
  - destruct err2 as [err2|].
    + destruct (returned_error_is_a_return _ _ _ _ Hreach Hmain)
        as (i & f & Hf & Hfol).
      assert (fails_only_after_failure f) as Honly.
      { by eapply (Build_steps_fail_only_after_failure join ChannelFor
                     (with_logger d)). }
      destruct (follows_fails_only_after_failure f _ _ Honly Hfol)
        as (ev & Hev & Hbad).
      exists (TGo i), ev. split; [|done].
      rewrite !elem_of_app. right. left. by apply calls_of_elem_of.
    + destruct (follows_fails_only_after_failure _ _ _
                  (Build_finish_fails_only_after_failure _) Hfol3)
        as (ev & Hev & Hbad).
      exists TMain, ev. split; [|done].
      rewrite !elem_of_app. right. right. by apply elem_of_main_calls.
Qed.

(** X11: the cause is kept: the root cause of an error [Build] returns, under
    however many wraps, is the root cause of an error some call of the run
    came back with, or one of the three errors the builder makes itself:
    unknown version channel, unknown OS, js build failed. *)
Theorem Build_error_keeps_cause (d : DistBuilder) (sched : list tid)
  (w w' : W) (tr : list label) (err : error) :
  Build join ChannelFor h d sched w = Some (w', tr, Some err) ->
  ∃ err0, root_cause err = root_cause err0
          ∧ (err0 ∈ made_errors d
             ∨ ∃ t ev, LCall t ev ∈ tr ∧ answered_error ev = Some err0).
Proof.
  intros HBuild.
  destruct (Build_inv _ _ _ _ _ _ HBuild)
    as [(err1 & _ & Heq & -> & Hfol1)
       |(_ & _ & s & err2 & t3 & Hreach & Hmain & Hfol3 & ->)].
  - injection Heq as <-.
    destruct (follows_keeps_cause _ _ _ _ _
                (Build_prepare_keeps_cause join _) Hfol1)
      as (err0 & Hroot & [Hin|[Hin|(ev & Hev & Hans)]]);
      [by apply elem_of_nil in Hin..|].
    exists err0. split; [done|right].
    exists TMain, ev. split; [by apply elem_of_main_calls|done].
  - destruct (follows_keeps_cause _ _ _ _ _
                (Build_finish_keeps_cause _ err2) Hfol3)
      as (err0 & Hroot & [Hin|[Hin|(ev & Hev & Hans)]]);
      [|by apply elem_of_nil in Hin|].
    + destruct err2 as [err2|]; simpl in Hin;
        [|by apply elem_of_nil in Hin].
      apply list_elem_of_singleton in Hin as ->.
      destruct (returned_error_is_a_return _ _ _ _ Hreach Hmain)
        as (i & f & Hf & Hfol).
      destruct (follows_keeps_cause _ _ _ _ _
                  (Build_steps_keep_cause join ChannelFor _ _ _ Hf) Hfol)
        as (err0 & Hroot0 & [Hin|[Hin|(ev & Hev & Hans)]]);
        [by apply elem_of_nil in Hin| |].
      * exists err0. split; [congruence|by left].
      * exists err0. split; [congruence|right].
        exists (TGo i), ev. split; [|done].
        rewrite !elem_of_app. right. left. by apply calls_of_elem_of.
    + exists err0. split; [done|right].
      exists TMain, ev. split; [|done].
      rewrite !elem_of_app. right. right. by apply elem_of_main_calls.
Qed.

End BuildFailures.

(** ** The preparation of the target directory *)

Section Preparation.

Context {W : Type} (h : Handler W).
Variable join : list string -> string.
Variable ChannelFor : string -> ReleaseChannel.

Lemma prepare_in_order (d : DistBuilder) (w : W) :
  let o := exec h (Build_prepare join d) w in
  let answers := map answered_error (externals (out_trace o)) in
  externals (out_trace o)
  = zip_with (fun c x => Event c x) (prepare_calls join d) answers
  ∧ (∀ k err, answers !! k = Some (Some err) ->
       S k = length answers
       ∧ ∃ msg, out_value o = Some (Some (errors_Wrap err msg)))
  ∧ (out_value o = Some None ↔ answers = replicate 6 None).
Proof.
  unfold Build_prepare. exec_all.
  all: split_and!; [reflexivity| |split; intros; by simplify_eq].
  all: intros k err' Hk; repeat (destruct k as [|k]; simplify_eq/=); eauto.
Qed.

(** X12: the preparation is strictly ordered and stops at the first failure: its
    calls to the file system are a first stretch of [os.RemoveAll] of the
    target directory followed by [os.MkdirAll] of the target directory, bin,
    runtimes, runtimes/go and runtimes/js, in that order; only the last call
    made can have failed, and its error is then returned under a wrap; the
    preparation falls through to the build steps exactly when all six calls
    were made and succeeded. *)
Theorem Build_prepare_in_order (d : DistBuilder) (w : W) :
  let o := exec h (Build_prepare join d) w in
  let answers := map answered_error (externals (out_trace o)) in
  externals (out_trace o)
  = zip_with (fun c x => Event c x) (prepare_calls join d) answers
  ∧ (∀ k err, answers !! k = Some (Some err) ->
       S k = length answers
       ∧ ∃ msg, out_value o = Some (Some (errors_Wrap err msg)))
  ∧ (out_value o = Some None ↔ answers = replicate 6 None).
Proof. apply prepare_in_order. Qed.

(** X13: nothing concurrent happens before the directories are there: in a run
    of [Build], whatever is not a call of the caller itself (the start of a
    goroutine, a call or a return of a build step, the join) comes after the
    whole preparation, and all six calls of the preparation have then
    succeeded. *)
Theorem Build_starts_after_preparation (d : DistBuilder) (sched : list tid)
  (w w' : W) (tr : list label) (r : option error) (pre post : list label)
  (l : label) :
  Build join ChannelFor h d sched w = Some (w', tr, r) ->
  tr = pre ++ l :: post ->
  by_caller l = false ->
  let o := exec h (Build_prepare join (with_logger d)) w in
  (∃ rest, pre = main_calls (out_trace o) ++ rest)
  ∧ map answered_error (externals (out_trace o)) = replicate 6 None.
Proof.
  intros HBuild Htr Hl. cbv zeta.
  assert (∀ l', l' ∈ main_calls
                        (out_trace (exec h (Build_prepare join (with_logger d)) w)) ->
                negb (by_caller l') = false) as Hcaller.
  { by intros l' (ev & -> & _)%list_elem_of_fmap. }
  destruct (Build_inv _ _ _ _ _ _ _ _ _ HBuild)
    as [(err & _ & _ & -> & _)
       |(Hv & _ & s & err & t3 & _ & _ & _ & ->)].
  - assert (l ∈ main_calls
                  (out_trace (exec h (Build_prepare join (with_logger d)) w)))
      as Hin.
    { rewrite Htr. apply elem_of_app. right. left. }
    apply Hcaller in Hin. by rewrite Hl in Hin.
  - symmetry in Htr.
    destruct (split_beyond (fun l => negb (by_caller l)) _ _ _ _ _ Htr)
      as (rest & -> & _); [by rewrite Hl|done|].
    split; [by exists rest|].
    by apply (prepare_in_order (with_logger d) w).
Qed.

End Preparation.

(** ** Where Build works *)

#[local] Arguments filepath_Join : simpl never.

(** Proves that a program makes no call of a kind given by tests. *)
Ltac stays :=
  repeat (simpl; intros;
          match goal with
          | |- _ ∧ _ => split
          | |- True => exact I
          | |- false = false => reflexivity
          | |- negb (bool_decide _) = false =>
              rewrite bool_decide_eq_true_2; [reflexivity|]
          | |- _ ∈ _ => solve [in_list]
          | |- @eq string _ _ => reflexivity
          | |- @eq Z _ _ => reflexivity
          | |- context [match ?x with _ => _ end] => destruct x
          end).

Section Staging.

Context {W : Type} (h : Handler W).
Variable join : list string -> string.
Variable ChannelFor : string -> ReleaseChannel.

Lemma Build_steps_never_stray (d : DistBuilder) (i : nat)
  (f : prog (option error)) :
  Build_steps join ChannelFor (with_logger d) !! i = Some f ->
  never_calls (strays join d) f.
Proof.
  unfold Build_steps. intros Hf.
  repeat (destruct i as [|i]; simplify_eq/=).
  - unfold buildEncoreCLI, strays, binary_paths.
    destruct (ChannelFor (Version d)); stays.
  - unfold buildTSBundler, strays, binary_paths. stays.
  - unfold buildGitHook, strays, binary_paths. stays.
  - unfold buildTSParser, strays, binary_paths. stays.
  - unfold buildNodePlugin, strays, binary_paths. rewrite version_cjs_path.
    destruct (recognised_OS (OS d)) eqn:Hos.
    + destruct (compiledBinaryName_of_recognised _ Hos) as [name ->]. stays.
    + rewrite (compiledBinaryName_of_unknown _ Hos). stays.
  - unfold copyEncoreRuntimeForGo, strays. stays.
  - unfold copyEncoreRuntimeForJS, strays. stays.
  - unfold downloadEncoreGo, strays. stays.
Qed.

Lemma Build_prepare_never_strays (d : DistBuilder) :
  never_calls (caller_strays join d) (Build_prepare join (with_logger d)).
Proof. unfold Build_prepare, caller_strays. stays. Qed.

Lemma Build_finish_never_strays (d : DistBuilder) (err : option error) :
  never_calls (caller_strays join d) (Build_finish (with_logger d) err).
Proof. unfold Build_finish, caller_strays. stays. Qed.

(** X14: [Build] keeps to the staging directory.  In every run, the calls of the
    build steps remove and create no directory and make no archive, write no
    file but version.cjs, compile for the OS and the architecture of the
    request only and only into bin of the staging directory, extract only
    into the staging directory, and run no command but [cp -r] into its
    runtimes/go or runtimes/js.  The caller itself removes nothing but the
    staging directory, creates only that directory and bin, runtimes,
    runtimes/go and runtimes/js under it, and archives only that directory,
    into the archive file of the request. *)
Theorem Build_keeps_to_staging (d : DistBuilder) (sched : list tid)
  (w w' : W) (tr : list label) (r : option error) :
  Build join ChannelFor h d sched w = Some (w', tr, r) ->
  (∀ i ev, LCall (TGo i) ev ∈ tr -> strays join d ev = false)
  ∧ (∀ ev, LCall TMain ev ∈ tr -> caller_strays join d ev = false).
Proof.
  intros HBuild.
  destruct (Build_inv _ _ _ _ _ _ _ _ _ HBuild)
    as [(err & _ & _ & -> & Hfol1)
       |(_ & Hfol1 & s & err & t3 & Hreach & Hmain & Hfol3 & ->)].
  - split.
    + by intros i ev (ev' & ? & _)%list_elem_of_fmap.
    + intros ev Hev%main_calls_elem_of.
      eapply follows_never_calls;
        [apply Build_prepare_never_strays|done|done].
  - pose proof (inv_reachable h _ _ _ Hreach)
      as (_ & _ & _ & (_ & _ & Hcalls & _) & _).
    split.
    + intros i ev [Hev|[Hev|Hev]%elem_of_app]%elem_of_app.
      * by apply list_elem_of_fmap in Hev as (ev' & ? & _).
      * eapply (reachable_never_calls h (strays join d) _ _ _ Hreach);
          [|done].
        apply Build_steps_never_stray.
      * by apply list_elem_of_fmap in Hev as (ev' & ? & _).
    + intros ev [Hev|[Hev|Hev]%elem_of_app]%elem_of_app.
      * apply main_calls_elem_of in Hev.
        eapply follows_never_calls;
          [apply Build_prepare_never_strays|done|done].
      * by destruct (Hcalls _ _ Hev) as (i & ? & _).
      * apply main_calls_elem_of in Hev.
        eapply follows_never_calls;
          [apply Build_finish_never_strays|done|done].
Qed.

End Staging.

(** ** The steps one by one, again *)

Section MoreSteps.

Context {W : Type} (h : Handler W).
Variable join : list string -> string.
Variable ChannelFor : string -> ReleaseChannel.

(** X15: the release extracted is the release downloaded: [downloadEncoreGo]
    asks for the latest release of encoredev/go for the OS and the
    architecture of the request, and extracts into the staging directory the
    archive that call came back with; after a failed download nothing is
    extracted, and each failure is returned under its own wrap. *)
Theorem downloadEncoreGo_extracts_the_download (d : DistBuilder) (w : W) :
  let o := exec h (downloadEncoreGo d) w in
  ∃ (archive : string) (derr : option error) (rest : list event),
    externals (out_trace o)
    = Event (downloadLatestGithubRelease "encoredev" "go" (OS d) (Arch d))
        (archive, derr) :: rest
    ∧ match derr with
      | Some err =>
          rest = []
          ∧ out_value o = Some (Some (errors_Wrap err "download encore-go"))
      | None =>
          ∃ xerr : option error,
            rest = [Event (extractArchive archive (DistBuildDir d)) xerr]
            ∧ out_value o
              = Some (match xerr with
                      | Some err =>
                          Some (errors_Wrap err "extract encore-go")
                      | None => None
                      end)
      end.
Proof.
  unfold downloadEncoreGo. exec_all;
    eexists _, _, _; (split; [reflexivity|]); simpl; eauto.
Qed.

End MoreSteps.

Lemma list_ascii_of_string_append (s1 s2 : string) :
  list_ascii_of_string (s1 +:+ s2)
  = list_ascii_of_string s1 ++ list_ascii_of_string s2.
Proof.
  induction s1 as [|a s1 IH]; [done|].
  change (String a s1 +:+ s2) with (String a (s1 +:+ s2)).
  simpl. by rewrite IH.
Qed.

Lemma append_inv_tail (s1 s2 s : string) : s1 +:+ s = s2 +:+ s -> s1 = s2.
Proof.
  intros Heq. apply (f_equal list_ascii_of_string) in Heq.
  rewrite !list_ascii_of_string_append in Heq.
  apply app_inv_tail in Heq.
  apply (f_equal string_of_list_ascii) in Heq.
  by rewrite !string_of_list_ascii_of_string in Heq.
Qed.

(** X16: the stamp tells the version: two versions that give the same contents of
    version.cjs are the same version. *)
Theorem version_cjs_inj (v1 v2 : string) :
  version_cjs v1 = version_cjs v2 -> v1 = v2.
Proof.
  unfold version_cjs. intros Heq.
  repeat apply String.app_inj in Heq.
  by apply append_inv_tail in Heq.
Qed.

(** ** What is logged last *)

Section Logging.

Context {W : Type} (h : Handler W).
Variable join : list string -> string.
Variable ChannelFor : string -> ReleaseChannel.

Lemma follows_logs_outcome (before : option event)
  (f : prog (option error)) (evs : list event) (r : option error) :
  logs_outcome before f -> follows f evs (Ret r) ->
  ∃ l, from_option Some before (last evs) = Some (Event (Log l) ())
       ∧ logged r l.
Proof.
  intros Hlogs Hfollows. remember (Ret r) as q eqn:Hq. revert before Hlogs.
  induction Hfollows as [p|X c k x evs q Hfollows IH]; subst;
    intros before Hlogs.
  - done.
  - destruct (IH eq_refl _ (Hlogs x)) as (l & Hlast & Hl).
    exists l. split; [|done]. rewrite last_cons.
    by destruct (last evs).
Qed.

Lemma Build_steps_log_outcome (d : DistBuilder) (i : nat)
  (f : prog (option error)) :
  (∀ name, ChannelFor (Version d) ≠ OtherChannel name) ->
  Build_steps join ChannelFor d !! i = Some f ->
  logs_outcome None f.
Proof.
  unfold Build_steps. intros Hchannel Hf.
  repeat (destruct i as [|i]; simplify_eq/=).
  - unfold buildEncoreCLI.
    destruct (ChannelFor (Version d)) eqn:Hc; [..|by destruct (Hchannel name)];
      simpl; intros [] [err|] []; by eexists.
  - unfold buildTSBundler. simpl. intros [] [err|] []; by eexists.
  - unfold buildGitHook. simpl. intros [] [err|] []; by eexists.
  - unfold buildTSParser. simpl. intros [] [err|] []; by eexists.
  - unfold buildNodePlugin. destruct (recognised_OS (OS d)) eqn:Hos.
    + destruct (compiledBinaryName_of_recognised _ Hos) as [name ->].
      simpl. intros [] [] [err|]; [intros []; by eexists|].
      simpl. intros [err|] []; by eexists.
    + rewrite (compiledBinaryName_of_unknown _ Hos).
      simpl. intros [] []; by eexists.
  - unfold copyEncoreRuntimeForGo. simpl.
    intros [] [out [err|]] []; by eexists.
  - unfold copyEncoreRuntimeForJS. simpl.
    intros [] [] [|]; simpl; [intros []; by eexists|].
    intros [] [out [err|]] []; by eexists.
  - unfold downloadEncoreGo. simpl.
    intros [] [archive [err|]]; simpl; [intros []; by eexists|].
    intros [] [err|] []; by eexists.
Qed.

(** X17: each build step ends on a log line that tells its outcome.  For a
    version of a recognised channel, when a step run on its own returns, the
    last call it made is a log line: of level info when it returns nil, of
    level error when it returns an error, and then with the cause as the
    error of the line when the error returned is a wrap. *)
Theorem Build_steps_log_their_outcome (d : DistBuilder) (i : nat)
  (f : prog (option error)) (w : W) (r : option error) :
  (∀ name, ChannelFor (Version d) ≠ OtherChannel name) ->
  Build_steps join ChannelFor d !! i = Some f ->
  out_value (exec h f w) = Some r ->
  ∃ l, last (out_trace (exec h f w)) = Some (Event (Log l) ()) ∧ logged r l.
Proof.
  intros Hchannel Hf Hr.
  destruct (exec_from_follows h _ _ _ _ Hr) as (evs & Hevs & Hfol).
  unfold exec. rewrite Hevs. simpl.
  destruct (follows_logs_outcome None f evs r) as (l & Hlast & Hl);
    [by eapply Build_steps_log_outcome|done|].
  exists l. split; [|done]. by destruct (last evs).
Qed.

Lemma follows_logs_failure (before : option event)
  (f : prog (option error)) (evs : list event) (err : error) :
  logs_failure before f -> follows f evs (Ret (Some err)) ->
  ∃ l, from_option Some before (last evs) = Some (Event (Log l) ())
       ∧ logged (Some err) l.
Proof.
  intros Hlogs Hfollows. remember (Ret (Some err)) as q eqn:Hq.
  revert before Hlogs.
  induction Hfollows as [p|X c k x evs q Hfollows IH]; subst;
    intros before Hlogs.
  - done.
  - destruct (IH eq_refl _ (Hlogs x)) as (l & Hlast & Hl).
    exists l. split; [|done]. rewrite last_cons.
    by destruct (last evs).
Qed.

Lemma Build_prepare_logs_failure (d : DistBuilder) :
  logs_failure None (Build_prepare join d).
Proof.
  unfold Build_prepare. simpl. intros [].
  repeat (intros [err|]; [intros []; by eexists|]). done.
Qed.

Lemma Build_finish_logs_outcome (d : DistBuilder) (err : option error) :
  logs_outcome None (Build_finish d err).
Proof.
  unfold Build_finish. destruct err as [err|]; simpl.
  - intros []. by eexists.
  - intros [] [err|] []; by eexists.
Qed.

Lemma last_main_calls (evs : list event) :
  last (main_calls evs) = LCall TMain <$> last evs.
Proof.
  unfold main_calls. induction evs as [|ev evs IH]; [done|].
  simpl map. rewrite !last_cons, IH. by destruct (last evs).
Qed.

(** X18: [Build] ends on a log line that tells its outcome.  The last action of
    every run of [Build] that returns is a log line written by the caller:
    of level info when [Build] returns nil, of level error and carrying the
    wrapped cause when it returns an error. *)
Theorem Build_logs_its_outcome (d : DistBuilder) (sched : list tid)
  (w w' : W) (tr : list label) (r : option error) :
  Build join ChannelFor h d sched w = Some (w', tr, r) ->
  ∃ l, last tr = Some (LCall TMain (Event (Log l) ())) ∧ logged r l.
Proof.
  intros HBuild.
  destruct (Build_inv h join ChannelFor _ _ _ _ _ _ HBuild)
    as [(err & _ & -> & -> & Hfol1)
       |(_ & _ & s & err & t3 & _ & _ & Hfol3 & ->)].
  - destruct (follows_logs_failure None _ _ _
                (Build_prepare_logs_failure _) Hfol1) as (l & Hlast & Hl).
    exists l. split; [|done]. rewrite last_main_calls.
    simpl in Hlast. destruct (last _); by simplify_eq/=.
  - destruct (follows_logs_outcome None _ _ _
                (Build_finish_logs_outcome _ _) Hfol3) as (l & Hlast & Hl).
    exists l. split; [|done]. rewrite !last_app, last_main_calls.
    simpl in Hlast. destruct (last t3); by simplify_eq/=.
Qed.

End Logging.

(** ** Each function is run once *)

Section Once.

Context {W : Type} (h : Handler W).
Variable functions : list (prog (option error)).

Lemma spawns_snoc (tr : list label) (l : label) :
  spawns (tr ++ [l])
  = spawns tr ++ match l with LSpawn i => [i] | _ => [] end.
Proof. unfold spawns. rewrite omap_app. by destruct l. Qed.

Lemma returns_of_snoc (i : nat) (tr : list label) (l : label) :
  returns_of i (tr ++ [l])
  = returns_of i tr
    ++ match l with
       | LReturn j err => if bool_decide (j = i) then [err] else []
       | _ => []
       end.
Proof.
  unfold returns_of. rewrite omap_app. destruct l; try done.
  simpl. by case_bool_decide.
Qed.

Lemma exits_of_snoc (i : nat) (tr : list label) (l : label) :
  exits_of i (tr ++ [l])
  = exits_of i tr
    ++ match l with
       | LExit j => if bool_decide (j = i) then [()] else []
       | _ => []
       end.
Proof.
  unfold exits_of. rewrite omap_app. destruct l; try done.
  simpl. by case_bool_decide.
Qed.

Lemma inv_once_step (s s' : state W) :
  inv_once s -> sched_step h s s' -> inv_once s'.
Proof.
  intros (Hspawns & Hreturns & Hexits) [[|i] Hstep]; unfold inv_once.
  - main_inv Hstep;
      rewrite ?spawns_snoc, ?app_nil_r; try (split_and!; try done;
        intros j; rewrite ?returns_of_snoc, ?exits_of_snoc, ?app_nil_r; done).
    rewrite length_app, Nat.add_1_r, seq_S, Hspawns. simpl.
    split_and!; [done|..]; intros j;
      rewrite ?returns_of_snoc, ?exits_of_snoc, ?app_nil_r;
      rewrite ?Hreturns, ?Hexits;
      (destruct (decide (j < length (gs s))) as [Hlt|Hge];
       [ by rewrite lookup_app_l
       | rewrite (lookup_ge_None_2 (gs s)) by lia;
         destruct (decide (j = length (gs s))) as [->|Hne];
         [ by rewrite list_lookup_middle
         | rewrite lookup_ge_None_2; [done|rewrite length_app; simpl; lia] ] ]).
  - go_inv Hstep;
      rewrite ?spawns_snoc, ?app_nil_r, ?length_insert;
      (split_and!; [done|..]); intros j;
      rewrite ?returns_of_snoc, ?exits_of_snoc, ?app_nil_r;
      rewrite ?Hreturns, ?Hexits;
      (destruct (decide (j = i)) as [->|Hne];
       [ rewrite list_lookup_insert_eq by (by eapply lookup_lt_Some);
         rewrite ?Hg, ?bool_decide_eq_true_2 by done; try done
       | rewrite list_lookup_insert_ne by done;
         rewrite ?bool_decide_eq_false_2, ?app_nil_r by done; done ]).
    all: try by destruct err.
Qed.

Lemma inv_once_reachable (w : W) (s : state W) :
  reachable h functions w s -> inv_once s.
Proof.
  unfold reachable. revert s.
  apply (rtc_ind_r inv_once); [|intros s1 s2 _ Hstep IH].
  - by split_and!.
  - by eapply inv_once_step.
Qed.

(** X19: [runParallel] runs each function once.  In every state of a run the
    goroutines started so far are those of the first arguments, in the order
    of the arguments and each started once; no function has returned more than
    once, and a goroutine has run its [wg.Done()] at most once and only after
    its function returned.  When [runParallel] returns, a goroutine has been
    started for every argument, and each has seen its function return exactly
    once and has run [wg.Done()] exactly once. *)
Theorem runParallel_runs_each_once (w : W) (sched : list tid) (s : state W) :
  run h sched (entry functions w) = Some s ->
  (∃ n, n ≤ length functions ∧ spawns (trace s) = seq 0 n)
  ∧ (∀ i, length (exits_of i (trace s)) ≤ length (returns_of i (trace s))
          ∧ length (returns_of i (trace s)) ≤ 1)
  ∧ (∀ err, main s = MReturned err ->
       spawns (trace s) = seq 0 (length functions)
       ∧ ∀ i, i < length functions ->
           (∃ r, returns_of i (trace s) = [r])
           ∧ exits_of i (trace s) = [()]).
Proof.
  intros Hrun. pose proof (run_steps _ _ _ _ Hrun) as Hreach.
  destruct (inv_once_reachable w s Hreach) as (Hspawns & Hreturns & Hexits).
  destruct (inv_reachable h functions w s Hreach) as (Hwg & _).
  destruct Hwg as ((started & Hfs & Hlen) & _).
  split_and!.
  - exists (length (gs s)). split; [|done].
    rewrite Hfs, length_app. lia.
  - intros i. rewrite Hreturns, Hexits.
    destruct (gs s !! i) as [g|]; [|simpl; lia].
    destruct g as [p|?|?|?|?|?|?]; simpl; lia.
  - intros err Hmain.
    destruct (joined_all_exited h functions w s Hreach) as [Hall Hexited].
    { by rewrite Hmain. }
    split; [by rewrite Hspawns, Hall|].
    intros i Hi. rewrite Hreturns, Hexits.
    destruct (lookup_lt_is_Some_2 functions i Hi) as [f Hf].
    destruct (Hexited i f Hf) as (r & -> & _). simpl. split; [by exists r|done].
Qed.

End Once.

(** ** What a nil result stands for *)

Section Completeness.

Context {W : Type} (h : Handler W).
Variable join : list string -> string.
Variable ChannelFor : string -> ReleaseChannel.

Lemma follows_on_success (P : list event -> Prop) (seen : list event)
  (f : prog (option error)) (evs : list event) :
  on_success P seen f -> follows f evs (Ret None) -> P (seen ++ evs).
Proof.
  intros Hon Hfollows. remember (Ret None) as q eqn:Hq. revert seen Hon.
  induction Hfollows as [p|X c k x evs q Hfollows IH]; subst;
    intros seen Hon.
  - by rewrite app_nil_r.
  - rewrite cons_middle, app_assoc. by apply IH.
Qed.

Lemma Build_steps_work (d : DistBuilder) (i : nat)
  (f : prog (option error)) :
  Build_steps join ChannelFor d !! i = Some f ->
  on_success (work join d i) [] f.
Proof.
  unfold Build_steps. intros Hf.
  repeat (destruct i as [|i]; simplify_eq/=).
  - unfold buildEncoreCLI.
    destruct (ChannelFor (Version d)) eqn:Hc; simpl; try done;
      intros [] [err|] []; try done; eexists _, _;
      (split; [|reflexivity]); set_solver.
  - unfold buildTSBundler. simpl. by intros [] [err|] [].
  - unfold buildGitHook. simpl. by intros [] [err|] [].
  - unfold buildTSParser. simpl. by intros [] [err|] [].
  - unfold buildNodePlugin. rewrite version_cjs_path.
    destruct (recognised_OS (OS d)) eqn:Hos.
    + destruct (compiledBinaryName_of_recognised _ Hos) as [name Hname].
      rewrite Hname. simpl. intros [] [] [err|]; [by intros []|].
      intros [err|] []; [done|]. simpl. by rewrite Hname.
    + rewrite (compiledBinaryName_of_unknown _ Hos). simpl. by intros [] [].
  - unfold copyEncoreRuntimeForGo. simpl.
    intros [] [out [err|]] []; [done|]. by exists out.
  - unfold copyEncoreRuntimeForJS. simpl.
    intros [] [] [|]; simpl; [by intros []|].
    intros [] [out [err|]] []; [done|]. by exists out.
  - unfold downloadEncoreGo. simpl.
    intros [] [archive [err|]]; simpl; [by intros []|].
    intros [] [err|] []; [done|]. by exists archive.
Qed.

(** When [runParallel] returns nil every function has returned nil. *)
Lemma nil_result_all_nil (functions : list (prog (option error))) (w : W)
  (s : state W) (i : nat) (f : prog (option error)) :
  reachable h functions w s -> main s = MReturned None ->
  functions !! i = Some f ->
  follows f (calls_of i (trace s)) (Ret None).
Proof.
  intros Hreach Hmain Hf.
  destruct (joined_all_exited h functions w s Hreach) as [_ Hall];
    [by rewrite Hmain|].
  destruct (Hall i f Hf) as ([e|] & _ & Hret & Hfol); [|done].
  destruct (first_error_returned h functions w s None Hreach Hmain)
    as (? & ? & ? & ? & ? & _); [by exists i, e|done].
Qed.

Lemma caller_calls_app (tr1 tr2 : list label) :
  caller_calls (tr1 ++ tr2) = caller_calls tr1 ++ caller_calls tr2.
Proof. apply omap_app. Qed.

Lemma caller_calls_main_calls (evs : list event) :
  caller_calls (main_calls evs) = evs.
Proof. induction evs as [|ev evs IH]; [done|]. simpl. by rewrite IH. Qed.

Lemma caller_calls_none (tr : list label) :
  (∀ ev, LCall TMain ev ∉ tr) -> caller_calls tr = [].
Proof.
  induction tr as [|l tr IH]; [done|]. intros Hnone.
  assert (caller_calls tr = []) as Htr.
  { apply IH. intros ev Hev. apply (Hnone ev). by apply list_elem_of_further. }
  destruct l as [[|j] ev| | | | | | |]; try done.
  destruct (Hnone ev). apply list_elem_of_here.
Qed.

Lemma calls_of_main_calls (i : nat) (evs : list event) :
  calls_of i (main_calls evs) = [].
Proof. by induction evs. Qed.

Lemma externals_app (evs1 evs2 : list event) :
  externals (evs1 ++ evs2) = externals evs1 ++ externals evs2.
Proof. apply List.filter_app. Qed.

Lemma Build_finish_work (d : DistBuilder) :
  on_success
    (fun evs =>
       externals evs
       = [Event (TarGzip (DistBuildDir d) (ArtifactsTarFile d)) None])
    [] (Build_finish d None).
Proof. unfold Build_finish. simpl. by intros [] [err|] []. Qed.

(** X20: a nil result of [Build] stands for a complete distribution.  In a
    run of [Build] that returns nil, the caller's own calls, logging apart,
    are the removal of the staging directory, the creation of the staging
    directory and of bin, runtimes, runtimes/go and runtimes/js under it, and
    one archive of the staging directory into the archive file of the request,
    in that order and all without error; and each of the eight build steps
    has made every call of its work, once, in order and without error: the
    three Go binaries and the two Rust binaries compiled for the OS and the
    architecture of the request into bin, version.cjs written for the
    version, both runtimes copied (the second after the packager signalled
    and reported no failure), and the release of encore-go that was
    downloaded extracted into the staging directory. *)
Theorem Build_success_is_complete (d : DistBuilder) (sched : list tid)
  (w w' : W) (tr : list label) :
  Build join ChannelFor h d sched w = Some (w', tr, None) ->
  externals (caller_calls tr)
  = zip_with (fun c x => Event c x) (prepare_calls join d) (replicate 6 None)
    ++ [Event (TarGzip (DistBuildDir d) (ArtifactsTarFile d)) None]
  ∧ ∀ i, i < 8 -> work join d i (calls_of i tr).
Proof.
  intros HBuild.
  destruct (Build_inv h join ChannelFor _ _ _ _ _ _ HBuild)
    as [(err & _ & [=] & _)
       |(Hprep & _ & s & err & t3 & Hreach & Hmain & Hfol3 & ->)].
  destruct err as [err|].
  { by destruct (follows_always_fails _ _ _ (Build_finish_fails _ err) Hfol3). }
  destruct (inv_reachable h _ _ s Hreach)
    as (_ & _ & _ & (_ & _ & Hcalls & _) & _).
  split.
  - rewrite !caller_calls_app, !caller_calls_main_calls.
    rewrite (caller_calls_none (trace s)).
    2:{ intros ev Hev. destruct (Hcalls _ _ Hev) as (j & Hj & _).
        discriminate Hj. }
    rewrite app_nil_l, externals_app. f_equal.
    + destruct (prepare_in_order h join (with_logger d) w)
        as (Hcallsp & _ & Hnil).
      rewrite Hcallsp. by rewrite (proj1 Hnil Hprep).
    + apply (follows_on_success _ [] _ _ (Build_finish_work (with_logger d))
               Hfol3).
  - intros i Hi.
    rewrite !calls_of_app, !calls_of_main_calls, app_nil_r. simpl.
    destruct (lookup_lt_is_Some_2
                (Build_steps join ChannelFor (with_logger d)) i Hi) as [f Hf].
    pose proof (nil_result_all_nil _ _ _ _ _ Hreach Hmain Hf) as Hfol.
    pose proof (follows_on_success _ [] _ _
                  (Build_steps_work (with_logger d) i f Hf) Hfol) as Hwork.
    simpl in Hwork. revert Hwork.
    do 8 (destruct i as [|i]; [done|]). done.
Qed.

End Completeness.

(** ** The properties on the scripted world *)

Section Witnesses.

Import Stub.

(** Membership in a list given in full. *)
Ltac elem_of_list :=
  repeat first [apply list_elem_of_here | apply list_elem_of_further].

(** The last function of [three] is scheduled first: its error is stored,
    the error of the second is discarded, and [runParallel] returns the
    stored one once all three goroutines have exited. *)
Lemma runParallel_first_error_witness :
  ∃ s, run (handler all_fine) (schedule all_fine [2; 1; 0] three 0)
         (entry three 0) = Some s
       ∧ main s = MReturned (Some (errors_New "c"))
       ∧ recorded (trace s)
         = [LStore 2 (errors_New "c"); LDiscard 1 (errors_New "b")]
       ∧ (∀ i f, three !! i = Some f ->
            ∃ r, gs s !! i = Some (GExited r) ∧ LReturn i r ∈ trace s
                 ∧ follows f (calls_of i (trace s)) (Ret r))
       ∧ ∃ i0 err0 discards f0,
           Some (errors_New "c") = Some err0
           ∧ recorded (trace s) = LStore i0 err0 :: discards
           ∧ forallb is_discard discards = true
           ∧ three !! i0 = Some f0
           ∧ follows f0 (calls_of i0 (trace s)) (Ret (Some err0))
           ∧ ∀ j e, LReturn j (Some e) ∈ trace s ->
               (j = i0 ∧ e = err0) ∨ LDiscard j e ∈ discards.
Proof.
  eexists.
  split; [vm_compute; reflexivity|].
  split; [reflexivity|]. split; [reflexivity|].
  apply (proj2 (runParallel_first_error (handler all_fine) three 0)
           (schedule all_fine [2; 1; 0] three 0)).
  - vm_compute. reflexivity.
  - reflexivity.
  - exists 2, (errors_New "c"). vm_compute. elem_of_list.
Defined.

(** Two functions that succeed: past the barrier both have bumped the
    counter and returned, and [runParallel] returns nil. *)
Lemma runParallel_all_succeed_witness :
  ∃ s, run (handler all_fine) (schedule all_fine [0; 1] two 0) (entry two 0)
       = Some s
       ∧ main s = MReturned None
       ∧ world s = 2
       ∧ (length (gs s) = length two
          ∧ ∀ i f, two !! i = Some f ->
              ∃ r, gs s !! i = Some (GExited r) ∧ LReturn i r ∈ trace s
                   ∧ follows f (calls_of i (trace s)) (Ret r))
       ∧ (None : option error) = None
       ∧ ∃ sched' w' tr err,
           runParallel (handler all_fine) two ([TMain; TMain] ++ sched') 0
           = Some (w', tr, err).
Proof.
  eexists.
  split; [vm_compute; reflexivity|].
  split; [reflexivity|]. split; [reflexivity|].
  destruct (runParallel_all_succeed (handler all_fine) two 0)
    as (Hreturns & Hbarrier & Hnil).
  split; [|split].
  - apply (Hbarrier (schedule all_fine [0; 1] two 0)).
    + vm_compute. reflexivity.
    + reflexivity.
  - eapply (Hnil (schedule all_fine [0; 1] two 0)).
    + vm_compute. reflexivity.
    + reflexivity.
    + intros i e Hin. vm_compute in Hin.
      repeat (apply elem_of_cons in Hin as [Hin|Hin]; [discriminate Hin|]).
      by apply elem_of_nil in Hin.
  - eapply Hreturns.
    + intros w. reflexivity.
    + vm_compute. reflexivity.
Defined.

(** After two actions of the caller of [runParallel()] nothing has been
    started and the caller can go on. *)
Lemma runParallel_no_functions_witness :
  ∃ s, run (handler all_fine) [TMain; TMain] (entry [] 0) = Some s
       ∧ gs s = [] ∧ world s = 0 ∧ (∀ i, LSpawn i ∉ trace s)
       ∧ [TMain; TMain] = replicate 2 TMain
       ∧ match main s with
         | MReturned err => err = None
         | _ => is_Some (step (handler all_fine) TMain s)
         end.
Proof.
  eexists. split; [vm_compute; reflexivity|].
  apply (proj2 (runParallel_no_functions (handler all_fine) 0)
           [TMain; TMain]).
  vm_compute. reflexivity.
Defined.

(** The end-to-end scenario with the fetcher stubbed to fail: [Build] returns
    the error of the download wrapped with linux and amd64, and makes no call
    to [TarGzip]. *)
Lemma Build_runParallel_error_witness :
  ∃ w' tr,
    Build filepath_Join ChannelFor (handler fetch_fails) (request "1.2.3")
      (build_schedule fetch_fails (request "1.2.3")) 0
    = Some (w', tr,
            Some (errors_Wrap
                    (errors_Wrap
                       (errors_New "download encoredev/go: stubbed to fail")
                       "download encore-go")
                    " os: linux, arch: amd64"))
    ∧ (∀ err, LResult (Some err) ∈ tr ->
         Some (errors_Wrap
                 (errors_Wrap
                    (errors_New "download encoredev/go: stubbed to fail")
                    "download encore-go")
                 " os: linux, arch: amd64")
         = Some (errors_Wrap err " os: linux, arch: amd64")
         ∧ ∀ t ev, LCall t ev ∈ tr -> is_archive ev = false)
    ∧ List.filter archives tr = [].
Proof.
  eexists _, _. split; [vm_compute; reflexivity|].
  split; [|vm_compute; reflexivity].
  refine (proj1 (Build_runParallel_error (handler fetch_fails) filepath_Join
                   ChannelFor (request "1.2.3")
                   (build_schedule fetch_fails (request "1.2.3")) 0 _ _ _ _)).
  vm_compute. reflexivity.
Defined.

End Witnesses.

(** ** More properties on the scripted world *)

Section MoreWitnesses.

(** Membership in a trace given in full. *)
Ltac in_trace :=
  repeat first [apply list_elem_of_here | apply list_elem_of_further].

(** Every element of a list given in full has the property asked for. *)
Ltac each_of H :=
  repeat (apply elem_of_cons in H as [H|H]; [try congruence|]);
  try (by apply elem_of_nil in H).

(** The third goroutine of [three] is inside the critical section and the
    second waits at [mu.Lock()]: the mutex is held, by the third alone. *)
Lemma runParallel_mutual_exclusion_witness :
  ∃ s, run (Stub.handler Stub.all_fine)
         [TMain; TMain; TMain; TMain; TGo 2; TGo 2; TGo 2; TGo 1; TGo 1]
         (entry Stub.three 0) = Some s
       ∧ gs s !! 2 = Some (GTest (errors_New "c"))
       ∧ gs s !! 1 = Some (GLock (errors_New "b"))
       ∧ (∀ i j gi gj, gs s !! i = Some gi -> gs s !! j = Some gj ->
            holds_mu gi = true -> holds_mu gj = true -> i = j)
       ∧ (∀ i g, gs s !! i = Some g -> holds_mu g = true ->
            main_holds_mu (main s) = false)
       ∧ (mu s = true ↔
          main_holds_mu (main s) = true
          ∨ ∃ i g, gs s !! i = Some g ∧ holds_mu g = true).
Proof.
  eexists. split; [vm_compute; reflexivity|].
  split; [reflexivity|]. split; [reflexivity|].
  apply (runParallel_mutual_exclusion (Stub.handler Stub.all_fine) Stub.three
           0 [TMain; TMain; TMain; TMain; TGo 2; TGo 2; TGo 2; TGo 1; TGo 1]).
  vm_compute. reflexivity.
Defined.

(** Of the two goroutines of [two] the first has exited and the second has
    not run yet: the counter is one. *)
Lemma runParallel_waitgroup_witness :
  ∃ s, run (Stub.handler Stub.all_fine)
         [TMain; TMain; TMain; TMain; TGo 0; TGo 0; TGo 0]
         (entry Stub.two 0) = Some s
       ∧ wg s = 1%Z
       ∧ (0 ≤ wg s)%Z
       ∧ (added (main s) = true ->
          wg s = (Z.of_nat (length Stub.two)
                  - Z.of_nat (count is_exited (gs s)))%Z)
       ∧ (∀ err, main s = MReturned err -> wg s = 0%Z ∧ mu s = false).
Proof.
  eexists. split; [vm_compute; reflexivity|]. split; [reflexivity|].
  apply (runParallel_waitgroup (Stub.handler Stub.all_fine) Stub.two 0
           [TMain; TMain; TMain; TMain; TGo 0; TGo 0; TGo 0]).
  vm_compute. reflexivity.
Defined.

(** In the world where the packager has finished, no run of
    [runParallel(three...)] is infinite and none is stuck. *)
Lemma runParallel_terminates_witness :
  always_signalled (Stub.handler Stub.all_fine)
  ∧ (∀ states : nat -> state nat,
       ¬ ∀ n, sched_step (Stub.handler Stub.all_fine) (states n)
                (states (S n)))
  ∧ ∀ sched s,
      run (Stub.handler Stub.all_fine) sched (entry Stub.three 0) = Some s ->
      (∃ err, main s = MReturned err)
      ∨ ∃ t s', step (Stub.handler Stub.all_fine) t s = Some s'.
Proof.
  assert (always_signalled (Stub.handler Stub.all_fine)) as Hsig.
  { intros w. reflexivity. }
  split; [exact Hsig|].
  destruct (runParallel_terminates (Stub.handler Stub.all_fine) Stub.three 0)
    as [Hfinite Hfree].
  split; [exact Hfinite|exact (Hfree Hsig)].
Defined.

(** One function succeeds and one fails: the error returned is the error of
    the one that failed. *)
Lemma runParallel_single_failure_witness :
  ∃ s, run (Stub.handler Stub.all_fine)
         (Stub.schedule Stub.all_fine [0; 1]
            [Stub.succeeding "a"; Stub.failing "b"] 0)
         (entry [Stub.succeeding "a"; Stub.failing "b"] 0) = Some s
       ∧ main s = MReturned (Some (errors_New "b"))
       ∧ LReturn 1 (Some (errors_New "b")) ∈ trace s
       ∧ (∀ j e', LReturn j (Some e') ∈ trace s -> j = 1)
       ∧ Some (errors_New "b") = Some (errors_New "b").
Proof.
  eexists. split; [vm_compute; reflexivity|].
  split; [reflexivity|].
  split; [vm_compute; in_trace|].
  split; [intros j e' Hin; vm_compute in Hin; each_of Hin|].
  eapply (runParallel_single_failure (Stub.handler Stub.all_fine)
            [Stub.succeeding "a"; Stub.failing "b"] 0
            (Stub.schedule Stub.all_fine [0; 1]
               [Stub.succeeding "a"; Stub.failing "b"] 0)
            _ _ 1 (errors_New "b")).
  - vm_compute. reflexivity.
  - reflexivity.
  - vm_compute. in_trace.
  - intros j e' Hin. vm_compute in Hin. each_of Hin.
Defined.

(** The build steps in the world where the packager never signals: however
    long the eight goroutines are scheduled, [runParallel] does not return. *)
Lemma runParallel_waits_for_blocked_witness :
  never_signalled (Stub.handler Stub.never_signalled)
  ∧ Build_steps filepath_Join Stub.ChannelFor (Stub.request "1.2.3") !! 6
    = Some (copyEncoreRuntimeForJS filepath_Join (Stub.request "1.2.3"))
  ∧ must_call is_recv
      (copyEncoreRuntimeForJS filepath_Join (Stub.request "1.2.3"))
  ∧ (∀ s, run (Stub.handler Stub.never_signalled)
            (Stub.schedule Stub.never_signalled (seq 0 8)
               (Build_steps filepath_Join Stub.ChannelFor
                  (Stub.request "1.2.3")) 0)
            (entry (Build_steps filepath_Join Stub.ChannelFor
                      (Stub.request "1.2.3")) 0) = Some s ->
          joined (main s) = false)
  ∧ runParallel (Stub.handler Stub.never_signalled)
      (Build_steps filepath_Join Stub.ChannelFor (Stub.request "1.2.3"))
      (Stub.schedule Stub.never_signalled (seq 0 8)
         (Build_steps filepath_Join Stub.ChannelFor (Stub.request "1.2.3")) 0)
      0 = None.
Proof.
  assert (never_signalled (Stub.handler Stub.never_signalled)) as Hnever.
  { intros w. reflexivity. }
  split; [exact Hnever|]. split; [reflexivity|].
  split; [apply copyEncoreRuntimeForJS_must_recv|].
  apply (runParallel_waits_for_blocked (Stub.handler Stub.never_signalled)
           (Build_steps filepath_Join Stub.ChannelFor (Stub.request "1.2.3"))
           6 (copyEncoreRuntimeForJS filepath_Join (Stub.request "1.2.3")) 0).
  - exact Hnever.
  - reflexivity.
  - apply copyEncoreRuntimeForJS_must_recv.
Defined.

(** In the world where the packager has finished, the build of the request
    returns. *)
Lemma Build_returns_witness :
  always_signalled (Stub.handler Stub.all_fine)
  ∧ (∃ sched result,
       Build filepath_Join Stub.ChannelFor (Stub.handler Stub.all_fine)
         (Stub.request "1.2.3") sched 0 = Some result)
  ∧ ∀ sched s,
      run (Stub.handler Stub.all_fine) sched
        (entry (Build_steps filepath_Join Stub.ChannelFor
                  (with_logger (Stub.request "1.2.3")))
           (out_world (exec (Stub.handler Stub.all_fine)
                         (Build_prepare filepath_Join
                            (with_logger (Stub.request "1.2.3"))) 0)))
      = Some s ->
      ∃ sched' result,
        Build filepath_Join Stub.ChannelFor (Stub.handler Stub.all_fine)
          (Stub.request "1.2.3") (sched ++ sched') 0 = Some result.
Proof.
  assert (always_signalled (Stub.handler Stub.all_fine)) as Hsig.
  { intros w. reflexivity. }
  split; [exact Hsig|].
  exact (Build_returns (Stub.handler Stub.all_fine) filepath_Join
           Stub.ChannelFor (Stub.request "1.2.3") 0 Hsig).
Defined.

(** The packager never signals and the directory runtimes cannot be created:
    [Build] returns the error of the preparation, and only the caller has
    acted. *)
Lemma Build_waits_for_packager_witness :
  ∃ w' tr r,
    never_signalled
      (Stub.handler (Stub.mkConfig ["/dist/linux_amd64/runtimes"] false false))
    ∧ Build filepath_Join Stub.ChannelFor
        (Stub.handler
           (Stub.mkConfig ["/dist/linux_amd64/runtimes"] false false))
        (Stub.request "1.2.3") [] 0 = Some (w', tr, r)
    ∧ ∃ err,
        r = Some err
        ∧ out_value
            (exec (Stub.handler
                     (Stub.mkConfig ["/dist/linux_amd64/runtimes"] false
                        false))
               (Build_prepare filepath_Join
                  (with_logger (Stub.request "1.2.3"))) 0)
          = Some (Some err)
        ∧ ∀ l, l ∈ tr -> ∃ ev, l = LCall TMain ev.
Proof.
  eexists _, _, _.
  assert (never_signalled
            (Stub.handler
               (Stub.mkConfig ["/dist/linux_amd64/runtimes"] false false)))
    as Hnever.
  { intros w. reflexivity. }
  split; [exact Hnever|]. split; [vm_compute; reflexivity|].
  eapply (Build_waits_for_packager
            (Stub.handler
               (Stub.mkConfig ["/dist/linux_amd64/runtimes"] false false))
            filepath_Join Stub.ChannelFor (Stub.request "1.2.3") [] 0).
  - exact Hnever.
  - vm_compute. reflexivity.
Defined.

(** The download of encore-go fails in the eighth goroutine: [Build] returns
    an error. *)
Lemma Build_no_failure_swallowed_witness :
  ∃ w' tr r,
    Build filepath_Join Stub.ChannelFor (Stub.handler Stub.fetch_fails)
      (Stub.request "1.2.3")
      (Stub.build_schedule Stub.fetch_fails (Stub.request "1.2.3")) 0
    = Some (w', tr, r)
    ∧ LCall (TGo 7)
        (Event (downloadLatestGithubRelease "encoredev" "go" "linux" "amd64")
           ("/tmp/go.tar.gz",
            Some (errors_New "download encoredev/go: stubbed to fail")))
      ∈ tr
    ∧ r ≠ None.
Proof.
  eexists _, _, _. split; [vm_compute; reflexivity|].
  split; [vm_compute; in_trace|].
  eapply (Build_no_failure_swallowed (Stub.handler Stub.fetch_fails)
            filepath_Join Stub.ChannelFor (Stub.request "1.2.3")
            (Stub.build_schedule Stub.fetch_fails (Stub.request "1.2.3")) 0
            _ _ _ (TGo 7)
            (Event
               (downloadLatestGithubRelease "encoredev" "go" "linux" "amd64")
               ("/tmp/go.tar.gz",
                Some (errors_New "download encoredev/go: stubbed to fail")))).
  - vm_compute. reflexivity.
  - vm_compute. in_trace.
  - reflexivity.
Defined.

(** [Build] fails on the request for version 1.2.3 and linux: a call of the
    run has reported a failure. *)
Lemma Build_fails_only_after_failure_witness :
  ∃ w' tr err,
    (∀ name,
       Stub.ChannelFor (Version (Stub.request "1.2.3")) ≠ OtherChannel name)
    ∧ recognised_OS (OS (Stub.request "1.2.3")) = true
    ∧ Build filepath_Join Stub.ChannelFor (Stub.handler Stub.fetch_fails)
        (Stub.request "1.2.3")
        (Stub.build_schedule Stub.fetch_fails (Stub.request "1.2.3")) 0
      = Some (w', tr, Some err)
    ∧ ∃ t ev, LCall t ev ∈ tr ∧ reports_failure ev = true.
Proof.
  eexists _, _, _.
  assert (∀ name,
            Stub.ChannelFor (Version (Stub.request "1.2.3"))
            ≠ OtherChannel name) as Hchannel.
  { intros name Heq. vm_compute in Heq. discriminate Heq. }
  split; [exact Hchannel|]. split; [reflexivity|].
  split; [vm_compute; reflexivity|].
  eapply (Build_fails_only_after_failure (Stub.handler Stub.fetch_fails)
            filepath_Join Stub.ChannelFor (Stub.request "1.2.3")
            (Stub.build_schedule Stub.fetch_fails (Stub.request "1.2.3")) 0).
  - exact Hchannel.
  - reflexivity.
  - vm_compute. reflexivity.
Defined.

(** The error [Build] returns when the download fails has the root cause of
    the error the download came back with. *)
Lemma Build_error_keeps_cause_witness :
  ∃ w' tr err,
    Build filepath_Join Stub.ChannelFor (Stub.handler Stub.fetch_fails)
      (Stub.request "1.2.3")
      (Stub.build_schedule Stub.fetch_fails (Stub.request "1.2.3")) 0
    = Some (w', tr, Some err)
    ∧ ∃ err0, root_cause err = root_cause err0
              ∧ (err0 ∈ made_errors (Stub.request "1.2.3")
                 ∨ ∃ t ev, LCall t ev ∈ tr ∧ answered_error ev = Some err0).
Proof.
  eexists _, _, _. split; [vm_compute; reflexivity|].
  eapply (Build_error_keeps_cause (Stub.handler Stub.fetch_fails)
            filepath_Join Stub.ChannelFor (Stub.request "1.2.3")
            (Stub.build_schedule Stub.fetch_fails (Stub.request "1.2.3")) 0).
  vm_compute. reflexivity.
Defined.

(** The start of the first goroutine comes after the calls of the
    preparation, which have all succeeded. *)
Lemma Build_starts_after_preparation_witness :
  ∃ w' r post,
    Build filepath_Join Stub.ChannelFor (Stub.handler Stub.all_fine)
      (Stub.request "1.2.3")
      (Stub.build_schedule Stub.all_fine (Stub.request "1.2.3")) 0
    = Some (w',
            main_calls
              (out_trace
                 (exec (Stub.handler Stub.all_fine)
                    (Build_prepare filepath_Join
                       (with_logger (Stub.request "1.2.3"))) 0))
            ++ LSpawn 0 :: post, r)
    ∧ by_caller (LSpawn 0) = false
    ∧ (∃ rest,
         main_calls
           (out_trace
              (exec (Stub.handler Stub.all_fine)
                 (Build_prepare filepath_Join
                    (with_logger (Stub.request "1.2.3"))) 0))
         = main_calls
             (out_trace
                (exec (Stub.handler Stub.all_fine)
                   (Build_prepare filepath_Join
                      (with_logger (Stub.request "1.2.3"))) 0)) ++ rest)
    ∧ map answered_error
        (externals
           (out_trace
              (exec (Stub.handler Stub.all_fine)
                 (Build_prepare filepath_Join
                    (with_logger (Stub.request "1.2.3"))) 0)))
      = replicate 6 None.
Proof.
  eexists _, _, _. split; [vm_compute; reflexivity|].
  split; [reflexivity|].
  eapply (Build_starts_after_preparation (Stub.handler Stub.all_fine)
            filepath_Join Stub.ChannelFor (Stub.request "1.2.3")
            (Stub.build_schedule Stub.all_fine (Stub.request "1.2.3")) 0
            _ _ _ _ _ (LSpawn 0)).
  - vm_compute. reflexivity.
  - reflexivity.
  - reflexivity.
Defined.

(** The build of the request in the world where all succeeds touches
    nothing outside /dist/linux_amd64 but version.cjs and the archive. *)
Lemma Build_keeps_to_staging_witness :
  ∃ w' tr r,
    Build filepath_Join Stub.ChannelFor (Stub.handler Stub.all_fine)
      (Stub.request "1.2.3")
      (Stub.build_schedule Stub.all_fine (Stub.request "1.2.3")) 0
    = Some (w', tr, r)
    ∧ (∀ i ev, LCall (TGo i) ev ∈ tr ->
         strays filepath_Join (Stub.request "1.2.3") ev = false)
    ∧ (∀ ev, LCall TMain ev ∈ tr ->
         caller_strays filepath_Join (Stub.request "1.2.3") ev = false).
Proof.
  eexists _, _, _. split; [vm_compute; reflexivity|].
  eapply (Build_keeps_to_staging (Stub.handler Stub.all_fine) filepath_Join
            Stub.ChannelFor (Stub.request "1.2.3")
            (Stub.build_schedule Stub.all_fine (Stub.request "1.2.3")) 0).
  vm_compute. reflexivity.
Defined.

(** The stamp of version 1.2.3 is the stamp of no other version. *)
Lemma version_cjs_inj_witness :
  version_cjs "1.2.3" = version_cjs ("1.2" +:+ ".3")
  ∧ "1.2.3" = "1.2" +:+ ".3".
Proof.
  split; [reflexivity|]. apply version_cjs_inj. reflexivity.
Defined.

(** The download of encore-go fails: the last line [downloadEncoreGo] logs
    is an error line with the error of the download. *)
Lemma Build_steps_log_their_outcome_witness :
  (∀ name,
     Stub.ChannelFor (Version (Stub.request "1.2.3")) ≠ OtherChannel name)
  ∧ Build_steps filepath_Join Stub.ChannelFor (Stub.request "1.2.3") !! 7
    = Some (downloadEncoreGo (Stub.request "1.2.3"))
  ∧ out_value (exec (Stub.handler Stub.fetch_fails)
                 (downloadEncoreGo (Stub.request "1.2.3")) 0)
    = Some (Some (errors_Wrap
                    (errors_New "download encoredev/go: stubbed to fail")
                    "download encore-go"))
  ∧ ∃ l, last (out_trace (exec (Stub.handler Stub.fetch_fails)
                            (downloadEncoreGo (Stub.request "1.2.3")) 0))
         = Some (Event (Log l) ())
         ∧ logged (Some (errors_Wrap
                           (errors_New
                              "download encoredev/go: stubbed to fail")
                           "download encore-go")) l.
Proof.
  assert (∀ name,
            Stub.ChannelFor (Version (Stub.request "1.2.3"))
            ≠ OtherChannel name) as Hchannel.
  { intros name Heq. vm_compute in Heq. discriminate Heq. }
  split; [exact Hchannel|]. split; [reflexivity|].
  split; [vm_compute; reflexivity|].
  apply (Build_steps_log_their_outcome (Stub.handler Stub.fetch_fails)
           filepath_Join Stub.ChannelFor (Stub.request "1.2.3") 7).
  - exact Hchannel.
  - reflexivity.
  - vm_compute. reflexivity.
Defined.

(** The build whose download fails ends on the caller's error line. *)
Lemma Build_logs_its_outcome_witness :
  ∃ w' tr r,
    Build filepath_Join Stub.ChannelFor (Stub.handler Stub.fetch_fails)
      (Stub.request "1.2.3")
      (Stub.build_schedule Stub.fetch_fails (Stub.request "1.2.3")) 0
    = Some (w', tr, r)
    ∧ ∃ l, last tr = Some (LCall TMain (Event (Log l) ())) ∧ logged r l.
Proof.
  eexists _, _, _. split; [vm_compute; reflexivity|].
  eapply (Build_logs_its_outcome (Stub.handler Stub.fetch_fails)
            filepath_Join Stub.ChannelFor (Stub.request "1.2.3")
            (Stub.build_schedule Stub.fetch_fails (Stub.request "1.2.3")) 0).
  vm_compute. reflexivity.
Defined.

(** [runParallel(three...)] run to its end: three goroutines started in
    order, three returns, three exits. *)
Lemma runParallel_runs_each_once_witness :
  ∃ s, run (Stub.handler Stub.all_fine)
         (Stub.schedule Stub.all_fine [2; 1; 0] Stub.three 0)
         (entry Stub.three 0) = Some s
       ∧ spawns (trace s) = [0; 1; 2]
       ∧ (∃ n, n ≤ length Stub.three ∧ spawns (trace s) = seq 0 n)
       ∧ (∀ i, length (exits_of i (trace s))
               ≤ length (returns_of i (trace s))
               ∧ length (returns_of i (trace s)) ≤ 1)
       ∧ (∀ err, main s = MReturned err ->
            spawns (trace s) = seq 0 (length Stub.three)
            ∧ ∀ i, i < length Stub.three ->
                (∃ r, returns_of i (trace s) = [r])
                ∧ exits_of i (trace s) = [()]).
Proof.
  eexists. split; [vm_compute; reflexivity|]. split; [reflexivity|].
  apply (runParallel_runs_each_once (Stub.handler Stub.all_fine) Stub.three 0
           (Stub.schedule Stub.all_fine [2; 1; 0] Stub.three 0)).
  vm_compute. reflexivity.
Defined.

(** The build of the request in the world where all succeeds returns nil:
    the seven calls of the caller and the work of the eight steps are all
    there. *)
Lemma Build_success_is_complete_witness :
  ∃ w' tr,
    Build filepath_Join Stub.ChannelFor (Stub.handler Stub.all_fine)
      (Stub.request "1.2.3")
      (Stub.build_schedule Stub.all_fine (Stub.request "1.2.3")) 0
    = Some (w', tr, None)
    ∧ externals (caller_calls tr)
      = zip_with (fun c x => Event c x)
          (prepare_calls filepath_Join (Stub.request "1.2.3"))
          (replicate 6 None)
        ++ [Event (TarGzip (DistBuildDir (Stub.request "1.2.3"))
                     (ArtifactsTarFile (Stub.request "1.2.3"))) None]
    ∧ ∀ i, i < 8 ->
        work filepath_Join (Stub.request "1.2.3") i (calls_of i tr).
Proof.
  eexists _, _. split; [vm_compute; reflexivity|].
  eapply (Build_success_is_complete (Stub.handler Stub.all_fine)
            filepath_Join Stub.ChannelFor (Stub.request "1.2.3")
            (Stub.build_schedule Stub.all_fine (Stub.request "1.2.3")) 0).
  vm_compute. reflexivity.
Defined.

End MoreWitnesses.
